(** * The HDFS block write stream (rpc/block_write_stream.go)

    A shallow embedding of the client side of the HDFS packet pipeline:
    the writer ([Write], [finish], [flush], [makePacket]), the framing
    ([writePacket], [writeHeartBeatPacket]) and the acker ([ackPackets]).

    Conventions of the embedding.
    - Go's [int] and [int64] are 64-bit two's complement integers; they are
      modelled as [Z] and every arithmetic result is wrapped explicitly.
    - A [[]byte] is a [list byte]; [len] is the length as a Go [int].
    - A run-time panic (slice out of range, send on or close of a closed
      channel) is the outcome [Panic]. The flush loop is driven by fuel;
      running out of it is the outcome [OutOfFuel], which [flush_total]
      shows never to happen.
    - The writer is one thread. What the two background goroutines do to the
      state it reads is modelled as environment steps: the acker latching
      [ackError], the heartbeater writing a keepalive frame.
    - Blocking (a full in-flight channel, a socket read) is not modelled:
      a channel is the log of what was sent on it plus its closed flag. *)

From Stdlib Require Import ZArith Lia Bool List.
From Stdlib Require Import Strings.Byte.
From stdpp Require Import base tactics option list numbers.

Local Open Scope Z_scope.

(** ** Outcomes of a computation *)

Inductive result (A : Type) : Type :=
| Done (a : A)
| Panic
| OutOfFuel.

Arguments Done {A} a.
Arguments Panic {A}.
Arguments OutOfFuel {A}.

Definition rbind {A B : Type} (m : result A) (f : A -> result B) : result B :=
  match m with
  | Done a => f a
  | Panic => Panic
  | OutOfFuel => OutOfFuel
  end.

Notation "'do' x <- m ; k" := (rbind m (fun x => k))
  (at level 10, x name, m at level 100, k at level 200).
Notation "'do' ' p <- m ; k" := (rbind m (fun x => match x with p => k end))
  (at level 10, p pattern, m at level 100, k at level 200).

(** ** Machine integers and bytes *)

Definition wrap_signed (bits x : Z) : Z :=
  (x + 2 ^ (bits - 1)) mod 2 ^ bits - 2 ^ (bits - 1).

(** [int] is taken at its 64-bit width. *)
Definition int (x : Z) : Z := wrap_signed 64 x.
Definition int64 (x : Z) : Z := wrap_signed 64 x.
Definition int32 (x : Z) : Z := wrap_signed 32 x.
Definition uint32 (x : Z) : Z := x mod 2 ^ 32.
Definition uint16 (x : Z) : Z := x mod 2 ^ 16.

Definition maxInt64 : Z := 2 ^ 63 - 1.

Definition len {A : Type} (l : list A) : Z := Z.of_nat (length l).

Definition byte_of_Z (z : Z) : byte :=
  default x00 (Byte.of_N (Z.to_N (z mod 256))).

Definition Z_of_byte (b : byte) : Z := Z.of_N (Byte.to_N b).

(** [make([]byte, n)] *)
Definition make (n : Z) : list byte := replicate (Z.to_nat n) x00.

(** [b[lo:hi]] and [b[lo:]] with Go's bounds checks. *)
Definition slice {A : Type} (b : list A) (lo hi : nat) : result (list A) :=
  if decide (lo <= hi <= length b)%nat then Done (take (hi - lo) (drop lo b))
  else Panic.

Definition slice_from {A : Type} (b : list A) (lo : nat) : result (list A) :=
  if decide (lo <= length b)%nat then Done (drop lo b) else Panic.

(** ** encoding/binary, big endian *)

(** [binary.BigEndian.PutUint32(b, v)]: the first four bytes of [b] are
    overwritten, the rest is kept; a slice shorter than four bytes panics. *)
Definition PutUint32 (b : list byte) (v : Z) : result (list byte) :=
  if decide (length b < 4)%nat then Panic
  else Done (byte_of_Z (Z.shiftr v 24) :: byte_of_Z (Z.shiftr v 16)
             :: byte_of_Z (Z.shiftr v 8) :: byte_of_Z v :: drop 4 b).

Definition PutUint16 (b : list byte) (v : Z) : result (list byte) :=
  if decide (length b < 2)%nat then Panic
  else Done (byte_of_Z (Z.shiftr v 8) :: byte_of_Z v :: drop 2 b).

(** [binary.BigEndian.Uint32(b)], used to read a frame's length field back. *)
Definition Uint32 (b : list byte) : result Z :=
  match b with
  | b0 :: b1 :: b2 :: b3 :: _ =>
      Done (Z.lor (Z.lor (Z.lor (Z_of_byte b3) (Z.shiftl (Z_of_byte b2) 8))
                         (Z.shiftl (Z_of_byte b1) 16))
                  (Z.shiftl (Z_of_byte b0) 24))
  | _ => Panic
  end.

(** The four big-endian bytes of a 32-bit value. *)
Definition be32 (v : Z) : list byte :=
  [byte_of_Z (Z.shiftr v 24); byte_of_Z (Z.shiftr v 16);
   byte_of_Z (Z.shiftr v 8); byte_of_Z v].

(** ** hash/crc32 (the bytewise table algorithm of the Go library) *)

Definition IEEE : Z := 0xedb88320.

Fixpoint tableEntry (k : nat) (poly crc : Z) : Z :=
  match k with
  | O => crc
  | S k' =>
      tableEntry k' poly
        (if Z.testbit crc 0 then Z.lxor (Z.shiftr crc 1) poly
         else Z.shiftr crc 1)
  end.

Definition simpleMakeTable (poly : Z) : list Z :=
  map (fun i : nat => tableEntry 8 poly (Z.of_nat i)) (seq 0 256).

Definition IEEETable : list Z := Eval vm_compute in simpleMakeTable IEEE.

Definition simpleUpdate (crc : Z) (tab : list Z) (p : list byte) : Z :=
  let crc := Z.lxor crc 0xffffffff in
  let crc :=
    fold_left
      (fun crc v =>
         Z.lxor (nth (Z.to_nat (Z.lxor (crc mod 256) (Z_of_byte v))) tab 0)
                (Z.shiftr crc 8))
      p crc in
  Z.lxor crc 0xffffffff.

Definition Checksum (data : list byte) (tab : list Z) : Z :=
  simpleUpdate 0 tab data.

(** ** Constants *)

Definition outboundPacketSize : Z := 65536.
Definition outboundChunkSize : Z := 512.
Definition maxPacketsInQueue : Z := 5.
Definition heartBeatSeqno : Z := -1.

(** ** Errors *)

(** [hdfs.Status] is a protobuf enum declared outside these sources; only
    its value [Status_SUCCESS] is used. *)
Definition Status : Type := Z.
Definition Status_SUCCESS : Status := 0.

Record ackError : Type := mkAckError {
  ae_pipelineIndex : Z;
  ae_seqno : Z;
  ae_status : Status
}.

(** The values of Go's [error] that occur: the sentinels [io.ErrClosedPipe],
    [ErrInvalidSeqno] and [io.EOF], the acker's [ackError], and an opaque
    error of the connection, the reader or the protobuf encoder, told apart
    by a code. *)
Inductive error : Type :=
| ErrClosedPipe
| ErrInvalidSeqno
| ErrAck (ae : ackError)
| EOF
| ErrIO (code : nat).

(** ** Packets *)

Record outboundPacket : Type := mkPacket {
  p_seqno : Z;
  p_offset : Z;
  p_last : bool;
  p_checksums : list byte;
  p_data : list byte
}.

(** The fields of [hdfs.PacketHeaderProto] that the stream sets. *)
Record PacketHeaderProto : Type := mkHeader {
  OffsetInBlock : Z;
  Seqno : Z;
  LastPacketInBlock : bool;
  DataLen : Z
}.

(** ** Channels and the connection *)

(** A channel as the writer sees it: everything sent so far and whether it
    has been closed. A send is recorded when it goes through: that it may
    first wait for room in the buffer of [maxPacketsInQueue] packets is not
    modelled, so a result of the model says what a call does if it returns,
    not that it returns. *)
Record chan (A : Type) : Type := mkChan {
  ch_sent : list A;
  ch_closed : bool
}.

Arguments mkChan {A} _ _.
Arguments ch_sent {A} _.
Arguments ch_closed {A} _.

Definition chan_make {A : Type} : chan A := mkChan [] false.

Definition chan_send {A : Type} (c : chan A) (x : A) : result (chan A) :=
  if ch_closed c then Panic else Done (mkChan (ch_sent c ++ [x]) false).

Definition chan_close {A : Type} (c : chan A) : result (chan A) :=
  if ch_closed c then Panic else Done (mkChan (ch_sent c) true).

(** The write side of [conn io.ReadWriter]: the byte slices written so far,
    one entry per successful [Write] call, and a script that decides which
    of the coming calls fail ([None], or an exhausted script: success). *)
Record Conn : Type := mkConn {
  written : list (list byte);
  faults : list (option error)
}.

Definition conn_Write (c : Conn) (b : list byte) : option error * Conn :=
  match faults c with
  | Some e :: rest => (Some e, mkConn (written c) rest)
  | None :: rest => (None, mkConn (written c ++ [b]) rest)
  | [] => (None, mkConn (written c ++ [b]) [])
  end.

(** ** The stream *)

Record blockWriteStream : Type := mkStream {
  conn : Conn;
  buf : list byte;
  offset : Z;
  closed : bool;
  packets : chan outboundPacket;
  seqno : Z;
  ackErr : option error;
  acksDoneWaits : nat;
  closeCh : chan unit
}.

Definition set_conn (s : blockWriteStream) (c : Conn) : blockWriteStream :=
  mkStream c (buf s) (offset s) (closed s) (packets s) (seqno s) (ackErr s)
           (acksDoneWaits s) (closeCh s).

Definition set_buf (s : blockWriteStream) (b : list byte) : blockWriteStream :=
  mkStream (conn s) b (offset s) (closed s) (packets s) (seqno s) (ackErr s)
           (acksDoneWaits s) (closeCh s).

Definition set_offset (s : blockWriteStream) (o : Z) : blockWriteStream :=
  mkStream (conn s) (buf s) o (closed s) (packets s) (seqno s) (ackErr s)
           (acksDoneWaits s) (closeCh s).

Definition set_closed (s : blockWriteStream) (b : bool) : blockWriteStream :=
  mkStream (conn s) (buf s) (offset s) b (packets s) (seqno s) (ackErr s)
           (acksDoneWaits s) (closeCh s).

Definition set_packets (s : blockWriteStream) (c : chan outboundPacket)
  : blockWriteStream :=
  mkStream (conn s) (buf s) (offset s) (closed s) c (seqno s) (ackErr s)
           (acksDoneWaits s) (closeCh s).

Definition set_seqno (s : blockWriteStream) (q : Z) : blockWriteStream :=
  mkStream (conn s) (buf s) (offset s) (closed s) (packets s) q (ackErr s)
           (acksDoneWaits s) (closeCh s).

Definition set_ackErr (s : blockWriteStream) (e : option error)
  : blockWriteStream :=
  mkStream (conn s) (buf s) (offset s) (closed s) (packets s) (seqno s) e
           (acksDoneWaits s) (closeCh s).

Definition set_acksDoneWaits (s : blockWriteStream) (n : nat)
  : blockWriteStream :=
  mkStream (conn s) (buf s) (offset s) (closed s) (packets s) (seqno s)
           (ackErr s) n (closeCh s).

Definition set_closeCh (s : blockWriteStream) (c : chan unit)
  : blockWriteStream :=
  mkStream (conn s) (buf s) (offset s) (closed s) (packets s) (seqno s)
           (ackErr s) (acksDoneWaits s) c.

(** [newBlockWriteStream]; the two goroutines it starts are the environment
    steps of [call] below. *)
Definition newBlockWriteStream (c : Conn) (off : Z) : blockWriteStream :=
  mkStream c [] off false chan_make 1 None 0 chan_make.

(** ** makePacket *)

(** [int(math.Ceil(float64(packetLength) / float64(outboundChunkSize)))]:
    both conversions and the division by a power of two are exact for the
    lengths that occur (at most 65536), so the result is the integer
    ceiling. *)
Definition ceilDiv (a b : Z) : Z := (a + b - 1) / b.

(** [io.ReadFull(&buf, dst)] with [dst] of length [n]: the bytes read and
    the rest of the buffer; a buffer that is too short leaves the tail of
    [dst] zero. *)
Definition ReadFull (b : list byte) (n : nat) : list byte * list byte :=
  (take n b ++ replicate (n - length b) x00, drop n b).

(** The checksum loop: [n] iterations are left, [i] is the loop variable. *)
Fixpoint checksumLoop (n i : nat) (data checksums : list byte)
  : result (list byte) :=
  match n with
  | O => Done checksums
  | S n' =>
      let chunkOff := (i * 512)%nat in
      let chunkEnd := (chunkOff + 512)%nat in
      let chunkEnd :=
        if decide (length data <= chunkEnd)%nat then length data
        else chunkEnd in
      do chunk <- slice data chunkOff chunkEnd;
      let checksum := Checksum chunk IEEETable in
      do dst <- slice_from checksums (i * 4);
      do dst' <- PutUint32 dst checksum;
      checksumLoop n' (S i) data (take (i * 4) checksums ++ dst')
  end.

Definition packetLengthOf (buffered off : Z) : Z :=
  let packetLength := outboundPacketSize in
  let packetLength :=
    if buffered <? outboundPacketSize then buffered else packetLength in
  let alignment := Z.rem (int off) outboundChunkSize in
  if (0 <? alignment) && (outboundChunkSize - alignment <? packetLength)
  then outboundChunkSize - alignment
  else packetLength.

Definition makePacket (s : blockWriteStream)
  : result (outboundPacket * blockWriteStream) :=
  let packetLength := packetLengthOf (len (buf s)) (offset s) in
  let numChunks := ceilDiv packetLength outboundChunkSize in
  let '(data, rest) := ReadFull (buf s) (Z.to_nat packetLength) in
  do checksums <-
    checksumLoop (Z.to_nat numChunks) 0 data (make (numChunks * 4));
  Done (mkPacket (seqno s) (offset s) false checksums data, set_buf s rest).


(** ** Framing and the writer

    [proto.Marshal] and the generated [PacketHeaderProto] code are outside
    these sources: the encoder is a parameter of the development. *)

Section Writer.

Variable Marshal : PacketHeaderProto -> list byte * option error.

Definition frameHeader (totalLength : Z) (infoBytes : list byte)
  : result (list byte) :=
  let header := make 6 in
  do header <- PutUint32 header (uint32 totalLength);
  do tl <- slice_from header 4;
  do tl' <- PutUint16 tl (uint16 (len infoBytes));
  let header := take 4 header ++ tl' in
  Done (header ++ infoBytes).

Definition writePacket (s : blockWriteStream) (p : outboundPacket)
  : result (option error * blockWriteStream) :=
  let headerInfo :=
    mkHeader (p_offset p) (int64 (p_seqno p)) (p_last p)
             (int32 (len (p_data p))) in
  let '(infoBytes, err) := Marshal headerInfo in
  match err with
  | Some e => Done (Some e, s)
  | None =>
      let totalLength := int (len (p_data p) + len (p_checksums p) + 4) in
      do header <- frameHeader totalLength infoBytes;
      let '(err, c) := conn_Write (conn s) header in
      match err with
      | Some e => Done (Some e, set_conn s c)
      | None =>
          let '(err, c) := conn_Write c (p_checksums p) in
          match err with
          | Some e => Done (Some e, set_conn s c)
          | None =>
              let '(err, c) := conn_Write c (p_data p) in
              match err with
              | Some e => Done (Some e, set_conn s c)
              | None => Done (None, set_conn s c)
              end
          end
      end
  end.

Definition heartBeatHeader : PacketHeaderProto :=
  mkHeader 0 heartBeatSeqno false 0.

Definition writeHeartBeatPacket (s : blockWriteStream)
  : result (option error * blockWriteStream) :=
  let '(infoBytes, err) := Marshal heartBeatHeader in
  match err with
  | Some e => Done (Some e, s)
  | None =>
      do header <- frameHeader 4 infoBytes;
      let '(err, c) := conn_Write (conn s) header in
      Done (err, set_conn s c)
  end.

(** The loop condition of [flush]. *)
Definition flushCond (force : bool) (s : blockWriteStream) : bool :=
  (0 <? len (buf s)) && (force || (outboundPacketSize <=? len (buf s))).

(** One iteration of the loop of [flush], up to the error test. *)
Definition flushBody (s : blockWriteStream)
  : result (option error * blockWriteStream) :=
  do '(packet, s) <- makePacket s;
  do ch <- chan_send (packets s) packet;
  let s := set_packets s ch in
  let s := set_offset s (int64 (offset s + int64 (len (p_data packet)))) in
  let s := set_seqno s (int (seqno s + 1)) in
  writePacket s packet.

Fixpoint flushLoop (fuel : nat) (force : bool) (s : blockWriteStream)
  : result (option error * blockWriteStream) :=
  if flushCond force s then
    match fuel with
    | O => OutOfFuel
    | S fuel' =>
        do '(err, s) <- flushBody s;
        match err with
        | Some e => Done (Some e, s)
        | None => flushLoop fuel' force s
        end
    end
  else Done (None, s).

(** Every iteration takes at least one byte out of the buffer, so its
    length is enough fuel. *)
Definition flush (force : bool) (s : blockWriteStream)
  : result (option error * blockWriteStream) :=
  flushLoop (length (buf s)) force s.

(** [Write]: [bytes.Buffer.Write] always takes the whole slice. *)
Definition Write (b : list byte) (s : blockWriteStream)
  : result (Z * option error * blockWriteStream) :=
  if closed s then Done (0, Some ErrClosedPipe, s)
  else
    match ackErr s with
    | Some e => Done (0, Some e, s)
    | None =>
        let n := len b in
        let s := set_buf s (buf s ++ b) in
        do '(err, s) <- flush false s;
        Done (n, err, s)
    end.

(** The body of [finish] after [s.closed = true]. *)
Definition finishBody (s : blockWriteStream)
  : result (option error * blockWriteStream) :=
  match ackErr s with
  | Some e => Done (Some e, s)
  | None =>
      do '(err, s) <- flush true s;
      match err with
      | Some e => Done (Some e, s)
      | None =>
          let lastPacket := mkPacket (seqno s) (offset s) true [] [] in
          do ch <- chan_send (packets s) lastPacket;
          let s := set_packets s ch in
          writePacket s lastPacket
      end
  end.

(** The deferred function of [finish]. [late] is what the acker assigned to
    [ackError] after the writer last read it and before [acksDone] was
    closed ([None]: nothing); it is seen only if nothing was latched
    before. The receive from [acksDone] is counted; how long it waits for
    the acker is not modelled. *)
Definition finishDeferred (late err : option error) (s : blockWriteStream)
  : result (option error * blockWriteStream) :=
  do c <- chan_close (closeCh s);
  let s := set_closeCh s c in
  do c <- chan_close (packets s);
  let s := set_packets s c in
  let s := set_acksDoneWaits s (S (acksDoneWaits s)) in
  let s := match ackErr s with
           | Some _ => s
           | None => set_ackErr s late
           end in
  match ackErr s with
  | Some e => Done (Some e, s)
  | None => Done (err, s)
  end.

Definition finish (late : option error) (s : blockWriteStream)
  : result (option error * blockWriteStream) :=
  if closed s then Done (None, s)
  else
    let s := set_closed s true in
    do '(err, s) <- finishBody s;
    finishDeferred late err s.

(** The acker's one assignment to [ackError], seen from the writer. *)
Definition ackerLatches (e : error) (s : blockWriteStream) : blockWriteStream :=
  match ackErr s with
  | Some _ => s
  | None => set_ackErr s (Some e)
  end.

(** ** Runs: calls of the API interleaved with environment steps *)

Inductive call : Type :=
| CallWrite (b : list byte)
| CallFinish (late : option error)
| AckerLatches (e : error)
| HeartBeat.

Inductive reply : Type :=
| RetWrite (b : list byte) (n : Z) (err : option error)
| RetFinish (err : option error)
| RetEnv.

Definition step (c : call) (s : blockWriteStream)
  : result (reply * blockWriteStream) :=
  match c with
  | CallWrite b =>
      do '(n, err, s) <- Write b s; Done (RetWrite b n err, s)
  | CallFinish late =>
      do '(err, s) <- finish late s; Done (RetFinish err, s)
  | AckerLatches e => Done (RetEnv, ackerLatches e s)
  | HeartBeat =>
      do '(_, s) <- writeHeartBeatPacket s; Done (RetEnv, s)
  end.

Fixpoint run (cs : list call) (s : blockWriteStream)
  : result (list reply * blockWriteStream) :=
  match cs with
  | [] => Done ([], s)
  | c :: cs' =>
      do '(r, s) <- step c s;
      do '(rs, s) <- run cs' s;
      Done (r :: rs, s)
  end.

Definition isFinish (c : call) : bool :=
  match c with CallFinish _ => true | _ => false end.

(** The bytes a reply reports as accepted: [b[:n]] of a [Write]. *)
Definition acceptedBy (r : reply) : list byte :=
  match r with
  | RetWrite b n _ => take (Z.to_nat n) b
  | _ => []
  end.

Definition accepted (rs : list reply) : list byte :=
  concat (map acceptedBy rs).

(** Packets handed to the in-flight channel, in the order of emission. *)
Definition emitted (s : blockWriteStream) : list outboundPacket :=
  ch_sent (packets s).

Definition dataPackets (ps : list outboundPacket) : list outboundPacket :=
  filter (fun p => p_last p = false) ps.

Definition dataOf (ps : list outboundPacket) : list byte :=
  concat (map p_data ps).

Definition dataLen (ps : list outboundPacket) : Z := len (dataOf ps).

End Writer.

(** An encoder to run the model with: fixed-width fields behind one-byte
    tags. Nothing proved below depends on its choice. *)
Definition le_bytes (n : nat) (v : Z) : list byte :=
  map (fun i : nat => byte_of_Z (Z.shiftr v (8 * Z.of_nat i))) (seq 0 n).

Definition fixedMarshal (h : PacketHeaderProto) : list byte * option error :=
  (byte_of_Z 9 :: le_bytes 8 (OffsetInBlock h)
   ++ byte_of_Z 17 :: le_bytes 8 (Seqno h)
   ++ byte_of_Z 24 :: (if LastPacketInBlock h then x01 else x00)
   :: byte_of_Z 37 :: le_bytes 4 (DataLen h), None).

(** ** The acker *)

Record PipelineAckProto : Type := mkAck {
  ack_seqno : Z;
  ack_reply : list Status
}.

(** What one read of an ack brings: a decoded message or an error. *)
Inductive ackRead : Type :=
| ReadAck (ack : PipelineAckProto)
| ReadErr (e : error).

(** Modelled from the spec: [readPrefixedMessage] is defined in a file of the
    package that is not among these sources. The spec has the acker read
    length-prefixed ack messages from the socket in order, each read either
    yielding an ack or failing (socket read or decode failure). The socket's
    read side is the list of the outcomes of the coming reads; a read after
    the last one fails with [io.EOF]. Every read returns: a socket that
    stays silent is not modelled. *)
Definition readPrefixedMessage (reader : list ackRead) : ackRead * list ackRead :=
  match reader with
  | [] => (ReadErr EOF, [])
  | r :: rest => (r, rest)
  end.

(** What the acker does, in order. *)
Inductive ackEvent : Type :=
| Dequeued (p : outboundPacket)
| ChannelClosed
| SocketRead (r : ackRead)
| Latched (e : error).

(** [for i, status := range ack.GetReply()], from index [i] on. *)
Fixpoint firstFailure (i : Z) (reply : list Status) : option (Z * Status) :=
  match reply with
  | [] => None
  | status :: rest =>
      if decide (status <> Status_SUCCESS) then Some (i, status)
      else firstFailure (i + 1) rest
  end.

(** How the inner loop is left: by [break L] with the error assigned to
    [ackError], or by [break] with the ack's seqno. *)
Inductive innerExit : Type :=
| BreakL (e : error)
| BreakSeqno (seqno : Z).

(** One pass of the inner loop on the outcome of its read: either the way
    the loop is left, or [None] when it goes round again. *)
Definition ackOnce (r : ackRead) : option innerExit :=
  match r with
  | ReadErr err => Some (BreakL err)
  | ReadAck ack =>
      let seqno := int (ack_seqno ack) in
      match firstFailure 0 (ack_reply ack) with
      | Some (i, status) => Some (BreakL (ErrAck (mkAckError i seqno status)))
      | None =>
          if decide (seqno <> heartBeatSeqno) then Some (BreakSeqno seqno)
          else None
      end
  end.

(** The inner loop: the reads made, how the loop is left, and what is left
    to read. Each pass consumes one outcome, [readPrefixedMessage] of the
    reader. *)
Fixpoint readAcks (reader : list ackRead)
  : list ackEvent * innerExit * list ackRead :=
  match reader with
  | [] => ([SocketRead (ReadErr EOF)], BreakL EOF, [])
  | r :: rest =>
      match ackOnce r with
      | Some exit => ([SocketRead r], exit, rest)
      | None =>
          let '(evs, exit, rest') := readAcks rest in
          (SocketRead r :: evs, exit, rest')
      end
  end.

(** [for _ = range s.packets {}] on the packets still to come. *)
Definition drain (ch : list outboundPacket) : list ackEvent :=
  map Dequeued ch ++ [ChannelClosed].

Record ackerRun : Type := mkAckerRun {
  events : list ackEvent;
  latched : option error;
  unread : list ackRead
}.

(** [ackPackets] on the packets that are sent on the channel before it is
    closed and on the socket's read outcomes. *)
Fixpoint ackPackets (ch : list outboundPacket) (reader : list ackRead)
  : ackerRun :=
  match ch with
  | [] => mkAckerRun [ChannelClosed] None reader
  | p :: ch' =>
      let '(evs, exit, rest) := readAcks reader in
      match exit with
      | BreakL e =>
          mkAckerRun (Dequeued p :: evs ++ Latched e :: drain ch') (Some e) rest
      | BreakSeqno seqno =>
          if decide (seqno <> p_seqno p) then
            mkAckerRun
              (Dequeued p :: evs ++ Latched ErrInvalidSeqno :: drain ch')
              (Some ErrInvalidSeqno) rest
          else
            let r := ackPackets ch' rest in
            mkAckerRun (Dequeued p :: evs ++ events r) (latched r) (unread r)
      end
  end.

(** ** What the proofs speak about *)

(** The chunk [data[512*i .. min(512*(i+1), L))] of a payload of length [L]. *)
Definition chunkOf (data : list byte) (i : nat) : list byte :=
  take (Nat.min (512 * (i + 1)) (length data) - 512 * i) (drop (512 * i) data).

(** The checksum array of a payload: one big-endian CRC per chunk. *)
Definition checksumsFor (data : list byte) : list byte :=
  concat (map (fun i => be32 (Checksum (chunkOf data i) IEEETable))
              (seq 0 (Z.to_nat (ceilDiv (len data) outboundChunkSize)))).

(** The packet [makePacket] cuts from buffer [b] at offset [off] with
    sequence number [q]. *)
Definition packetAt (b : list byte) (off q : Z) : outboundPacket :=
  let data := take (Z.to_nat (packetLengthOf (len b) off)) b in
  mkPacket q off false (checksumsFor data) data.

(** [writePacket] has returned [nil] for each of the packets, in order,
    taking the connection from the first to the last argument. *)
Inductive wrote (Marshal : PacketHeaderProto -> list byte * option error)
  : Conn -> list outboundPacket -> Conn -> Prop :=
| wrote_nil c : wrote Marshal c [] c
| wrote_cons s p s1 ps c' :
    writePacket Marshal s p = Done (None, s1) ->
    wrote Marshal (conn s1) ps c' ->
    wrote Marshal (conn s) (p :: ps) c'.

(** The terminal packet of [finish]. *)
Definition terminalOf (s : blockWriteStream) : outboundPacket :=
  mkPacket (seqno s) (offset s) true [] [].

(** The packets of one run of the loop of [flush]: from buffer, offset and
    seqno before to buffer, offset and seqno after. *)
Inductive drained (force : bool)
  : list byte -> Z -> Z -> list outboundPacket -> list byte -> Z -> Z -> Prop :=
| drained_nil b o q : drained force b o q [] b o q
| drained_cons b o q ps b' o' q' :
    0 < len b ->
    force = true \/ outboundPacketSize <= len b ->
    drained force (drop (length (p_data (packetAt b o q))) b)
            (int64 (o + int64 (len (p_data (packetAt b o q)))))
            (int (q + 1)) ps b' o' q' ->
    drained force b o q (packetAt b o q :: ps) b' o' q'.

(** A run of data packets whose seqnos and offsets follow on from [q] and
    [o] and whose checksums are those of their payload. *)
Inductive pchain : Z -> Z -> list outboundPacket -> Z -> Z -> Prop :=
| pchain_nil o q : pchain o q [] o q
| pchain_cons o q p ps o' q' :
    p_seqno p = q ->
    p_offset p = o ->
    p_last p = false ->
    p_checksums p = checksumsFor (p_data p) ->
    0 < len (p_data p) <= outboundPacketSize ->
    pchain (int64 (o + int64 (len (p_data p)))) (int (q + 1)) ps o' q' ->
    pchain o q (p :: ps) o' q'.

Definition aligned (off : Z) : Prop := off mod outboundChunkSize = 0.

(** A stream that has not been finished has both of its channels open. *)
Definition channelsOpen (s : blockWriteStream) : Prop :=
  closed s = false ->
  ch_closed (packets s) = false /\ ch_closed (closeCh s) = false.

(** What one step does to the writer's side of the stream. *)
Inductive effect (s : blockWriteStream) (r : reply) (s' : blockWriteStream)
  : Prop :=
| effect_idle :
    emitted s' = emitted s -> buf s' = buf s -> offset s' = offset s ->
    seqno s' = seqno s -> closed s' = closed s -> acceptedBy r = [] ->
    (forall err, r <> RetFinish err \/ closed s = true) ->
    effect s r s'
| effect_write b err ps :
    r = RetWrite b (len b) err ->
    closed s = false -> closed s' = false ->
    drained false (buf s ++ b) (offset s) (seqno s) ps
            (buf s') (offset s') (seqno s') ->
    emitted s' = emitted s ++ ps ->
    effect s r s'
| effect_finish err ps ts :
    r = RetFinish err ->
    closed s = false -> closed s' = true ->
    drained true (buf s) (offset s) (seqno s) ps
            (buf s') (offset s') (seqno s') ->
    emitted s' = emitted s ++ ps ++ ts ->
    ts = [] \/ ts = [terminalOf s'] ->
    (err = None -> ts = [terminalOf s'] /\ buf s' = []) ->
    effect s r s'.

(** The invariant of the emitted packets of a stream started at [start]. *)
Record Inv (start : Z) (s : blockWriteStream) : Prop := mkInv {
  inv_chain :
    pchain start 1 (dataPackets (emitted s)) (offset s) (seqno s);
  inv_shape :
    emitted s = dataPackets (emitted s)
    \/ (closed s = true
        /\ emitted s = dataPackets (emitted s) ++ [terminalOf s])
}.

(** Chunk alignment of the emitted data packets. *)
Record AlignInv (start : Z) (s : blockWriteStream) : Prop := mkAlignInv {
  al_tail : Forall (fun p => aligned (p_offset p))
                   (tail (dataPackets (emitted s)));
  al_next :
    (dataPackets (emitted s) = [] /\ offset s = start)
    \/ aligned (offset s) \/ closed s = true;
  al_range : - 2 ^ 63 <= offset s < 2 ^ 63
}.

(** Seqno, offset, last flag, data length and checksum length of a packet. *)
Definition summary (p : outboundPacket) : Z * Z * bool * Z * Z :=
  (p_seqno p, p_offset p, p_last p, len (p_data p), len (p_checksums p)).

(** Events of the acker other than an assignment to [ackError]. *)
Definition notLatched (ev : ackEvent) : Prop :=
  match ev with Latched _ => False | _ => True end.

(** The packet length in the words of the specification: the tentative
    length is [min(buffered, 65536)]; with [alignment = offset mod 512], if
    [alignment > 0] and the tentative length exceeds [512 - alignment], the
    length is capped to [512 - alignment]. *)
Definition spec_packet_length (buffered off : Z) : Z :=
  let tentative := Z.min buffered 65536 in
  let alignment := off mod 512 in
  if decide (alignment > 0 /\ tentative > 512 - alignment)
  then 512 - alignment
  else tentative.

(** ** The heartbeater *)

(** Which case a [select] of [sendHeartBeats] takes. *)
Inductive selected : Type :=
| TickerFired
| CloseChClosed.

(** [sendHeartBeats] on the cases its successive [select]s take; when the
    list ends the goroutine is left waiting in [select]. The result is what
    was printed to standard error (the errors of the heartbeat writes) and
    the stream. *)
Fixpoint sendHeartBeats (Marshal : PacketHeaderProto -> list byte * option error)
    (sel : list selected) (s : blockWriteStream)
  : result (list error * blockWriteStream) :=
  match sel with
  | [] => Done ([], s)
  | TickerFired :: sel' =>
      do '(err, s) <- writeHeartBeatPacket Marshal s;
      do '(printed, s) <- sendHeartBeats Marshal sel' s;
      Done (match err with
            | Some e => e :: printed
            | None => printed
            end, s)
  | CloseChClosed :: _ => Done ([], s)
  end.

(** ** More of what the proofs speak about *)

(** The header [writePacket] builds for a packet. *)
Definition headerOf (p : outboundPacket) : PacketHeaderProto :=
  mkHeader (p_offset p) (int64 (p_seqno p)) (p_last p) (int32 (len (p_data p))).

(** The three slices of a packet's frame, in the order [writePacket] writes
    them; none when the header cannot be encoded. *)
Definition frameOf (Marshal : PacketHeaderProto -> list byte * option error)
    (p : outboundPacket) : list (list byte) :=
  match Marshal (headerOf p) with
  | (infoBytes, None) =>
      [be32 (uint32 (int (len (p_data p) + len (p_checksums p) + 4)))
       ++ [byte_of_Z (Z.shiftr (uint16 (len infoBytes)) 8);
           byte_of_Z (uint16 (len infoBytes))]
       ++ infoBytes;
       p_checksums p; p_data p]
  | (_, Some _) => []
  end.

(** The one slice of a heartbeat frame. *)
Definition heartBeatFrame (infoBytes : list byte) : list byte :=
  be32 4
  ++ [byte_of_Z (Z.shiftr (uint16 (len infoBytes)) 8);
      byte_of_Z (uint16 (len infoBytes))]
  ++ infoBytes.

(** The ack of a heartbeat: every status SUCCESS and the heartbeat seqno. *)
Definition isHeartBeatAck (r : ackRead) : bool :=
  match r with
  | ReadAck ack =>
      forallb (fun status => status =? Status_SUCCESS) (ack_reply ack)
      && (int (ack_seqno ack) =? heartBeatSeqno)
  | ReadErr _ => false
  end.

(** The ack of a packet from a pipeline of [n] replicas, all SUCCESS. *)
Definition ackFor (n : nat) (p : outboundPacket) : ackRead :=
  ReadAck (mkAck (p_seqno p) (replicate n Status_SUCCESS)).

(** The packet an event of the acker takes off the channel, if any. *)
Definition dequeuedPacket (ev : ackEvent) : option outboundPacket :=
  match ev with Dequeued p => Some p | _ => None end.

(** The outcome of a read an event of the acker makes, if any. *)
Definition readOutcome (ev : ackEvent) : option ackRead :=
  match ev with SocketRead r => Some r | _ => None end.

Definition latchedError (ev : ackEvent) : option error :=
  match ev with Latched e => Some e | _ => None end.

(** The part of the stream that only the writer's own calls change. *)
Definition writerState (s : blockWriteStream)
  : list byte * Z * bool * chan outboundPacket * Z * nat * chan unit :=
  (buf s, offset s, closed s, packets s, seqno s, acksDoneWaits s, closeCh s).

(** A reply that reports nothing accepted and, for a [Write], an error. *)
Definition refused (r : reply) : Prop :=
  match r with
  | RetWrite _ n err => n = 0 /\ err <> None
  | RetFinish _ => True
  | RetEnv => True
  end.

(** * Properties *)

Example crc32_check_value :
  Checksum (map byte_of_Z [49; 50; 51; 52; 53; 54; 55; 56; 57]) IEEETable
  = 0xCBF43926.
Proof. vm_compute. reflexivity. Qed.

(** ** Machine arithmetic *)

Lemma wrap_signed_range bits x :
  0 < bits -> - 2 ^ (bits - 1) <= wrap_signed bits x < 2 ^ (bits - 1).
Proof.
  intros Hb. unfold wrap_signed.
  assert (H2 : 2 ^ bits = 2 * 2 ^ (bits - 1)).
  { rewrite <- Z.pow_succ_r by lia. f_equal. lia. }
  assert (0 < 2 ^ (bits - 1)) by (apply Z.pow_pos_nonneg; lia).
  pose proof (Z.mod_pos_bound (x + 2 ^ (bits - 1)) (2 ^ bits)). lia.
Qed.

Lemma wrap_signed_small bits x :
  0 < bits -> - 2 ^ (bits - 1) <= x < 2 ^ (bits - 1) -> wrap_signed bits x = x.
Proof.
  intros Hb Hx. unfold wrap_signed.
  assert (H2 : 2 ^ bits = 2 * 2 ^ (bits - 1)).
  { rewrite <- Z.pow_succ_r by lia. f_equal. lia. }
  rewrite Z.mod_small by lia. lia.
Qed.

Lemma wrap_signed_add_l bits x y :
  0 < bits -> wrap_signed bits (wrap_signed bits x + y) = wrap_signed bits (x + y).
Proof.
  intros Hb. unfold wrap_signed. f_equal.
  assert (H2 : 2 ^ bits = 2 * 2 ^ (bits - 1)).
  { rewrite <- Z.pow_succ_r by lia. f_equal. lia. }
  assert (0 < 2 ^ (bits - 1)) by (apply Z.pow_pos_nonneg; lia).
  replace ((x + 2 ^ (bits - 1)) mod 2 ^ bits - 2 ^ (bits - 1) + y
           + 2 ^ (bits - 1))
    with ((x + 2 ^ (bits - 1)) mod 2 ^ bits + y) by lia.
  rewrite Z.add_mod_idemp_l by lia. f_equal. lia.
Qed.

Lemma int64_range x : - 2 ^ 63 <= int64 x < 2 ^ 63.
Proof. apply (wrap_signed_range 64). lia. Qed.

Lemma int64_small x : - 2 ^ 63 <= x < 2 ^ 63 -> int64 x = x.
Proof. apply (wrap_signed_small 64). lia. Qed.

Lemma int64_add_l x y : int64 (int64 x + y) = int64 (x + y).
Proof. apply (wrap_signed_add_l 64). lia. Qed.

Lemma int64_add_r x y : int64 (x + int64 y) = int64 (x + y).
Proof. rewrite (Z.add_comm x), int64_add_l. f_equal. lia. Qed.

Lemma int64_mod_512 x : int64 x mod 512 = x mod 512.
Proof.
  unfold int64, wrap_signed.
  pose proof (Z.div_mod (x + 2 ^ (64 - 1)) (2 ^ 64) ltac:(lia)) as Hdm.
  replace ((x + 2 ^ (64 - 1)) mod 2 ^ 64 - 2 ^ (64 - 1))
    with (x + (- (2 ^ 55 * ((x + 2 ^ (64 - 1)) / 2 ^ 64))) * 512) by lia.
  apply Z.mod_add. lia.
Qed.

Lemma aligned_int64 x : aligned (int64 x) <-> aligned x.
Proof. unfold aligned, outboundChunkSize. rewrite int64_mod_512. tauto. Qed.

Lemma rem_512_aligned x : Z.rem x 512 = 0 <-> aligned x.
Proof.
  unfold aligned, outboundChunkSize.
  rewrite Z.rem_divide, Z.mod_divide by lia. tauto.
Qed.

Lemma rem_512_nonneg x : 0 <= x -> Z.rem x 512 = x mod 512.
Proof. intros. apply Z.rem_mod_nonneg; lia. Qed.

(** ** Bytes and big-endian words *)

Lemma Z_of_byte_of_Z z : Z_of_byte (byte_of_Z z) = z mod 256.
Proof.
  unfold Z_of_byte, byte_of_Z.
  pose proof (Z.mod_pos_bound z 256 ltac:(lia)) as Hr.
  destruct (Byte.of_N (Z.to_N (z mod 256))) as [b|] eqn:E.
  - apply Byte.to_of_N in E. simpl. rewrite E. lia.
  - apply Byte.of_N_None_iff in E. lia.
Qed.

Lemma Z_of_byte_range b : 0 <= Z_of_byte b < 256.
Proof.
  unfold Z_of_byte. pose proof (Byte.to_N_bounded b). lia.
Qed.

Lemma length_be32 v : length (be32 v) = 4%nat.
Proof. reflexivity. Qed.

Lemma PutUint32_be32 b v :
  (4 <= length b)%nat -> PutUint32 b v = Done (be32 v ++ drop 4 b).
Proof.
  intros H. unfold PutUint32. destruct (decide (length b < 4)%nat); [lia|].
  reflexivity.
Qed.

Lemma Uint32_be32 v rest :
  0 <= v < 2 ^ 32 -> Uint32 (be32 v ++ rest) = Done v.
Proof.
  intros Hv. unfold be32, Uint32. cbn [app]. f_equal.
  rewrite !Z_of_byte_of_Z. change 256 with (2 ^ 8).
  apply Z.bits_inj'. intros n Hn.
  rewrite !Z.lor_spec, !Z.shiftl_spec by lia.
  destruct (Z_lt_dec n 8).
  { rewrite Z.mod_pow2_bits_low by lia.
    rewrite !(Z.testbit_neg_r _ (n - _)) by lia.
    rewrite !orb_false_r. reflexivity. }
  rewrite (Z.mod_pow2_bits_high v) by lia. cbn [orb].
  destruct (Z_lt_dec n 16).
  { rewrite Z.mod_pow2_bits_low, Z.shiftr_spec by lia.
    rewrite !(Z.testbit_neg_r _ (n - _)) by lia.
    rewrite !orb_false_r. f_equal. lia. }
  rewrite (Z.mod_pow2_bits_high _ 8 (n - 8)) by lia. cbn [orb].
  destruct (Z_lt_dec n 24).
  { rewrite Z.mod_pow2_bits_low, Z.shiftr_spec by lia.
    rewrite !(Z.testbit_neg_r _ (n - _)) by lia.
    rewrite !orb_false_r. f_equal. lia. }
  rewrite (Z.mod_pow2_bits_high _ 8 (n - 16)) by lia. cbn [orb].
  destruct (Z_lt_dec n 32).
  { rewrite Z.mod_pow2_bits_low, Z.shiftr_spec by lia. f_equal. lia. }
  rewrite (Z.mod_pow2_bits_high _ 8 (n - 24)) by lia.
  symmetry. rewrite <- (Z.mod_small v (2 ^ 32)) by lia.
  apply Z.mod_pow2_bits_high. lia.
Qed.

(** ** The CRC is a 32-bit value *)

Lemma testbit_above a n k :
  0 <= a < 2 ^ n -> 0 <= n <= k -> Z.testbit a k = false.
Proof.
  intros Ha Hk. rewrite <- (Z.mod_small a (2 ^ n)) by lia.
  apply Z.mod_pow2_bits_high. lia.
Qed.

Lemma lxor_below a b n :
  0 <= n -> 0 <= a < 2 ^ n -> 0 <= b < 2 ^ n -> 0 <= Z.lxor a b < 2 ^ n.
Proof.
  intros Hn Ha Hb.
  assert (Hm : Z.lxor a b mod 2 ^ n = Z.lxor a b).
  { apply Z.bits_inj'. intros k Hk. destruct (Z_lt_dec k n).
    - apply Z.mod_pow2_bits_low. lia.
    - rewrite Z.mod_pow2_bits_high, Z.lxor_spec by lia.
      rewrite (testbit_above a n k), (testbit_above b n k) by lia.
      reflexivity. }
  rewrite <- Hm. apply Z.mod_pos_bound. apply Z.pow_pos_nonneg; lia.
Qed.

Lemma IEEETable_entries :
  Forall (fun e => 0 <= e < 2 ^ 32) IEEETable.
Proof. apply (bool_decide_eq_true_1 _). vm_compute. reflexivity. Qed.

Lemma IEEETable_nth k : 0 <= nth k IEEETable 0 < 2 ^ 32.
Proof.
  destruct (Nat.lt_ge_cases k (length IEEETable)) as [Hlt|Hge].
  - pose proof IEEETable_entries as HF.
    rewrite List.Forall_forall in HF. apply HF.
    apply nth_In. exact Hlt.
  - rewrite nth_overflow by exact Hge. lia.
Qed.

Lemma Checksum_range data : 0 <= Checksum data IEEETable < 2 ^ 32.
Proof.
  unfold Checksum, simpleUpdate.
  apply lxor_below; [lia| |lia].
  assert (H0 : 0 <= Z.lxor 0 4294967295 < 2 ^ 32) by (change (Z.lxor 0 4294967295) with 4294967295; lia).
  revert H0. generalize (Z.lxor 0 4294967295).
  induction data as [|v data IH]; intros crc Hcrc; cbn [fold_left].
  - exact Hcrc.
  - apply IH. apply lxor_below; [lia|apply IEEETable_nth|].
    rewrite Z.shiftr_div_pow2 by lia. split.
    + apply Z.div_pos; lia.
    + apply Z.div_lt_upper_bound; lia.
Qed.

(** ** The checksum loop *)

Lemma slice_ok {A : Type} (b : list A) lo hi :
  (lo <= hi <= length b)%nat -> slice b lo hi = Done (take (hi - lo) (drop lo b)).
Proof. intros H. unfold slice. destruct (decide _); [reflexivity|tauto]. Qed.

Lemma slice_from_ok {A : Type} (b : list A) lo :
  (lo <= length b)%nat -> slice_from b lo = Done (drop lo b).
Proof. intros H. unfold slice_from. destruct (decide _); [reflexivity|tauto]. Qed.

Lemma checksumLoop_spec n : forall i data cs,
  (4 * (i + n) <= length cs)%nat ->
  (n = 0 \/ 512 * (i + n - 1) < length data)%nat ->
  checksumLoop n i data cs
  = Done (take (4 * i) cs
          ++ concat (map (fun j => be32 (Checksum (chunkOf data j) IEEETable))
                         (seq i n))
          ++ drop (4 * (i + n)) cs).
Proof.
  induction n as [|n IH]; intros i data cs Hcs Hdata.
  - cbn [checksumLoop seq map concat app]. f_equal.
    rewrite Nat.add_0_r, take_drop. reflexivity.
  - cbn [checksumLoop].
    destruct Hdata as [Hdata|Hdata]; [discriminate|].
    rewrite slice_ok by (case_decide; lia). cbn [rbind].
    rewrite slice_from_ok by lia. cbn [rbind].
    rewrite PutUint32_be32 by (rewrite length_drop; lia).
    cbn [rbind].
    rewrite IH.
    + f_equal. cbn [seq map concat].
      assert (Hchunk :
        take ((if decide (length data <= i * 512 + 512)%nat then length data
               else (i * 512 + 512)%nat) - i * 512) (drop (i * 512) data)
        = chunkOf data i).
      { unfold chunkOf. f_equal; [|f_equal; lia]. case_decide; lia. }
      rewrite Hchunk.
      set (w := be32 (Checksum (chunkOf data i) IEEETable)).
      assert (Hw : length w = 4%nat) by reflexivity.
      rewrite drop_drop.
      replace (4 * S i)%nat with (length (take (i * 4) cs ++ w)).
      2:{ rewrite length_app, length_take, Hw. lia. }
      rewrite (app_assoc (take (i * 4) cs) w), take_app_length.
      rewrite <- !app_assoc. replace (i * 4)%nat with (4 * i)%nat by lia.
      f_equal. f_equal. f_equal.
      rewrite !app_assoc, drop_app_ge.
      2:{ rewrite length_app, length_take, Hw. lia. }
      rewrite drop_drop. f_equal.
      rewrite length_app, length_take, Hw. lia.
    + rewrite !length_app, length_take, length_be32, !length_drop. lia.
    + right. lia.
Qed.

(** ** makePacket *)

Lemma packetLengthOf_bounds buffered off :
  0 <= buffered ->
  0 <= packetLengthOf buffered off <= buffered
  /\ packetLengthOf buffered off <= outboundPacketSize
  /\ (0 < buffered -> 0 < packetLengthOf buffered off).
Proof.
  intros Hb. unfold packetLengthOf, outboundPacketSize, outboundChunkSize.
  pose proof (Z.rem_bound_abs (int off) 512 ltac:(lia)) as Hr.
  destruct (buffered <? 65536) eqn:E1;
    destruct (0 <? Z.rem (int off) 512) eqn:E2; cbn [andb];
    try destruct (512 - Z.rem (int off) 512 <? _) eqn:E3; lia.
Qed.

Lemma ceilDiv_512 a :
  0 <= a ->
  0 <= ceilDiv a 512 /\ a <= 512 * ceilDiv a 512 < a + 512.
Proof. intros Ha. unfold ceilDiv. Z.div_mod_to_equations. lia. Qed.

Lemma length_make n : length (make n) = Z.to_nat n.
Proof. unfold make. apply length_replicate. Qed.

Lemma makePacket_eq s :
  makePacket s
  = Done (packetAt (buf s) (offset s) (seqno s),
          set_buf s (drop (length (p_data (packetAt (buf s) (offset s) (seqno s))))
                          (buf s))).
Proof.
  unfold makePacket, packetAt, ReadFull. cbn [p_data].
  set (pl := packetLengthOf (len (buf s)) (offset s)).
  destruct (packetLengthOf_bounds (len (buf s)) (offset s)) as (Hpl & Hmax & _);
    [unfold len; lia|]. fold pl in Hpl, Hmax.
  assert (Hn : (Z.to_nat pl <= length (buf s))%nat) by (unfold len in Hpl; lia).
  replace (Z.to_nat pl - length (buf s))%nat with 0%nat by lia.
  cbn [replicate]. rewrite app_nil_r.
  assert (Hlen : len (take (Z.to_nat pl) (buf s)) = pl).
  { unfold len. rewrite length_take. lia. }
  destruct (ceilDiv_512 pl) as (Hc0 & Hc); [lia|].
  unfold outboundChunkSize.
  rewrite checksumLoop_spec.
  - cbn [rbind]. rewrite length_take.
    replace (Nat.min (Z.to_nat pl) (length (buf s))) with (Z.to_nat pl) by lia.
    f_equal. f_equal. f_equal.
    rewrite drop_ge by (rewrite length_make; lia).
    rewrite app_nil_r. cbn [take app].
    unfold checksumsFor, outboundChunkSize. rewrite Hlen. reflexivity.
  - rewrite length_make. lia.
  - rewrite length_take. lia.
Qed.

Lemma packetAt_data_length b o q :
  len (p_data (packetAt b o q)) = packetLengthOf (len b) o.
Proof.
  unfold packetAt. cbn [p_data]. unfold len at 1. rewrite length_take.
  destruct (packetLengthOf_bounds (len b) o) as (H & _); [unfold len; lia|].
  unfold len in *. lia.
Qed.

(** ** Framing *)

Lemma set_conn_same s : set_conn s (conn s) = s.
Proof. destruct s. reflexivity. Qed.

Lemma frameHeader_eq total info :
  frameHeader total info
  = Done (be32 (uint32 total)
          ++ [byte_of_Z (Z.shiftr (uint16 (len info)) 8);
              byte_of_Z (uint16 (len info))]
          ++ info).
Proof. reflexivity. Qed.

Section WriterFacts.

Variable Marshal : PacketHeaderProto -> list byte * option error.

Lemma writePacket_conn s p :
  exists err c, writePacket Marshal s p = Done (err, set_conn s c).
Proof.
  unfold writePacket. destruct (Marshal _) as [info [e|]].
  - exists (Some e), (conn s). rewrite set_conn_same. reflexivity.
  - rewrite frameHeader_eq. cbn [rbind].
    destruct (conn_Write (conn s) _) as [[e|] c1]; [eauto|].
    destruct (conn_Write c1 _) as [[e|] c2]; [eauto|].
    destruct (conn_Write c2 _) as [[e|] c3]; eauto.
Qed.

Lemma writeHeartBeatPacket_conn s :
  exists err c, writeHeartBeatPacket Marshal s = Done (err, set_conn s c).
Proof.
  unfold writeHeartBeatPacket. destruct (Marshal _) as [info [e|]].
  - exists (Some e), (conn s). rewrite set_conn_same. reflexivity.
  - rewrite frameHeader_eq. cbn [rbind].
    destruct (conn_Write (conn s) _) as [err c1]. eauto.
Qed.

(** ** The flush loop *)

Lemma chan_open_eta {A : Type} (c : chan A) :
  ch_closed c = false -> c = mkChan (ch_sent c ++ []) false.
Proof. destruct c as [l b]. cbn. intros ->. rewrite app_nil_r. reflexivity. Qed.

Lemma flushLoop_spec fuel : forall force s,
  (length (buf s) <= fuel)%nat ->
  ch_closed (packets s) = false ->
  exists err s' ps,
    flushLoop Marshal fuel force s = Done (err, s')
    /\ drained force (buf s) (offset s) (seqno s) ps
               (buf s') (offset s') (seqno s')
    /\ packets s' = mkChan (ch_sent (packets s) ++ ps) false
    /\ closed s' = closed s
    /\ ackErr s' = ackErr s
    /\ acksDoneWaits s' = acksDoneWaits s
    /\ closeCh s' = closeCh s
    /\ (err = None -> flushCond force s' = false).
Proof.
  induction fuel as [|fuel IH]; intros force s Hfuel Hopen.
  - exists None, s, []. cbn [flushLoop].
    assert (Hc : flushCond force s = false).
    { unfold flushCond, len. destruct (0 <? _) eqn:E; [lia|reflexivity]. }
    rewrite Hc. repeat split; auto using chan_open_eta. constructor.
  - cbn [flushLoop]. destruct (flushCond force s) eqn:Hc.
    2:{ exists None, s, []. repeat split; auto using chan_open_eta. constructor. }
    unfold flushBody. rewrite makePacket_eq. cbn [rbind].
    set (p := packetAt (buf s) (offset s) (seqno s)).
    unfold chan_send. cbn [packets set_buf]. rewrite Hopen. cbn [rbind].
    match goal with |- context [writePacket Marshal ?s1 p] =>
      destruct (writePacket_conn s1 p) as (err & c & Hw); rewrite Hw
    end.
    cbn [rbind].
    assert (Hcond : 0 < len (buf s)
                    /\ (force = true \/ outboundPacketSize <= len (buf s))).
    { unfold flushCond in Hc. apply andb_prop in Hc as [H1 H2].
      apply orb_prop in H2. split; [lia|].
      destruct H2; [left; assumption|right; lia]. }
    destruct Hcond as [Hpos Hforce].
    pose proof (packetAt_data_length (buf s) (offset s) (seqno s)) as Hlen.
    destruct (packetLengthOf_bounds (len (buf s)) (offset s)) as (_ & _ & Hpl);
      [lia|]. specialize (Hpl Hpos). fold p in Hlen.
    destruct err as [e|].
    + eexists (Some e), _, [p]. split; [reflexivity|].
      cbn. repeat split; try discriminate.
      apply drained_cons; auto. constructor.
    + match goal with |- context [flushLoop Marshal fuel force ?s4] =>
        destruct (IH force s4) as (err' & s' & ps & Hrun & Hd & Hp & Hrest)
      end.
      { cbn [buf set_buf set_conn set_seqno set_offset set_packets].
        rewrite length_drop. unfold len in *. lia. }
      { reflexivity. }
      exists err', s', (p :: ps). split; [exact Hrun|].
      cbn in Hd, Hp, Hrest. split; [apply drained_cons; auto|].
      split; [rewrite Hp, <- app_assoc; reflexivity|]. exact Hrest.
Qed.

(** [flush] never runs out of fuel. *)
Lemma flush_total force s : flush Marshal force s <> OutOfFuel.
Proof.
  unfold flush. generalize (Nat.le_refl (length (buf s))).
  generalize (length (buf s)) at 2 3 as fuel. intros fuel. revert s.
  induction fuel as [|fuel IH]; intros s Hfuel; cbn [flushLoop].
  - assert (Hc : flushCond force s = false).
    { unfold flushCond, len. destruct (0 <? _) eqn:E; [lia|reflexivity]. }
    rewrite Hc. discriminate.
  - destruct (flushCond force s) eqn:Hc; [|discriminate].
    unfold flushBody. rewrite makePacket_eq. cbn [rbind].
    unfold chan_send. destruct (ch_closed _); [discriminate|]. cbn [rbind].
    match goal with |- context [writePacket Marshal ?s1 ?p] =>
      destruct (writePacket_conn s1 p) as (err & c & Hw); rewrite Hw
    end.
    cbn [rbind]. destruct err; [discriminate|]. apply IH.
    cbn [buf set_buf set_conn set_seqno set_offset set_packets].
    rewrite length_drop.
    pose proof (packetAt_data_length (buf s) (offset s) (seqno s)) as Hlen.
    unfold flushCond in Hc. apply andb_prop in Hc as [H1 _].
    destruct (packetLengthOf_bounds (len (buf s)) (offset s)) as (_ & _ & Hpl);
      unfold len in *; lia.
Qed.

End WriterFacts.

(** ** Runs of packets *)

Lemma int_int64 x : int x = int64 x.
Proof. reflexivity. Qed.

Lemma dataLen_cons p ps : dataLen (p :: ps) = len (p_data p) + dataLen ps.
Proof. unfold dataLen, dataOf, len. cbn. rewrite length_app. lia. Qed.

Lemma dataLen_nil : dataLen [] = 0.
Proof. reflexivity. Qed.

Lemma dataOf_app ps qs : dataOf (ps ++ qs) = dataOf ps ++ dataOf qs.
Proof. unfold dataOf. rewrite map_app, concat_app. reflexivity. Qed.

Lemma dataLen_app ps qs : dataLen (ps ++ qs) = dataLen ps + dataLen qs.
Proof. unfold dataLen, len. rewrite dataOf_app, length_app. lia. Qed.

Lemma dataLen_nonneg ps : 0 <= dataLen ps.
Proof. unfold dataLen, len. lia. Qed.

Lemma packetAt_take_drop b o q :
  p_data (packetAt b o q) ++ drop (length (p_data (packetAt b o q))) b = b.
Proof.
  unfold packetAt. cbn [p_data]. rewrite length_take.
  destruct (packetLengthOf_bounds (len b) o) as (H & _); [unfold len; lia|].
  unfold len in *. rewrite Nat.min_l by lia.
  apply take_drop.
Qed.

Lemma drained_data force b o q ps b' o' q' :
  drained force b o q ps b' o' q' -> dataOf ps ++ b' = b.
Proof.
  induction 1 as [|b o q ps b' o' q' Hpos Hforce Hd IH].
  - reflexivity.
  - change (dataOf (packetAt b o q :: ps))
      with (p_data (packetAt b o q) ++ dataOf ps).
    rewrite <- app_assoc, IH. apply packetAt_take_drop.
Qed.

Lemma drained_pchain force b o q ps b' o' q' :
  drained force b o q ps b' o' q' -> pchain o q ps o' q'.
Proof.
  induction 1 as [|b o q ps b' o' q' Hpos Hforce Hd IH].
  - constructor.
  - apply pchain_cons; try reflexivity; [|exact IH].
    rewrite packetAt_data_length.
    destruct (packetLengthOf_bounds (len b) o) as (_ & H1 & H2); lia.
Qed.

Lemma drained_range force b o q ps b' o' q' :
  drained force b o q ps b' o' q' ->
  - 2 ^ 63 <= o < 2 ^ 63 -> - 2 ^ 63 <= o' < 2 ^ 63.
Proof.
  induction 1 as [|b o q ps b' o' q' Hpos Hforce Hd IH]; intros Hr.
  - exact Hr.
  - apply IH, int64_range.
Qed.

Lemma pchain_app o q ps o1 q1 ps' o2 q2 :
  pchain o q ps o1 q1 -> pchain o1 q1 ps' o2 q2 ->
  pchain o q (ps ++ ps') o2 q2.
Proof.
  induction 1; intros H'; [exact H'|].
  cbn [app]. apply pchain_cons; auto.
Qed.

Lemma pchain_not_last o q ps o' q' :
  pchain o q ps o' q' -> Forall (fun p => p_last p = false) ps.
Proof. induction 1; constructor; auto. Qed.

Lemma pchain_checksums o q ps o' q' :
  pchain o q ps o' q' ->
  Forall (fun p => p_checksums p = checksumsFor (p_data p)
                   /\ 0 < len (p_data p) <= outboundPacketSize) ps.
Proof. induction 1; constructor; auto. Qed.

(** Cutting a chain: what follows a prefix starts where the prefix ends. *)
Lemma pchain_split pre : forall o q rest o' q',
  int64 o = o -> int q = q ->
  pchain o q (pre ++ rest) o' q' ->
  pchain o q pre (int64 (o + dataLen pre)) (int (q + len pre))
  /\ pchain (int64 (o + dataLen pre)) (int (q + len pre)) rest o' q'.
Proof.
  induction pre as [|p pre IH]; intros o q rest o' q' Ho Hq H.
  - cbn [app] in H. rewrite dataLen_nil. unfold len. cbn [length Z.of_nat].
    rewrite !Z.add_0_r, Ho, Hq. split; [constructor|exact H].
  - cbn [app] in H. inversion H; subst.
    match goal with Hc : pchain _ _ (pre ++ rest) _ _ |- _ =>
      apply IH in Hc as [Hc1 Hc2]
    end.
    + assert (Eo : int64 (int64 (p_offset p + int64 (len (p_data p)))
                          + dataLen pre)
                   = int64 (p_offset p + dataLen (p :: pre))).
      { rewrite int64_add_l, dataLen_cons.
        rewrite <- Z.add_assoc, (Z.add_comm (int64 _)), Z.add_assoc.
        rewrite int64_add_r. f_equal. lia. }
      assert (Eq : int (int (p_seqno p + 1) + len pre)
                   = int (p_seqno p + len (p :: pre))).
      { rewrite !int_int64, int64_add_l. f_equal.
        unfold len. cbn [length]. lia. }
      rewrite Eo, Eq in Hc1, Hc2. split; [|exact Hc2].
      apply pchain_cons; auto.
    + unfold int64. rewrite wrap_signed_small; [reflexivity|lia|].
      apply (wrap_signed_range 64). lia.
    + unfold int. rewrite wrap_signed_small; [reflexivity|lia|].
      apply (wrap_signed_range 64). lia.
Qed.

Lemma pchain_head o q p ps o' q' :
  pchain o q (p :: ps) o' q' -> p_seqno p = q /\ p_offset p = o.
Proof. inversion 1; auto. Qed.

Lemma pchain_end o q ps o' q' :
  int64 o = o -> int q = q ->
  pchain o q ps o' q' ->
  o' = int64 (o + dataLen ps) /\ q' = int (q + len ps).
Proof.
  intros Ho Hq H. rewrite <- (app_nil_r ps) in H.
  apply pchain_split in H as [_ H]; auto. inversion H; subst. auto.
Qed.

Lemma pchain_nth o q ps o' q' pre p post :
  int64 o = o -> int q = q ->
  pchain o q ps o' q' -> ps = pre ++ p :: post ->
  p_seqno p = int (q + len pre) /\ p_offset p = int64 (o + dataLen pre).
Proof.
  intros Ho Hq H ->. apply pchain_split in H as [_ H]; auto.
  apply pchain_head in H. exact H.
Qed.

(** ** Alignment of a drain *)

Lemma drained_aligned force b o q ps b' o' q' :
  drained force b o q ps b' o' q' ->
  - 2 ^ 63 <= o < 2 ^ 63 ->
  0 <= o \/ aligned o ->
  Forall (fun p => aligned (p_offset p)) (tail ps)
  /\ (ps <> [] -> aligned o' \/ (force = true /\ b' = [])).
Proof.
  induction 1 as [|b o q ps b' o' q' Hpos Hforce Hd IH]; intros Hr Ho.
  - split; [constructor|congruence].
  - cbn [tail].
    set (p := packetAt b o q) in *.
    pose proof (packetAt_data_length b o q) as Hlen. fold p in Hlen.
    assert (HK : aligned (int64 (o + int64 (len (p_data p))))
                 \/ (force = true /\ drop (length (p_data p)) b = [])).
    { rewrite int64_add_r, aligned_int64.
      assert (Hshort : len (p_data p) = len b ->
                       drop (length (p_data p)) b = []).
      { intros E. apply drop_ge. unfold len in E. lia. }
      rewrite Hlen in *. clear Hlen.
      unfold packetLengthOf, aligned, outboundPacketSize, outboundChunkSize in *.
      unfold int in *. rewrite (wrap_signed_small 64) in * by lia.
      assert (Hrem : Z.rem o 512 = o mod 512 \/ Z.rem o 512 <= 0).
      { destruct Ho as [Ho|Ho]; [left; apply rem_512_nonneg; exact Ho|].
        right. apply rem_512_aligned in Ho. lia. }
      assert (Hal : Z.rem o 512 <= 0 -> 0 <= o \/ o mod 512 = 0 -> o mod 512 = 0).
      { intros H1 [H2|H2]; [|exact H2].
        rewrite rem_512_nonneg in H1 by exact H2.
        pose proof (Z.mod_pos_bound o 512 ltac:(lia)). lia. }
      pose proof (Z.mod_pos_bound o 512 ltac:(lia)) as Hmod.
      destruct (len b <? 65536) eqn:E1;
        destruct (0 <? Z.rem o 512) eqn:E2; cbn [andb] in *;
        try destruct (512 - Z.rem o 512 <? _) eqn:E3.
      all: try (right; split; [destruct Hforce; [assumption|lia]|];
                apply Hshort; reflexivity).
      all: left.
      all: try (destruct Hrem as [Hrem|Hrem]; [rewrite Hrem in *|lia];
                rewrite <- Zplus_mod_idemp_l;
                replace (o mod 512 + (512 - o mod 512)) with (1 * 512) by lia;
                apply Z.mod_mul; lia).
      all: assert (o mod 512 = 0) by (apply Hal; [lia|exact Ho]).
      all: rewrite <- Zplus_mod_idemp_l.
      all: replace (o mod 512 + 65536) with (128 * 512) by lia.
      all: apply Z.mod_mul; lia. }
    destruct ps as [|p' ps].
    + inversion Hd; subst. split; [constructor|]. intros _. exact HK.
    + assert (Hne : drop (length (p_data p)) b <> []).
      { inversion Hd; subst. intros E. rewrite E in *.
        unfold len in *. cbn in *. lia. }
      assert (Hal : aligned (int64 (o + int64 (len (p_data p))))).
      { destruct HK as [HK|[_ HK]]; [exact HK|contradiction]. }
      destruct IH as [IH1 IH2]; [apply int64_range|right; exact Hal|].
      split.
      * constructor; [|exact IH1].
        apply drained_pchain, pchain_head in Hd as [_ ->]. exact Hal.
      * intros _. apply IH2. discriminate.
Qed.

(** ** The effect of a step *)

Ltac stream_simpl :=
  cbn [conn buf offset closed packets seqno ackErr acksDoneWaits closeCh
       set_conn set_buf set_offset set_closed set_packets set_seqno
       set_ackErr set_acksDoneWaits set_closeCh ch_sent ch_closed
       emitted rbind] in *.

Lemma flushCond_true_false s : flushCond true s = false -> buf s = [].
Proof.
  unfold flushCond, len. cbn [orb]. rewrite andb_true_r.
  destruct (buf s); [reflexivity|]. cbn [length]. intros H.
  apply Z.ltb_ge in H. lia.
Qed.

Section Steps.

Variable Marshal : PacketHeaderProto -> list byte * option error.

Lemma flush_spec force s :
  ch_closed (packets s) = false ->
  exists err s' ps,
    flush Marshal force s = Done (err, s')
    /\ drained force (buf s) (offset s) (seqno s) ps
               (buf s') (offset s') (seqno s')
    /\ packets s' = mkChan (ch_sent (packets s) ++ ps) false
    /\ closed s' = closed s
    /\ ackErr s' = ackErr s
    /\ acksDoneWaits s' = acksDoneWaits s
    /\ closeCh s' = closeCh s
    /\ (err = None -> flushCond force s' = false).
Proof. intros H. apply flushLoop_spec; [lia|exact H]. Qed.

Lemma Write_effect b s :
  channelsOpen s ->
  exists n err s',
    Write Marshal b s = Done (n, err, s')
    /\ effect s (RetWrite b n err) s' /\ channelsOpen s'.
Proof.
  intros Hopen. unfold Write.
  destruct (closed s) eqn:Hc.
  { eexists _, _, _. split; [reflexivity|]. split; [|exact Hopen].
    apply effect_idle; auto; intros late; left; discriminate. }
  destruct (ackErr s) as [e|] eqn:He.
  { eexists _, _, _. split; [reflexivity|]. split; [|exact Hopen].
    apply effect_idle; auto; intros late; left; discriminate. }
  destruct (Hopen Hc) as [Hp Hcc].
  destruct (flush_spec false (set_buf s (buf s ++ b)))
    as (err & s' & ps & Hrun & Hd & Hps & Hcl & _ & _ & Hch & _);
    [exact Hp|].
  rewrite Hrun. stream_simpl.
  eexists _, _, _. split; [reflexivity|]. split.
  - apply (effect_write _ _ _ b err ps); auto.
    + congruence.
    + unfold emitted. rewrite Hps. reflexivity.
  - intros _. rewrite Hps, Hch. auto.
Qed.

Lemma finishDeferred_eq late err s :
  ch_closed (packets s) = false -> ch_closed (closeCh s) = false ->
  exists err' s',
    finishDeferred late err s = Done (err', s')
    /\ emitted s' = emitted s /\ buf s' = buf s /\ offset s' = offset s
    /\ seqno s' = seqno s /\ closed s' = closed s
    /\ (err' = None -> err = None).
Proof.
  intros Hp Hc. unfold finishDeferred, chan_close.
  rewrite Hc. stream_simpl. rewrite Hp. stream_simpl.
  destruct (ackErr s) as [e|] eqn:He; stream_simpl.
  - rewrite He. eexists _, _. split; [reflexivity|].
    stream_simpl. repeat split; auto. discriminate.
  - destruct late as [e|]; eexists _, _; (split; [reflexivity|]);
      stream_simpl; repeat split; auto. discriminate.
Qed.

Lemma finish_effect late s :
  channelsOpen s ->
  exists err s',
    finish Marshal late s = Done (err, s')
    /\ effect s (RetFinish err) s' /\ channelsOpen s'.
Proof.
  intros Hopen. unfold finish.
  destruct (closed s) eqn:Hc.
  { eexists _, _. split; [reflexivity|]. split; [|exact Hopen].
    apply effect_idle; auto. }
  destruct (Hopen Hc) as [Hp Hcc].
  assert (Hfin : forall s', closed s' = true -> channelsOpen s').
  { intros s' H1 H2. congruence. }
  unfold finishBody. stream_simpl.
  destruct (ackErr s) as [e|] eqn:He.
  { stream_simpl.
    destruct (finishDeferred_eq late (Some e) (set_closed s true))
      as (err' & s' & Hrun & H1 & H2 & H3 & H4 & H5 & H6); auto.
    rewrite Hrun. eexists _, _. split; [reflexivity|].
    stream_simpl. split; [|apply Hfin; exact H5].
    eapply (effect_finish _ _ _ err' [] []); auto.
    - rewrite H2, H3, H4. constructor.
    - rewrite H1, app_nil_r. reflexivity.
    - intros E. apply H6 in E. discriminate. }
  destruct (flush_spec true (set_closed s true))
    as (err & s1 & ps & Hrun & Hd & Hps & Hcl & He1 & _ & Hch & Hcond);
    [exact Hp|].
  rewrite Hrun. stream_simpl.
  destruct err as [e|]; stream_simpl.
  { destruct (finishDeferred_eq late (Some e) s1)
      as (err' & s' & Hrun' & H1 & H2 & H3 & H4 & H5 & H6).
    { rewrite Hps. reflexivity. }
    { rewrite Hch. exact Hcc. }
    rewrite Hrun'. eexists _, _. split; [reflexivity|].
    split; [|apply Hfin; congruence].
    eapply (effect_finish _ _ _ err' ps []); auto.
    - congruence.
    - rewrite H2, H3, H4. exact Hd.
    - rewrite H1, app_nil_r. unfold emitted. rewrite Hps. reflexivity.
    - intros E. apply H6 in E. discriminate. }
  unfold chan_send. rewrite Hps. stream_simpl.
  match goal with |- context [writePacket Marshal ?s2 ?p] =>
    destruct (writePacket_conn Marshal s2 p) as (err & c & Hw); rewrite Hw
  end.
  stream_simpl.
  match goal with |- context [finishDeferred late err ?s3] =>
    destruct (finishDeferred_eq late err s3)
      as (err' & s' & Hrun' & H1 & H2 & H3 & H4 & H5 & H6)
  end.
  { reflexivity. }
  { stream_simpl. rewrite Hch. exact Hcc. }
  rewrite Hrun'. eexists _, _. split; [reflexivity|].
  stream_simpl.
  split; [|apply Hfin; congruence].
  assert (Ht : terminalOf s' = mkPacket (seqno s1) (offset s1) true [] []).
  { unfold terminalOf. rewrite H3, H4. reflexivity. }
  eapply (effect_finish _ _ _ err' ps [terminalOf s']); auto.
  - congruence.
  - rewrite H2, H3, H4. exact Hd.
  - rewrite H1, Ht, <- app_assoc. reflexivity.
  - intros _. split; [reflexivity|]. rewrite H2.
    apply flushCond_true_false, Hcond. reflexivity.
Qed.

Lemma step_effect c s :
  channelsOpen s ->
  exists r s',
    step Marshal c s = Done (r, s') /\ effect s r s' /\ channelsOpen s'.
Proof.
  intros Hopen. destruct c as [b|late|e|]; cbn [step].
  - destruct (Write_effect b s Hopen) as (n & err & s' & Hrun & He & Ho).
    rewrite Hrun. cbn [rbind]. eauto.
  - destruct (finish_effect late s Hopen) as (err & s' & Hrun & He & Ho).
    rewrite Hrun. cbn [rbind]. eauto.
  - eexists _, _. split; [reflexivity|].
    unfold ackerLatches. destruct (ackErr s); split; auto.
    + apply effect_idle; auto; intros late; left; discriminate.
    + apply effect_idle; auto; intros late; left; discriminate.
  - destruct (writeHeartBeatPacket_conn Marshal s) as (err & c & Hw).
    rewrite Hw. cbn [rbind]. eexists _, _. split; [reflexivity|].
    split; [|exact Hopen].
    apply effect_idle; auto; intros late; left; discriminate.
Qed.

(** A run reaches every call: nothing panics and nothing runs out of fuel. *)
Lemma run_total cs : forall s,
  channelsOpen s -> exists rs s', run Marshal cs s = Done (rs, s').
Proof.
  induction cs as [|c cs IH]; intros s Hopen; cbn [run]; [eauto|].
  destruct (step_effect c s Hopen) as (r & s1 & Hrun & _ & Ho).
  rewrite Hrun. cbn [rbind].
  destruct (IH s1 Ho) as (rs & s' & Hrun'). rewrite Hrun'. cbn [rbind]. eauto.
Qed.

(** Induction over a run by the effects of its steps. *)
Lemma run_effect_ind (P : blockWriteStream -> Prop) :
  (forall s r s', P s -> effect s r s' -> P s') ->
  forall cs s rs s',
    channelsOpen s -> P s -> run Marshal cs s = Done (rs, s') ->
    P s' /\ channelsOpen s'.
Proof.
  intros Hstep. induction cs as [|c cs IH]; intros s rs s' Hopen HP Hrun.
  - cbn in Hrun. inversion Hrun; subst. auto.
  - cbn [run] in Hrun.
    destruct (step_effect c s Hopen) as (r & s1 & Hs & He & Ho).
    rewrite Hs in Hrun. cbn [rbind] in Hrun.
    destruct (run Marshal cs s1) as [[rs1 s2]| |] eqn:Hr; try discriminate.
    cbn [rbind] in Hrun. inversion Hrun; subst.
    eapply IH; eauto.
Qed.

End Steps.

(** ** Invariants of a run *)

Lemma dataPackets_app ps qs :
  dataPackets (ps ++ qs) = dataPackets ps ++ dataPackets qs.
Proof. apply list.filter_app. Qed.

Lemma dataPackets_id ps :
  Forall (fun p => p_last p = false) ps -> dataPackets ps = ps.
Proof.
  induction 1 as [|p ps Hp _ IH]; [reflexivity|].
  unfold dataPackets in *. rewrite list.filter_cons_True by exact Hp.
  rewrite IH. reflexivity.
Qed.

Lemma dataPackets_terminal s : dataPackets [terminalOf s] = [].
Proof. reflexivity. Qed.

Lemma dataPackets_not_last ps : Forall (fun p => p_last p = false) (dataPackets ps).
Proof.
  apply list.Forall_forall. intros p Hp.
  apply list_elem_of_filter in Hp as [Hp _]. exact Hp.
Qed.

Lemma drained_nil_inv force b o q b' o' q' :
  drained force b o q [] b' o' q' -> b' = b /\ o' = o /\ q' = q.
Proof. inversion 1; auto. Qed.

Lemma drained_not_last force b o q ps b' o' q' :
  drained force b o q ps b' o' q' -> dataPackets ps = ps.
Proof.
  intros H. eapply dataPackets_id, pchain_not_last, drained_pchain, H.
Qed.

Lemma terminalOf_eq s s' :
  offset s' = offset s -> seqno s' = seqno s -> terminalOf s' = terminalOf s.
Proof. unfold terminalOf. intros -> ->. reflexivity. Qed.

Lemma Inv_new c start : Inv start (newBlockWriteStream c start).
Proof. split; [constructor|left; reflexivity]. Qed.

Lemma Inv_effect start s r s' : Inv start s -> effect s r s' -> Inv start s'.
Proof.
  intros [Hchain Hshape] He.
  destruct He as [He Hb Ho Hq Hc _ _
                 | b err ps -> Hc Hc' Hd He
                 | err ps ts -> Hc Hc' Hd He Hts _].
  - split.
    + rewrite He, Ho, Hq. exact Hchain.
    + rewrite He, Hc, (terminalOf_eq s s' Ho Hq). exact Hshape.
  - assert (Hds : dataPackets (emitted s') = dataPackets (emitted s) ++ ps).
    { rewrite He, dataPackets_app, (drained_not_last _ _ _ _ _ _ _ _ Hd).
      reflexivity. }
    split.
    + rewrite Hds. eapply pchain_app; [exact Hchain|].
      eapply drained_pchain, Hd.
    + left. rewrite Hds, He. f_equal.
      destruct Hshape as [E|[E _]]; [exact E|congruence].
  - assert (Hds : dataPackets (emitted s') = dataPackets (emitted s) ++ ps).
    { rewrite He, !dataPackets_app, (drained_not_last _ _ _ _ _ _ _ _ Hd).
      destruct Hts as [->| ->]; rewrite ?dataPackets_terminal;
        cbn [dataPackets filter]; rewrite app_nil_r; reflexivity. }
    assert (E : emitted s = dataPackets (emitted s)).
    { destruct Hshape as [E|[E _]]; [exact E|congruence]. }
    split.
    + rewrite Hds. eapply pchain_app; [exact Hchain|].
      eapply drained_pchain, Hd.
    + rewrite Hds, He. destruct Hts as [->| ->].
      * left. rewrite app_nil_r. f_equal. exact E.
      * right. split; [exact Hc'|]. rewrite <- app_assoc. f_equal. exact E.
Qed.

Lemma AlignInv_new c start :
  - 2 ^ 63 <= start < 2 ^ 63 -> AlignInv start (newBlockWriteStream c start).
Proof. intros H. split; [constructor|left; split; reflexivity|exact H]. Qed.

Lemma AlignInv_drained start s s' force ps :
  0 <= start -> AlignInv start s -> closed s = false ->
  drained force (buf s) (offset s) (seqno s) ps (buf s') (offset s') (seqno s')
  \/ (exists b, drained force (buf s ++ b) (offset s) (seqno s) ps
                        (buf s') (offset s') (seqno s')) ->
  dataPackets (emitted s') = dataPackets (emitted s) ++ ps ->
  (force = true -> closed s' = true) ->
  (force = false -> closed s' = false) ->
  AlignInv start s'.
Proof.
  intros Hstart [Htail Hnext Hrange] Hc Hd Hds Hft Hff.
  assert (Hd' : exists b0, drained force b0 (offset s) (seqno s) ps
                                   (buf s') (offset s') (seqno s')).
  { destruct Hd as [Hd|[b Hd]]; eauto. }
  clear Hd. destruct Hd' as [b0 Hd].
  assert (Ho : (dataPackets (emitted s) = [] /\ offset s = start)
               \/ aligned (offset s)).
  { destruct Hnext as [H|[H|H]]; [left; exact H|right; exact H|congruence]. }
  destruct (drained_aligned _ _ _ _ _ _ _ _ Hd Hrange) as [F1 F2].
  { destruct Ho as [[_ ->]|Ho]; [left; exact Hstart|right; exact Ho]. }
  split.
  - rewrite Hds. destruct (dataPackets (emitted s)) as [|d ds] eqn:Eds.
    + exact F1.
    + cbn [app tail] in *. apply Forall_app. split; [exact Htail|].
      destruct ps as [|p ps]; [constructor|]. constructor; [|exact F1].
      apply drained_pchain, pchain_head in Hd as [_ ->].
      destruct Ho as [[Ho _]|Ho]; [discriminate|exact Ho].
  - destruct ps as [|p ps].
    + apply drained_nil_inv in Hd as (_ & -> & _).
      rewrite Hds, app_nil_r.
      destruct Ho as [Ho|Ho]; [left; exact Ho|right; left; exact Ho].
    + destruct F2 as [F2|[F2 _]]; [discriminate|right; left; exact F2|].
      right. right. apply Hft, F2.
  - eapply drained_range; eauto.
Qed.

Lemma AlignInv_effect start s r s' :
  0 <= start -> AlignInv start s -> effect s r s' -> AlignInv start s'.
Proof.
  intros Hstart HA He.
  destruct He as [He Hb Ho Hq Hc _ _
                 | b err ps -> Hc Hc' Hd He
                 | err ps ts -> Hc Hc' Hd He Hts _].
  - destruct HA as [Htail Hnext Hrange]. split.
    + rewrite He. exact Htail.
    + rewrite He, Ho, Hc. exact Hnext.
    + rewrite Ho. exact Hrange.
  - apply (AlignInv_drained start s s' false ps Hstart HA Hc).
    + right. exists b. exact Hd.
    + rewrite He, dataPackets_app, (drained_not_last _ _ _ _ _ _ _ _ Hd).
      reflexivity.
    + discriminate.
    + intros _. exact Hc'.
  - apply (AlignInv_drained start s s' true ps Hstart HA Hc).
    + left. exact Hd.
    + rewrite He, !dataPackets_app, (drained_not_last _ _ _ _ _ _ _ _ Hd).
      destruct Hts as [->| ->]; rewrite ?dataPackets_terminal;
        cbn [dataPackets filter]; rewrite app_nil_r; reflexivity.
    + intros _. exact Hc'.
    + discriminate.
Qed.

(** Every byte accepted is in a data packet or still in the buffer. *)
Lemma effect_bytes s r s' :
  effect s r s' ->
  dataOf (dataPackets (emitted s')) ++ buf s'
  = dataOf (dataPackets (emitted s)) ++ buf s ++ acceptedBy r.
Proof.
  intros He.
  destruct He as [He Hb Ho Hq Hc Ha _
                 | b err ps -> Hc Hc' Hd He
                 | err ps ts -> Hc Hc' Hd He Hts _].
  - rewrite He, Hb, Ha, app_nil_r. reflexivity.
  - rewrite He, dataPackets_app, (drained_not_last _ _ _ _ _ _ _ _ Hd).
    rewrite dataOf_app, <- app_assoc, (drained_data _ _ _ _ _ _ _ _ Hd).
    cbn [acceptedBy]. unfold len. rewrite Nat2Z.id, firstn_all. reflexivity.
  - rewrite He, !dataPackets_app, (drained_not_last _ _ _ _ _ _ _ _ Hd).
    assert (Ets : dataPackets ts = []).
    { destruct Hts as [->| ->]; reflexivity. }
    rewrite Ets, app_nil_r, dataOf_app, <- app_assoc.
    rewrite (drained_data _ _ _ _ _ _ _ _ Hd). cbn [acceptedBy].
    rewrite app_nil_r. reflexivity.
Qed.

Lemma effect_closed s r s' :
  effect s r s' -> (forall err, r <> RetFinish err) -> closed s' = closed s.
Proof.
  intros He Hr.
  destruct He as [He Hb Ho Hq Hc Ha _
                 | b err ps -> Hc Hc' Hd He
                 | err ps ts -> Hc Hc' Hd He Hts _];
    [exact Hc|congruence|].
  exfalso. apply (Hr err). reflexivity.
Qed.

Section Runs.

Variable Marshal : PacketHeaderProto -> list byte * option error.

Lemma new_channelsOpen c start : channelsOpen (newBlockWriteStream c start).
Proof. intros _. split; reflexivity. Qed.

Lemma run_Inv c start cs rs s :
  run Marshal cs (newBlockWriteStream c start) = Done (rs, s) ->
  Inv start s /\ channelsOpen s.
Proof.
  apply (run_effect_ind Marshal (Inv start)).
  - intros s0 r s1. apply Inv_effect.
  - apply new_channelsOpen.
  - apply Inv_new.
Qed.

Lemma run_AlignInv c start cs rs s :
  0 <= start < 2 ^ 63 ->
  run Marshal cs (newBlockWriteStream c start) = Done (rs, s) ->
  AlignInv start s.
Proof.
  intros Hstart Hrun.
  apply (run_effect_ind Marshal (AlignInv start)) in Hrun as [H _]; auto.
  - intros s0 r s1. apply AlignInv_effect. lia.
  - apply new_channelsOpen.
  - apply AlignInv_new. lia.
Qed.

Lemma step_reply c s r s' :
  step Marshal c s = Done (r, s') -> isFinish c = false ->
  forall err, r <> RetFinish err.
Proof.
  intros Hs Hc err. destruct c as [b|late|e|]; cbn [step isFinish] in *;
    try discriminate.
  - destruct (Write Marshal b s) as [[[n e] s1]| |]; cbn [rbind] in Hs;
      inversion Hs; discriminate.
  - inversion Hs; discriminate.
  - destruct (writeHeartBeatPacket Marshal s) as [[e s1]| |]; cbn [rbind] in Hs;
      inversion Hs; discriminate.
Qed.

Lemma run_cons_inv c cs s rs s' :
  channelsOpen s ->
  run Marshal (c :: cs) s = Done (rs, s') ->
  exists r s1 rs1,
    rs = r :: rs1 /\ step Marshal c s = Done (r, s1) /\ effect s r s1
    /\ channelsOpen s1 /\ run Marshal cs s1 = Done (rs1, s').
Proof.
  intros Hopen Hrun. cbn [run] in Hrun.
  destruct (step_effect Marshal c s Hopen) as (r & s1 & Hs & He & Ho).
  rewrite Hs in Hrun. cbn [rbind] in Hrun.
  destruct (run Marshal cs s1) as [[rs1 s2]| |] eqn:Hr; try discriminate.
  cbn [rbind] in Hrun. inversion Hrun; subst.
  exists r, s1, rs1. auto.
Qed.

Lemma run_bytes cs : forall s rs s',
  channelsOpen s -> run Marshal cs s = Done (rs, s') ->
  dataOf (dataPackets (emitted s')) ++ buf s'
  = dataOf (dataPackets (emitted s)) ++ buf s ++ accepted rs.
Proof.
  induction cs as [|c cs IH]; intros s rs s' Hopen Hrun.
  - cbn in Hrun. inversion Hrun; subst. unfold accepted. cbn.
    rewrite app_nil_r. reflexivity.
  - apply run_cons_inv in Hrun
      as (r & s1 & rs1 & -> & Hs & He & Ho & Hrun); [|exact Hopen].
    rewrite (IH _ _ _ Ho Hrun).
    rewrite (app_assoc _ (buf s1)), (effect_bytes _ _ _ He).
    unfold accepted. cbn [map concat]. rewrite <- !app_assoc. reflexivity.
Qed.

Lemma run_nofinish_closed cs : forall s rs s',
  Forall (fun c => isFinish c = false) cs ->
  channelsOpen s -> run Marshal cs s = Done (rs, s') ->
  closed s' = closed s.
Proof.
  induction cs as [|c cs IH]; intros s rs s' Hnf Hopen Hrun.
  - cbn in Hrun. inversion Hrun; subst. reflexivity.
  - apply run_cons_inv in Hrun
      as (r & s1 & rs1 & -> & Hs & He & Ho & Hrun); [|exact Hopen].
    inversion Hnf; subst.
    rewrite (IH _ _ _ ltac:(assumption) Ho Hrun).
    eapply effect_closed; [exact He|]. eapply step_reply; eauto.
Qed.

(** A run of calls other than [finish], closed by a [finish] that returns
    [nil]. *)
Lemma session_end c start cs late rs s1 s2 :
  Forall (fun c => isFinish c = false) cs ->
  run Marshal cs (newBlockWriteStream c start) = Done (rs, s1) ->
  finish Marshal late s1 = Done (None, s2) ->
  Inv start s2
  /\ emitted s2 = dataPackets (emitted s2) ++ [terminalOf s2]
  /\ dataOf (dataPackets (emitted s2)) = accepted rs.
Proof.
  intros Hnf Hrun Hfin.
  assert (Hc : closed s1 = false).
  { apply (run_nofinish_closed cs _ _ _ Hnf (new_channelsOpen c start) Hrun). }
  pose proof (run_bytes cs _ _ _ (new_channelsOpen c start) Hrun) as Hb.
  apply run_Inv in Hrun as [HI Hopen].
  destruct (finish_effect Marshal late s1 Hopen) as (err & s' & Hf & He & _).
  rewrite Hfin in Hf. inversion Hf; subst err s'. clear Hf.
  pose proof (Inv_effect _ _ _ _ HI He) as HI2.
  pose proof (effect_bytes _ _ _ He) as Hb2.
  split; [exact HI2|].
  destruct He as [_ _ _ _ _ _ Hr
                 | b err ps Hr _ _ _ _
                 | err ps ts Hr _ Hc' Hd He Hts Hnone].
  - destruct (Hr None) as [Hr'|Hr']; congruence.
  - discriminate.
  - inversion Hr; subst err. destruct (Hnone eq_refl) as [-> Hbuf].
    assert (E : emitted s1 = dataPackets (emitted s1)).
    { destruct (inv_shape _ _ HI) as [E|[E _]]; [exact E|congruence]. }
    split.
    + rewrite He at 2. rewrite !dataPackets_app, dataPackets_terminal.
      rewrite (drained_not_last _ _ _ _ _ _ _ _ Hd), app_nil_r.
      rewrite He, <- E, <- app_assoc. reflexivity.
    + cbn [acceptedBy] in Hb2. rewrite Hbuf, !app_nil_r in Hb2.
      rewrite Hb2, Hb. reflexivity.
Qed.

(** A data packet of the emitted packets is among the data packets, behind
    the same packets. *)
Lemma Inv_data_position start s pre p post :
  Inv start s -> emitted s = pre ++ p :: post -> p_last p = false ->
  exists post', dataPackets (emitted s) = pre ++ p :: post'.
Proof.
  intros [_ Hshape] He Hp. destruct Hshape as [E|[_ E]].
  - exists post. rewrite <- E. exact He.
  - rewrite E in He. destruct post as [|x post _] using rev_ind.
    + apply app_inj_tail in He as [_ He]. subst p. discriminate.
    + change (pre ++ p :: post ++ [x]) with (pre ++ (p :: post) ++ [x]) in He.
      rewrite app_assoc in He. apply app_inj_tail in He as [He _].
      exists post. exact He.
Qed.

Lemma pchain_seqnos ps : forall o n o' q',
  pchain o (Z.of_nat n) ps o' q' ->
  Z.of_nat n + len ps <= 2 ^ 63 ->
  map p_seqno ps = map Z.of_nat (seq n (length ps)).
Proof.
  induction ps as [|p ps IH]; intros o n o' q' H Hn; [reflexivity|].
  inversion H as [|? ? ? ? ? ? Hq Ho Hl Hcs Hlen Hc]; subst.
  cbn [map seq length]. f_equal; [exact Hq|].
  destruct ps as [|p' ps]; [reflexivity|].
  assert (Hn' : Z.of_nat n + 1 + len (p' :: ps) <= 2 ^ 63).
  { unfold len in *. cbn [length] in *. lia. }
  assert (Hpos : 0 < len (p' :: ps)) by (unfold len; cbn [length]; lia).
  change (int (Z.of_nat n + 1)) with (int64 (Z.of_nat n + 1)) in Hc.
  rewrite (int64_small (Z.of_nat n + 1)) in Hc by lia.
  replace (Z.of_nat n + 1) with (Z.of_nat (S n)) in Hc by lia.
  eapply IH; [exact Hc|]. lia.
Qed.

End Runs.

(** * The claims *)

(** C1. For every sequence of [Write] calls (interleaved with any steps of
    the acker and the heartbeater) followed by a [finish] that returns no
    error, the concatenation of the data of all emitted data packets, in the
    order of emission, is the concatenation of all bytes accepted by
    [Write]. *)
Theorem data_packets_carry_accepted_bytes Marshal c start cs late rs s1 s2 :
  Forall (fun c => isFinish c = false) cs ->
  run Marshal cs (newBlockWriteStream c start) = Done (rs, s1) ->
  finish Marshal late s1 = Done (None, s2) ->
  dataOf (dataPackets (emitted s2)) = accepted rs.
Proof.
  intros Hnf Hrun Hfin.
  destruct (session_end Marshal c start cs late rs s1 s2 Hnf Hrun Hfin)
    as (_ & _ & H).
  exact H.
Qed.

Lemma data_packets_carry_accepted_bytes_witness :
  exists rs s1 s2,
    run fixedMarshal
        [CallWrite [x41; x42; x43; x44; x45]; HeartBeat; CallWrite [x46; x47]]
        (newBlockWriteStream (mkConn [] [Some (ErrIO 1)]) 0) = Done (rs, s1)
    /\ finish fixedMarshal None s1 = Done (None, s2)
    /\ dataOf (dataPackets (emitted s2)) = accepted rs
    /\ accepted rs = [x41; x42; x43; x44; x45; x46; x47].
Proof.
  eexists _, _, _.
  split; [vm_compute; reflexivity|].
  split; [vm_compute; reflexivity|].
  split; [|vm_compute; reflexivity].
  eapply (data_packets_carry_accepted_bytes fixedMarshal
            (mkConn [] [Some (ErrIO 1)]) 0
            [CallWrite [x41; x42; x43; x44; x45]; HeartBeat;
             CallWrite [x46; x47]] None).
  - repeat constructor.
  - vm_compute. reflexivity.
  - vm_compute. reflexivity.
Defined.

(** C5, as it is stated, fails when [finish] ends on a socket write error:
    nothing is latched in [ackError], and no terminal packet is emitted.
    Here the connection refuses the first write; [finish] returns that
    error and the only packet emitted is the data packet. *)
Lemma no_terminal_packet_after_write_error :
  ~ (forall Marshal c start cs late rs s1 err s2,
       int64 start = start ->
       Forall (fun c => isFinish c = false) cs ->
       run Marshal cs (newBlockWriteStream c start) = Done (rs, s1) ->
       finish Marshal late s1 = Done (err, s2) ->
       ackErr s2 = None ->
       len (emitted s2) <= maxInt64 ->
       exists ds,
         emitted s2
         = ds ++ [mkPacket (len ds + 1) (int64 (start + len (accepted rs)))
                           true [] []]
         /\ Forall (fun p => p_last p = false) ds
         /\ map p_seqno ds = map Z.of_nat (seq 1 (length ds))).
Proof.
  intros H.
  specialize (H fixedMarshal (mkConn [] [Some (ErrIO 1)]) 0
                [CallWrite [x41; x42; x43]] None).
  edestruct (run_total fixedMarshal [CallWrite [x41; x42; x43]]
               (newBlockWriteStream (mkConn [] [Some (ErrIO 1)]) 0)
               (new_channelsOpen _ _)) as (rs & s1 & Hrun).
  specialize (H rs s1).
  destruct (finish fixedMarshal None s1) as [[err s2]| |] eqn:Hfin;
    vm_compute in Hrun; injection Hrun as <- <-;
    vm_compute in Hfin; try discriminate.
  injection Hfin as <- <-.
  destruct (H (Some (ErrIO 1)) _ eq_refl ltac:(repeat constructor)
              eq_refl eq_refl eq_refl ltac:(vm_compute; discriminate))
    as (ds & E & _).
  destruct ds as [|d [|d' ds]]; cbn in E; inversion E.
Qed.

(** C5, amended. For every run in which [finish] returns no error, the
    seqnos of the emitted packets are 1, 2, ..., K, K+1 in this order, where
    the packet with seqno K+1 is the terminal packet: it is the last packet
    emitted, the only one with [last = true], it carries no data and no
    checksums, and its offset is the final byte count (the starting offset
    plus the bytes accepted). The starting offset is an [int64] and the
    number of packets is within the range of [int]. *)
Theorem seqnos_ascend_to_terminal_packet Marshal c start cs late rs s1 s2 :
  int64 start = start ->
  Forall (fun c => isFinish c = false) cs ->
  run Marshal cs (newBlockWriteStream c start) = Done (rs, s1) ->
  finish Marshal late s1 = Done (None, s2) ->
  len (emitted s2) <= maxInt64 ->
  exists ds,
    emitted s2
    = ds ++ [mkPacket (len ds + 1) (int64 (start + len (accepted rs)))
                      true [] []]
    /\ Forall (fun p => p_last p = false) ds
    /\ map p_seqno ds = map Z.of_nat (seq 1 (length ds)).
Proof.
  intros Hstart Hnf Hrun Hfin Hmax.
  destruct (session_end Marshal c start cs late rs s1 s2 Hnf Hrun Hfin)
    as ([Hchain _] & Hem & Hbytes).
  set (ds := dataPackets (emitted s2)) in *.
  assert (Hlen : len (emitted s2) = len ds + 1).
  { rewrite Hem. unfold len. rewrite length_app. cbn [length]. lia. }
  destruct (pchain_end _ _ _ _ _ Hstart eq_refl Hchain) as [Ho Hq].
  exists ds. split; [|split].
  - rewrite Hem at 1. f_equal. unfold terminalOf. f_equal. f_equal.
    + rewrite Hq. change (int (1 + len ds)) with (int64 (1 + len ds)).
      rewrite int64_small; unfold maxInt64, len in *; lia.
    + rewrite Ho. unfold dataLen. rewrite Hbytes. reflexivity.
  - apply dataPackets_not_last.
  - eapply (pchain_seqnos ds _ 1%nat); [exact Hchain|].
    unfold maxInt64 in Hmax. lia.
Qed.

Lemma seqnos_ascend_to_terminal_packet_witness :
  exists rs s1 s2 ds,
    run fixedMarshal [CallWrite [x41; x42; x43]]
        (newBlockWriteStream (mkConn [] []) 510) = Done (rs, s1)
    /\ finish fixedMarshal None s1 = Done (None, s2)
    /\ emitted s2
       = ds ++ [mkPacket (len ds + 1) (int64 (510 + len (accepted rs)))
                         true [] []]
    /\ Forall (fun p => p_last p = false) ds
    /\ map p_seqno ds = map Z.of_nat (seq 1 (length ds))
    /\ map p_seqno (emitted s2) = [1; 2; 3].
Proof.
  eexists _, _, _.
  assert (H := seqnos_ascend_to_terminal_packet fixedMarshal
                 (mkConn [] []) 510 [CallWrite [x41; x42; x43]] None).
  edestruct H as (ds & H1 & H2 & H3).
  - reflexivity.
  - repeat constructor.
  - vm_compute. reflexivity.
  - vm_compute. reflexivity.
  - vm_compute. discriminate.
  - exists ds. split; [vm_compute; reflexivity|].
    split; [vm_compute; reflexivity|].
    split; [exact H1|]. split; [exact H2|]. split; [exact H3|].
    vm_compute. reflexivity.
Defined.

(** C7, as it is stated, fails for a stream that does not start at offset
    0: the first data packet of an append at offset 600 has offset 600,
    with no packet before it. *)
Lemma offset_is_not_sum_of_prior_lengths :
  ~ (forall Marshal c start cs rs s pre p post,
       int64 start = start ->
       run Marshal cs (newBlockWriteStream c start) = Done (rs, s) ->
       emitted s = pre ++ p :: post ->
       p_last p = false ->
       p_offset p = dataLen pre).
Proof.
  intros H.
  specialize (H fixedMarshal (mkConn [] []) 600
                [CallWrite [x41; x42; x43]; CallFinish None]).
  edestruct (run_total fixedMarshal [CallWrite [x41; x42; x43]; CallFinish None]
               (newBlockWriteStream (mkConn [] []) 600)
               (new_channelsOpen _ _)) as (rs & s & Hrun).
  specialize (H rs s [] (mkPacket 1 600 false
                           (checksumsFor [x41; x42; x43]) [x41; x42; x43])
                [mkPacket 2 603 true [] []] eq_refl Hrun).
  vm_compute in Hrun. injection Hrun as <- <-.
  specialize (H eq_refl eq_refl). vm_compute in H. discriminate.
Qed.

(** C7, amended. For every emitted data packet, its offset is the stream's
    starting offset plus the sum of the data lengths of all packets emitted
    before it, in [int64] arithmetic. *)
Theorem offset_is_start_plus_prior_lengths Marshal c start cs rs s pre p post :
  int64 start = start ->
  run Marshal cs (newBlockWriteStream c start) = Done (rs, s) ->
  emitted s = pre ++ p :: post ->
  p_last p = false ->
  p_offset p = int64 (start + dataLen pre).
Proof.
  intros Hstart Hrun Hem Hp.
  apply run_Inv in Hrun as [HI _].
  destruct (Inv_data_position _ _ _ _ _ HI Hem Hp) as (post' & Hds).
  destruct HI as [Hchain _].
  destruct (pchain_nth _ _ _ _ _ pre p post' Hstart eq_refl Hchain Hds)
    as [_ H].
  exact H.
Qed.

Lemma offset_is_start_plus_prior_lengths_witness :
  exists rs s p1 p2 t,
    run fixedMarshal [CallWrite (replicate 30 x41); CallFinish None]
        (newBlockWriteStream (mkConn [] []) 1000) = Done (rs, s)
    /\ emitted s = [p1] ++ p2 :: [t]
    /\ p_offset p2 = int64 (1000 + dataLen [p1])
    /\ p_offset p2 = 1024.
Proof.
  eexists _, _, _, _, _.
  split; [vm_compute; reflexivity|].
  split; [vm_compute; reflexivity|].
  split; [|vm_compute; reflexivity].
  eapply (offset_is_start_plus_prior_lengths fixedMarshal (mkConn [] []) 1000
            [CallWrite (replicate 30 x41); CallFinish None]).
  - reflexivity.
  - vm_compute. reflexivity.
  - vm_compute. reflexivity.
  - reflexivity.
Defined.

(** C8, as it is stated, fails for the terminal packet: a stream started at
    offset 0 that writes three bytes and finishes emits its terminal packet,
    the second packet, at offset 3. *)
Lemma terminal_packet_offset_not_aligned :
  ~ (forall Marshal c start cs rs s pre p post,
       0 <= start <= maxInt64 ->
       run Marshal cs (newBlockWriteStream c start) = Done (rs, s) ->
       emitted s = pre ++ p :: post ->
       pre <> [] \/ start mod 512 = 0 ->
       p_offset p mod 512 = 0).
Proof.
  intros H.
  specialize (H fixedMarshal (mkConn [] []) 0
                [CallWrite [x41; x42; x43]; CallFinish None]).
  edestruct (run_total fixedMarshal [CallWrite [x41; x42; x43]; CallFinish None]
               (newBlockWriteStream (mkConn [] []) 0)
               (new_channelsOpen _ _)) as (rs & s & Hrun).
  specialize (H rs s [mkPacket 1 0 false
                        (checksumsFor [x41; x42; x43]) [x41; x42; x43]]
                (mkPacket 2 3 true [] []) []
                ltac:(unfold maxInt64; lia) Hrun).
  vm_compute in Hrun. injection Hrun as <- <-.
  specialize (H eq_refl (or_intror eq_refl)).
  vm_compute in H. discriminate.
Qed.

(** C8, amended. For a stream whose starting offset is a non-negative
    [int64], every emitted data packet, except possibly the first one when
    the starting offset is not a multiple of 512, has an offset that is a
    multiple of 512. (The terminal packet's offset is the final byte count,
    whatever its alignment.) *)
Theorem data_packet_offsets_aligned Marshal c start cs rs s pre p post :
  0 <= start <= maxInt64 ->
  run Marshal cs (newBlockWriteStream c start) = Done (rs, s) ->
  emitted s = pre ++ p :: post ->
  p_last p = false ->
  pre <> [] \/ start mod 512 = 0 ->
  p_offset p mod 512 = 0.
Proof.
  intros Hstart Hrun Hem Hp Hex.
  assert (HA : AlignInv start s).
  { eapply run_AlignInv; [|exact Hrun]. unfold maxInt64 in Hstart. lia. }
  apply run_Inv in Hrun as [HI _].
  destruct (Inv_data_position _ _ _ _ _ HI Hem Hp) as (post' & Hds).
  destruct HI as [Hchain _]. destruct HA as [Htail _ _].
  rewrite Hds in Htail, Hchain.
  destruct pre as [|d pre].
  - destruct Hex as [Hex|Hex]; [congruence|].
    cbn [app] in Hchain. apply pchain_head in Hchain as [_ ->]. exact Hex.
  - cbn [app tail] in Htail. apply Forall_app in Htail as [_ Htail].
    inversion Htail; subst. assumption.
Qed.

Lemma data_packet_offsets_aligned_witness :
  exists rs s p1 p2 t,
    run fixedMarshal [CallWrite (replicate 30 x41); CallFinish None]
        (newBlockWriteStream (mkConn [] []) 1000) = Done (rs, s)
    /\ emitted s = [p1] ++ p2 :: [t]
    /\ p_offset p2 mod 512 = 0
    /\ p_offset p1 = 1000 /\ p_offset p2 = 1024.
Proof.
  eexists _, _, _, _, _.
  split; [vm_compute; reflexivity|].
  split; [vm_compute; reflexivity|].
  split; [|vm_compute; split; reflexivity].
  eapply (data_packet_offsets_aligned fixedMarshal (mkConn [] []) 1000
            [CallWrite (replicate 30 x41); CallFinish None] _ _ [_] _ [_]).
  - unfold maxInt64. lia.
  - vm_compute. reflexivity.
  - vm_compute. reflexivity.
  - reflexivity.
  - left. discriminate.
Defined.

(** ** Checksums *)

Lemma concat_blocks {A : Type} (f : nat -> list A) (k : nat) :
  (forall j, length (f j) = k) ->
  forall n a,
    length (concat (map f (seq a n))) = (k * n)%nat
    /\ forall i, (i < n)%nat ->
         take k (drop (k * i) (concat (map f (seq a n)))) = f (a + i)%nat.
Proof.
  intros Hk. induction n as [|n IH]; intros a.
  - split; [cbn; lia|intros i Hi; lia].
  - cbn [seq map concat]. destruct (IH (S a)) as [IHl IHt]. split.
    + rewrite length_app, Hk, IHl. lia.
    + intros [|i] Hi.
      * rewrite Nat.mul_0_r, Nat.add_0_r. cbn [drop].
        apply take_app_length'. symmetry. apply Hk.
      * rewrite drop_app_ge by (rewrite Hk; lia).
        rewrite Hk. replace (k * S i - k)%nat with (k * i)%nat by lia.
        rewrite IHt by lia. f_equal. lia.
Qed.

Lemma checksumsFor_spec data :
  exists n : nat,
    (length data <= 512 * n < length data + 512)%nat
    /\ length (checksumsFor data) = (4 * n)%nat
    /\ forall i, (i < n)%nat ->
         take 4 (drop (4 * i) (checksumsFor data))
         = be32 (Checksum (chunkOf data i) IEEETable)
         /\ Uint32 (drop (4 * i) (checksumsFor data))
            = Done (Checksum (chunkOf data i) IEEETable).
Proof.
  unfold checksumsFor, outboundChunkSize.
  destruct (ceilDiv_512 (len data)) as (H0 & H1); [unfold len; lia|].
  set (n := Z.to_nat (ceilDiv (len data) 512)).
  destruct (concat_blocks
              (fun i => be32 (Checksum (chunkOf data i) IEEETable)) 4
              (fun _ => eq_refl) n 0%nat) as [Hl Ht].
  exists n. split; [unfold len in *; lia|]. split; [exact Hl|].
  intros i Hi. specialize (Ht i Hi). cbn [Nat.add] in Ht.
  split; [exact Ht|].
  rewrite <- (take_drop 4 (drop (4 * i) _)), Ht.
  apply Uint32_be32, Checksum_range.
Qed.

(** C3. For every emitted data packet with [L] bytes of data, the checksum
    array has [4 * ceil(L / 512)] bytes, and for every chunk index [i] the
    four bytes at position [4 * i] are the big-endian CRC-32 (IEEE) of
    [data[512*i .. min(512*(i+1), L))]. *)
Theorem checksums_cover_chunks Marshal c start cs rs s p :
  run Marshal cs (newBlockWriteStream c start) = Done (rs, s) ->
  p ∈ emitted s ->
  p_last p = false ->
  exists n : nat,
    (length (p_data p) <= 512 * n < length (p_data p) + 512)%nat
    /\ length (p_checksums p) = (4 * n)%nat
    /\ forall i, (i < n)%nat ->
         take 4 (drop (4 * i) (p_checksums p))
         = be32 (Checksum (chunkOf (p_data p) i) IEEETable)
         /\ Uint32 (drop (4 * i) (p_checksums p))
            = Done (Checksum (chunkOf (p_data p) i) IEEETable).
Proof.
  intros Hrun Hin Hp.
  apply run_Inv in Hrun as [[Hchain _] _].
  assert (Hin' : p ∈ dataPackets (emitted s)).
  { apply list_elem_of_filter. auto. }
  apply pchain_checksums in Hchain.
  rewrite list.Forall_forall in Hchain.
  destruct (Hchain p Hin') as [-> _].
  apply checksumsFor_spec.
Qed.

Lemma checksums_cover_chunks_witness :
  exists rs s p,
    run fixedMarshal [CallWrite [x41; x42; x43]; CallFinish None]
        (newBlockWriteStream (mkConn [] []) 0) = Done (rs, s)
    /\ p ∈ emitted s
    /\ p_data p = [x41; x42; x43]
    /\ exists n : nat,
         (length (p_data p) <= 512 * n < length (p_data p) + 512)%nat
         /\ length (p_checksums p) = (4 * n)%nat
         /\ forall i, (i < n)%nat ->
              take 4 (drop (4 * i) (p_checksums p))
              = be32 (Checksum (chunkOf (p_data p) i) IEEETable)
              /\ Uint32 (drop (4 * i) (p_checksums p))
                 = Done (Checksum (chunkOf (p_data p) i) IEEETable).
Proof.
  eexists _, _, _.
  split; [vm_compute; reflexivity|].
  split; [apply list_elem_of_here|].
  split; [reflexivity|].
  eapply (checksums_cover_chunks fixedMarshal (mkConn [] []) 0
            [CallWrite [x41; x42; x43]; CallFinish None]).
  - vm_compute. reflexivity.
  - apply list_elem_of_here.
  - reflexivity.
Defined.

(** ** Scenarios of the specification *)

(** An empty block: the terminal packet alone, with seqno 1. *)
Example scenario_empty_block :
  match run fixedMarshal [CallFinish None]
            (newBlockWriteStream (mkConn [] []) 0) with
  | Done (rs, s) =>
      rs = [RetFinish None]
      /\ map summary (emitted s) = [(1, 0, true, 0, 0)]
      /\ length (written (conn s)) = 3%nat
  | _ => False
  end.
Proof. vm_compute. repeat split; reflexivity. Qed.

(** A single chunk of 200 bytes. *)
Example scenario_single_chunk :
  match run fixedMarshal [CallWrite (replicate 200 x41); CallFinish None]
            (newBlockWriteStream (mkConn [] []) 0) with
  | Done (rs, s) =>
      map summary (emitted s) = [(1, 0, false, 200, 4); (2, 200, true, 0, 0)]
  | _ => False
  end.
Proof. vm_compute. reflexivity. Qed.

(** An append at offset 600: a first packet of 424 bytes up to the chunk
    boundary, then the rest from offset 1024. *)
Example scenario_append :
  match run fixedMarshal [CallWrite (replicate 1000 x41); CallFinish None]
            (newBlockWriteStream (mkConn [] []) 600) with
  | Done (rs, s) =>
      map summary (emitted s)
      = [(1, 600, false, 424, 4); (2, 1024, false, 576, 8);
         (3, 1600, true, 0, 0)]
  | _ => False
  end.
Proof. vm_compute. reflexivity. Qed.

(** Go's [%] keeps the sign of the dividend: at a negative offset that is
    not a multiple of 512 the packet is not cut short, and the offset after
    it is not a multiple of 512 either. This is why the statements about
    alignment ask for a non-negative offset. *)
Example negative_offset_is_not_realigned :
  packetLengthOf 70000 (-100) = 65536
  /\ spec_packet_length 70000 (-100) = 100
  /\ (-100 + 65536) mod 512 = 412.
Proof. vm_compute. repeat split; reflexivity. Qed.

(** ** The drain against the specification's packet length *)

Lemma packetLengthOf_spec buffered off :
  0 <= off <= maxInt64 ->
  packetLengthOf buffered off = spec_packet_length buffered off.
Proof.
  intros Hoff. unfold packetLengthOf, spec_packet_length.
  unfold outboundPacketSize, outboundChunkSize, maxInt64 in *.
  change (int off) with (int64 off).
  rewrite int64_small, rem_512_nonneg by lia.
  destruct (buffered <? 65536) eqn:E1;
    destruct (0 <? off mod 512) eqn:E2; cbn [andb];
    try destruct (512 - off mod 512 <? _) eqn:E3;
    case_decide; lia.
Qed.

Lemma drained_lengths force b o q ps b' o' q' :
  drained force b o q ps b' o' q' ->
  0 <= o -> o + len b <= maxInt64 ->
  forall pre p post, ps = pre ++ p :: post ->
    0 < len b - dataLen pre
    /\ (force = true \/ 65536 <= len b - dataLen pre)
    /\ p_offset p = o + dataLen pre
    /\ len (p_data p) = spec_packet_length (len b - dataLen pre) (p_offset p).
Proof.
  induction 1 as [|b o q ps b' o' q' Hpos Hforce Hd IH];
    intros Ho Hmax pre p post Eps.
  - destruct pre; discriminate.
  - pose proof (packetAt_data_length b o q) as Hlen.
    destruct (packetLengthOf_bounds (len b) o) as (Hb1 & _ & Hb2); [lia|].
    specialize (Hb2 Hpos).
    destruct pre as [|p0 pre]; cbn [app] in Eps; injection Eps as <- Eps.
    + rewrite dataLen_nil, !Z.sub_0_r, Z.add_0_r.
      split; [exact Hpos|]. split; [exact Hforce|]. split; [reflexivity|].
      rewrite Hlen. cbn [packetAt p_offset].
      apply packetLengthOf_spec. unfold len in *. lia.
    + rewrite dataLen_cons.
      set (L := len (p_data (packetAt b o q))) in *.
      assert (Eo : int64 (o + int64 L) = o + L).
      { rewrite int64_add_r, int64_small; unfold maxInt64 in *; lia. }
      rewrite Eo in IH.
      assert (Eb : len (drop (length (p_data (packetAt b o q))) b) = len b - L).
      { unfold L, len in *. rewrite length_drop. lia. }
      specialize (IH ltac:(lia) ltac:(lia) pre p post Eps).
      rewrite Eb in IH.
      replace (len b - (L + dataLen pre)) with (len b - L - dataLen pre) by lia.
      replace (o + (L + dataLen pre)) with (o + L + dataLen pre) by lia.
      exact IH.
Qed.

(** What [writePacket] returns and writes depends on the stream only
    through its connection. *)
Lemma writePacket_conn_only Marshal s t p :
  conn s = conn t ->
  exists err c,
    writePacket Marshal s p = Done (err, set_conn s c)
    /\ writePacket Marshal t p = Done (err, set_conn t c).
Proof.
  intros E. unfold writePacket. rewrite E.
  destruct (Marshal _) as [info [e|]].
  - exists (Some e), (conn t). rewrite set_conn_same, <- E, set_conn_same.
    split; reflexivity.
  - rewrite frameHeader_eq. cbn [rbind].
    destruct (conn_Write (conn t) _) as [[e|] c1]; [eauto|].
    destruct (conn_Write c1 _) as [[e|] c2]; [eauto|].
    destruct (conn_Write c2 _) as [[e|] c3]; eauto.
Qed.

(** What the loop of [flush] writes: the error it returns is the one
    [writePacket] returned for the last packet it formed, and every packet
    before that one was written. *)
Lemma flushLoop_writes Marshal fuel : forall force s err s',
  ch_closed (packets s) = false ->
  flushLoop Marshal fuel force s = Done (err, s') ->
  exists ps,
    packets s' = mkChan (ch_sent (packets s) ++ ps) false
    /\ match err with
       | None => wrote Marshal (conn s) ps (conn s')
       | Some e =>
           exists pre p s1,
             ps = pre ++ [p]
             /\ wrote Marshal (conn s) pre (conn s1)
             /\ writePacket Marshal s1 p = Done (Some e, s')
       end.
Proof.
  induction fuel as [|fuel IH]; intros force s err s' Hopen Hrun;
    cbn [flushLoop] in Hrun; destruct (flushCond force s) eqn:Hc.
  - discriminate.
  - injection Hrun as <- <-. exists [].
    split; [apply chan_open_eta; exact Hopen|constructor].
  - unfold flushBody in Hrun. rewrite makePacket_eq in Hrun.
    cbn [rbind] in Hrun.
    set (p := packetAt (buf s) (offset s) (seqno s)) in *.
    unfold chan_send in Hrun. cbn [packets set_buf] in Hrun.
    rewrite Hopen in Hrun. cbn [rbind] in Hrun.
    match type of Hrun with context [writePacket Marshal ?s1 p] =>
      set (sw := s1) in *;
      destruct (writePacket_conn Marshal sw p) as (err1 & c & Hw)
    end.
    rewrite Hw in Hrun. cbn [rbind] in Hrun.
    destruct err1 as [e|].
    + injection Hrun as <- <-. exists [p]. split; [reflexivity|].
      exists [], p, sw. split; [reflexivity|]. split; [constructor|exact Hw].
    + apply IH in Hrun as (ps & Hps & Herr); [|reflexivity].
      exists (p :: ps). split.
      { rewrite Hps. cbn. rewrite <- app_assoc. reflexivity. }
      assert (Hcons : forall c', wrote Marshal (conn (set_conn sw c)) ps c' ->
                                 wrote Marshal (conn s) (p :: ps) c').
      { intros c' H. exact (wrote_cons Marshal sw p _ ps c' Hw H). }
      destruct err as [e|].
      * destruct Herr as (pre & p' & s1 & -> & Hpre & Hw').
        exists (p :: pre), p', s1. split; [reflexivity|].
        split; [|exact Hw'].
        exact (wrote_cons Marshal sw p _ pre (conn s1) Hw Hpre).
      * apply Hcons, Herr.
  - injection Hrun as <- <-. exists [].
    split; [apply chan_open_eta; exact Hopen|constructor].
Qed.

(** C2. On every drain ([flush]), packets are formed while the buffer is
    non-empty and either the flush is forced or at least 65536 bytes are
    buffered; each packet's data length is the packet length of the
    specification, [min(buffered, 65536)] capped to [512 - offset mod 512]
    when that is positive and smaller. The drain forms a packet whenever
    the condition holds on entry, and it stops only when the condition is
    false, returning [nil], or when the write of the packet it has just
    formed fails, returning that error: then the packets before the last
    one were all written. The offset is a non-negative [int64] that stays
    in range, and the in-flight channel is open. *)
Theorem flush_packetisation Marshal force s :
  ch_closed (packets s) = false ->
  0 <= offset s ->
  offset s + len (buf s) <= maxInt64 ->
  exists err s' ps,
    flush Marshal force s = Done (err, s')
    /\ emitted s' = emitted s ++ ps
    /\ dataOf ps ++ buf s' = buf s
    /\ (forall pre p post, ps = pre ++ p :: post ->
          let buffered := len (buf s) - dataLen pre in
          0 < buffered
          /\ (force = true \/ 65536 <= buffered)
          /\ p_offset p = offset s + dataLen pre
          /\ len (p_data p) = spec_packet_length buffered (p_offset p))
    /\ (err = None ->
        ~ (0 < len (buf s') /\ (force = true \/ 65536 <= len (buf s'))))
    /\ (0 < len (buf s) /\ (force = true \/ 65536 <= len (buf s)) ->
        ps <> [])
    /\ (err = None -> wrote Marshal (conn s) ps (conn s'))
    /\ (forall e, err = Some e ->
          exists pre p s1,
            ps = pre ++ [p]
            /\ wrote Marshal (conn s) pre (conn s1)
            /\ writePacket Marshal s1 p = Done (Some e, s')).
Proof.
  intros Hopen Ho Hmax.
  destruct (flush_spec Marshal force s Hopen)
    as (err & s' & ps & Hrun & Hd & Hps & _ & _ & _ & _ & Hcond).
  destruct (flushLoop_writes Marshal _ force s err s' Hopen Hrun)
    as (ps' & Hps' & Hw).
  assert (ps' = ps) as ->.
  { rewrite Hps in Hps'. injection Hps' as Hps'.
    symmetry. eapply app_inv_head, Hps'. }
  assert (Hend : err = None ->
                 ~ (0 < len (buf s')
                    /\ (force = true \/ 65536 <= len (buf s')))).
  { intros E [H1 H2]. specialize (Hcond E). unfold flushCond in Hcond.
    apply andb_false_iff in Hcond as [Hc|Hc]; [lia|].
    apply orb_false_iff in Hc as [Hf Hc].
    unfold outboundPacketSize in Hc. destruct H2; [congruence|lia]. }
  exists err, s', ps. split; [exact Hrun|].
  split; [unfold emitted; rewrite Hps; reflexivity|].
  split; [eapply drained_data, Hd|].
  split; [intros pre p post E; eapply drained_lengths; eauto|].
  split; [exact Hend|].
  split.
  { intros Hentry ->. destruct err as [e|].
    - destruct Hw as (pre & p & s1 & E & _). destruct pre; discriminate.
    - apply (Hend eq_refl). apply drained_nil_inv in Hd as (E & _).
      rewrite E. exact Hentry. }
  split.
  - intros ->. exact Hw.
  - intros e ->. exact Hw.
Qed.

Lemma flush_packetisation_witness :
  let s := set_buf (newBlockWriteStream
                      (mkConn [] [None; None; None; Some (ErrIO 5)]) 1000)
                   (replicate 30 x41) in
  exists s' p1 p2 s1,
    flush fixedMarshal true s = Done (Some (ErrIO 5), s')
    /\ emitted s' = [p1; p2]
    /\ (p_offset p1 = 1000 /\ len (p_data p1) = spec_packet_length 30 1000)
    /\ (p_offset p2 = 1024 /\ len (p_data p2) = spec_packet_length 6 1024)
    /\ p_data p1 ++ p_data p2 ++ buf s' = replicate 30 x41
    /\ wrote fixedMarshal (conn s) [p1] (conn s1)
    /\ writePacket fixedMarshal s1 p2 = Done (Some (ErrIO 5), s').
Proof.
  intros s.
  destruct (flush_packetisation fixedMarshal true s)
    as (err & s' & ps & Hrun & Hem & Hdata & Hlen & _ & _ & _ & Herr).
  - reflexivity.
  - vm_compute. discriminate.
  - vm_compute. discriminate.
  - assert (Hflush : exists p1 p2 s2,
              flush fixedMarshal true s = Done (Some (ErrIO 5), s2)
              /\ emitted s2 = [p1; p2]).
    { eexists _, _, _. split; vm_compute; reflexivity. }
    destruct Hflush as (p1 & p2 & s2 & Hrun2 & Hem2).
    rewrite Hrun in Hrun2. injection Hrun2 as -> ->.
    rewrite Hem2 in Hem. cbn [emitted s set_buf newBlockWriteStream packets
      chan_make ch_sent app] in Hem. subst ps.
    destruct (Herr _ eq_refl) as (pre & p & s1 & E & Hpre & Hw).
    change [p1; p2] with ([p1] ++ [p2]) in E.
    apply app_inj_tail in E as [<- <-].
    exists s2, p1, p2, s1.
    split; [exact Hrun|]. split; [exact Hem2|].
    destruct (Hlen [] p1 [p2] eq_refl) as (_ & _ & Ho1 & Hl1).
    destruct (Hlen [p1] p2 [] eq_refl) as (_ & _ & Ho2 & Hl2).
    assert (Hd1 : dataLen [p1] = 24).
    { rewrite dataLen_cons, dataLen_nil, Hl1, Ho1. vm_compute. reflexivity. }
    cbn zeta in Ho1, Hl1, Ho2, Hl2. rewrite Hd1 in Ho2, Hl2.
    rewrite Ho1 in Hl1. rewrite Ho2 in Hl2.
    split; [split; [exact Ho1|exact Hl1]|].
    split; [split; [exact Ho2|exact Hl2]|].
    split; [|split; [exact Hpre|exact Hw]].
    unfold dataOf in Hdata. cbn [map concat] in Hdata.
    rewrite app_nil_r, <- app_assoc in Hdata. exact Hdata.
Defined.

(** Every packet a run emits is small enough for the length field of its
    frame: at most 65536 bytes of data and 512 bytes of checksums. *)
Lemma emitted_packets_fit_uint32 Marshal c start cs rs s p :
  run Marshal cs (newBlockWriteStream c start) = Done (rs, s) ->
  p ∈ emitted s ->
  len (p_data p) <= 65536 /\ len (p_checksums p) <= 512
  /\ len (p_data p) + len (p_checksums p) + 4 < 2 ^ 32.
Proof.
  intros Hrun Hin.
  apply run_Inv in Hrun as [[Hchain Hshape] _].
  assert (Hcase : p ∈ dataPackets (emitted s) \/ p = terminalOf s).
  { destruct Hshape as [E|[_ E]]; [left; rewrite <- E; exact Hin|].
    rewrite E in Hin. apply elem_of_app in Hin as [Hin|Hin]; [auto|].
    right. apply list_elem_of_singleton in Hin. exact Hin. }
  destruct Hcase as [Hd| ->];
    [|unfold terminalOf, len; cbn [p_data p_checksums length Z.of_nat]; lia].
  apply pchain_checksums in Hchain. rewrite list.Forall_forall in Hchain.
  destruct (Hchain p Hd) as [Hcs Hlen]. unfold outboundPacketSize in Hlen.
  destruct (checksumsFor_spec (p_data p)) as (n & Hn & Hl & _).
  unfold len in *. rewrite Hcs, Hl. lia.
Qed.

(** C6. For every frame written by [writePacket] or [writeHeartBeatPacket],
    the leading big-endian [uint32] is the data length plus the checksum
    length plus 4, whatever the length of the header proto; a heartbeat
    frame carries the length field 4 and the header with seqno -1, offset
    0, [last = false] and data length 0, and nothing after the header. *)
Theorem frames_carry_payload_length Marshal s s' :
  (forall p,
     len (p_data p) + len (p_checksums p) + 4 < 2 ^ 32 ->
     writePacket Marshal s p = Done (None, s') ->
     exists infoBytes lengthField,
       Marshal (mkHeader (p_offset p) (int64 (p_seqno p)) (p_last p)
                         (int32 (len (p_data p))))
       = (infoBytes, None)
       /\ written (conn s')
          = written (conn s)
            ++ [lengthField
                ++ [byte_of_Z (Z.shiftr (uint16 (len infoBytes)) 8);
                    byte_of_Z (uint16 (len infoBytes))]
                ++ infoBytes;
                p_checksums p; p_data p]
       /\ length lengthField = 4%nat
       /\ Uint32 lengthField
          = Done (len (p_data p) + len (p_checksums p) + 4))
  /\ (writeHeartBeatPacket Marshal s = Done (None, s') ->
      exists infoBytes lengthField,
        Marshal (mkHeader 0 (-1) false 0) = (infoBytes, None)
        /\ written (conn s')
           = written (conn s)
             ++ [lengthField
                 ++ [byte_of_Z (Z.shiftr (uint16 (len infoBytes)) 8);
                     byte_of_Z (uint16 (len infoBytes))]
                 ++ infoBytes]
        /\ length lengthField = 4%nat
        /\ Uint32 lengthField = Done 4).
Proof.
  assert (Hw : forall c b c', conn_Write c b = (None, c') ->
                              written c' = written c ++ [b]).
  { intros c b c'. unfold conn_Write.
    destruct (faults c) as [|[e|] rest]; intros E; inversion E; reflexivity. }
  split.
  - intros p Hlen. unfold writePacket.
    destruct (Marshal _) as [info [e|]]; [discriminate|].
    rewrite frameHeader_eq. cbn [rbind].
    destruct (conn_Write (conn s) _) as [[e|] c1] eqn:E1; [discriminate|].
    destruct (conn_Write c1 _) as [[e|] c2] eqn:E2; [discriminate|].
    destruct (conn_Write c2 _) as [[e|] c3] eqn:E3; [discriminate|].
    intros E. inversion E; subst s'. clear E.
    apply Hw in E1, E2, E3.
    assert (Ev : uint32 (int (len (p_data p) + len (p_checksums p) + 4))
                 = len (p_data p) + len (p_checksums p) + 4).
    { change (int ?x) with (int64 x). unfold len in *.
      rewrite int64_small by lia. unfold uint32. apply Z.mod_small. lia. }
    exists info, (be32 (len (p_data p) + len (p_checksums p) + 4)).
    split; [reflexivity|]. split; [|split; [reflexivity|]].
    + cbn [conn set_conn]. rewrite E3, E2, E1, Ev, <- !app_assoc.
      reflexivity.
    + rewrite <- (app_nil_r (be32 _)). apply Uint32_be32.
      unfold len in *. lia.
  - unfold writeHeartBeatPacket, heartBeatHeader, heartBeatSeqno.
    destruct (Marshal _) as [info [e|]]; [discriminate|].
    rewrite frameHeader_eq. cbn [rbind].
    destruct (conn_Write (conn s) _) as [[e|] c1] eqn:E1; [discriminate|].
    intros E. inversion E; subst s'. clear E.
    apply Hw in E1.
    exists info, (be32 4).
    split; [reflexivity|]. split; [|split; reflexivity].
    cbn [conn set_conn]. rewrite E1. reflexivity.
Qed.

Lemma frames_carry_payload_length_witness :
  let s := newBlockWriteStream (mkConn [] []) 0 in
  let p := mkPacket 1 0 false [x00; x01; x02; x03] [x41; x42; x43] in
  (exists s' infoBytes lengthField,
     writePacket fixedMarshal s p = Done (None, s')
     /\ written (conn s')
        = written (conn s)
          ++ [lengthField
              ++ [byte_of_Z (Z.shiftr (uint16 (len infoBytes)) 8);
                  byte_of_Z (uint16 (len infoBytes))]
              ++ infoBytes;
              p_checksums p; p_data p]
     /\ Uint32 lengthField = Done 11)
  /\ (exists s' infoBytes lengthField,
        writeHeartBeatPacket fixedMarshal s = Done (None, s')
        /\ written (conn s')
           = written (conn s)
             ++ [lengthField
                 ++ [byte_of_Z (Z.shiftr (uint16 (len infoBytes)) 8);
                     byte_of_Z (uint16 (len infoBytes))]
                 ++ infoBytes]
        /\ Uint32 lengthField = Done 4).
Proof.
  intros s p. split.
  - destruct (writePacket fixedMarshal s p) as [[[e|] s']| |] eqn:E;
      try (vm_compute in E; discriminate).
    destruct (proj1 (frames_carry_payload_length fixedMarshal s s') p)
      as (info & lf & H1 & H2 & H3 & H4);
      [vm_compute; reflexivity|exact E|].
    exists s', info, lf. auto.
  - destruct (writeHeartBeatPacket fixedMarshal s) as [[[e|] s']| |] eqn:E;
      try (vm_compute in E; discriminate).
    destruct (proj2 (frames_carry_payload_length fixedMarshal s s') E)
      as (info & lf & H1 & H2 & H3 & H4).
    exists s', info, lf. auto.
Defined.

(** ** Write and finish *)

Section WriteFinish.

Variable Marshal : PacketHeaderProto -> list byte * option error.

Lemma flush_closed force s err s' :
  flush Marshal force s = Done (err, s') -> closed s' = closed s.
Proof.
  intros Hrun. destruct (ch_closed (packets s)) eqn:Hch.
  - unfold flush in Hrun. destruct (length (buf s)) as [|fuel];
      cbn [flushLoop] in Hrun;
      (destruct (flushCond force s); [|inversion Hrun; reflexivity]);
      [discriminate|].
    unfold flushBody in Hrun. rewrite makePacket_eq in Hrun.
    cbn [rbind] in Hrun. unfold chan_send in Hrun.
    cbn [packets set_buf] in Hrun. rewrite Hch in Hrun. discriminate.
  - destruct (flush_spec Marshal force s Hch)
      as (err0 & s0 & ps & Hrun0 & _ & _ & Hc & _).
    rewrite Hrun in Hrun0. inversion Hrun0; subst. exact Hc.
Qed.

Lemma finishDeferred_closed late err s err' s' :
  finishDeferred late err s = Done (err', s') -> closed s' = closed s.
Proof.
  unfold finishDeferred, chan_close.
  destruct (ch_closed (closeCh s)); [discriminate|]. stream_simpl.
  destruct (ch_closed (packets s)); [discriminate|]. stream_simpl.
  destruct (ackErr s) as [e|] eqn:He; stream_simpl;
    [rewrite He|destruct late; stream_simpl];
    intros E; inversion E; reflexivity.
Qed.

Lemma finish_closes late s err s' :
  finish Marshal late s = Done (err, s') -> closed s' = true.
Proof.
  unfold finish. destruct (closed s) eqn:Hc.
  { intros E. inversion E; subst. exact Hc. }
  destruct (finishBody Marshal (set_closed s true)) as [[e s1]| |] eqn:Hb;
    cbn [rbind]; try discriminate.
  assert (Hc1 : closed s1 = true).
  { unfold finishBody in Hb. stream_simpl.
    destruct (ackErr s); [inversion Hb; reflexivity|].
    destruct (flush Marshal true (set_closed s true)) as [[e2 s2]| |] eqn:Hf;
      cbn [rbind] in Hb; try discriminate.
    apply flush_closed in Hf. stream_simpl.
    destruct e2; [inversion Hb; subst; exact Hf|].
    destruct (chan_send (packets s2) _) as [ch| |]; cbn [rbind] in Hb;
      try discriminate.
    match type of Hb with writePacket Marshal ?s3 ?p = _ =>
      destruct (writePacket_conn Marshal s3 p) as (e3 & c3 & Hw)
    end.
    rewrite Hw in Hb. inversion Hb; subst. stream_simpl. exact Hf. }
  intros Hd. apply finishDeferred_closed in Hd. congruence.
Qed.

End WriteFinish.

(** C9. [Write] returns 0 and the closed-pipe error when [closed] is set,
    and otherwise 0 and the latched error when [ackError] is set, in both
    cases leaving the stream as it was; in all other cases it appends all of
    its input to the buffer and returns the input length, whether the drain
    that follows returns an error or not: every byte of the buffer and the
    input is in a packet formed by the drain or still in the buffer. *)
Theorem Write_contract Marshal b s :
  (closed s = true ->
   Write Marshal b s = Done (0, Some ErrClosedPipe, s))
  /\ (forall e, closed s = false -> ackErr s = Some e ->
      Write Marshal b s = Done (0, Some e, s))
  /\ (closed s = false -> ackErr s = None ->
      ch_closed (packets s) = false ->
      exists err s' ps,
        Write Marshal b s = Done (len b, err, s')
        /\ flush Marshal false (set_buf s (buf s ++ b)) = Done (err, s')
        /\ emitted s' = emitted s ++ ps
        /\ dataOf ps ++ buf s' = buf s ++ b).
Proof.
  unfold Write. split; [|split].
  - intros ->. reflexivity.
  - intros e -> ->. reflexivity.
  - intros -> -> Hopen.
    destruct (flush_spec Marshal false (set_buf s (buf s ++ b)) Hopen)
      as (err & s' & ps & Hrun & Hd & Hps & _).
    exists err, s', ps. rewrite Hrun. cbn [rbind].
    split; [reflexivity|]. split; [reflexivity|].
    split; [unfold emitted; rewrite Hps; reflexivity|].
    apply drained_data in Hd. exact Hd.
Qed.

Lemma Write_contract_witness :
  let s := newBlockWriteStream (mkConn [] [Some (ErrIO 5)]) 0 in
  let b := [x41; x42; x43] in
  Write fixedMarshal b (set_closed s true)
  = Done (0, Some ErrClosedPipe, set_closed s true)
  /\ Write fixedMarshal b (ackerLatches (ErrIO 9) s)
     = Done (0, Some (ErrIO 9), ackerLatches (ErrIO 9) s)
  /\ exists err s' ps,
       Write fixedMarshal b s = Done (len b, err, s')
       /\ flush fixedMarshal false (set_buf s (buf s ++ b)) = Done (err, s')
       /\ emitted s' = emitted s ++ ps
       /\ dataOf ps ++ buf s' = buf s ++ b.
Proof.
  intros s b. split; [|split].
  - apply (proj1 (Write_contract fixedMarshal b (set_closed s true))).
    reflexivity.
  - apply (proj1 (proj2 (Write_contract fixedMarshal b
                           (ackerLatches (ErrIO 9) s)))); reflexivity.
  - apply (proj2 (proj2 (Write_contract fixedMarshal b s))); reflexivity.
Defined.

(** C10. On a stream on which [finish] has been called once, a second call
    returns [nil] at once and changes nothing: no packet is emitted,
    neither channel is closed again, the acker is not waited for and
    nothing is written, also when an error is latched or the first call
    returned an error. *)
Theorem finish_twice Marshal late1 late2 s err1 s1 :
  finish Marshal late1 s = Done (err1, s1) ->
  finish Marshal late2 s1 = Done (None, s1).
Proof.
  intros H. apply finish_closes in H. unfold finish. rewrite H. reflexivity.
Qed.

Lemma finish_twice_witness :
  let s := ackerLatches (ErrIO 9)
             (set_buf (newBlockWriteStream (mkConn [] []) 0) [x41; x42]) in
  exists s1,
    finish fixedMarshal None s = Done (Some (ErrIO 9), s1)
    /\ ackErr s1 = Some (ErrIO 9)
    /\ finish fixedMarshal (Some EOF) s1 = Done (None, s1).
Proof.
  intros s. eexists.
  split; [vm_compute; reflexivity|]. split; [reflexivity|].
  eapply (finish_twice fixedMarshal None (Some EOF) s).
  vm_compute. reflexivity.
Defined.

(** ** The acker *)

(** The inner loop is one [readPrefixedMessage] per pass. *)
Lemma readAcks_eq reader :
  readAcks reader
  = let '(r, rest) := readPrefixedMessage reader in
    match ackOnce r with
    | Some exit => ([SocketRead r], exit, rest)
    | None =>
        let '(evs, exit, rest') := readAcks rest in
        (SocketRead r :: evs, exit, rest')
    end.
Proof. destruct reader as [|r rest]; reflexivity. Qed.

Lemma firstFailure_found reply : forall i0 pre st post,
  reply = pre ++ st :: post ->
  Forall (fun x => x = Status_SUCCESS) pre ->
  st <> Status_SUCCESS ->
  firstFailure i0 reply = Some (i0 + len pre, st).
Proof.
  induction reply as [|x reply IH]; intros i0 pre st post E Hpre Hst.
  - destruct pre; discriminate.
  - destruct pre as [|y pre]; cbn [app] in E; injection E as -> E.
    + cbn [firstFailure]. destruct (decide (st <> Status_SUCCESS)); [|tauto].
      unfold len. cbn [length Z.of_nat]. rewrite Z.add_0_r. reflexivity.
    + inversion Hpre; subst. cbn [firstFailure].
      destruct (decide (Status_SUCCESS <> Status_SUCCESS)); [congruence|].
      rewrite (IH (i0 + 1) pre st post eq_refl); auto.
      f_equal. f_equal. unfold len. cbn [length]. lia.
Qed.

Lemma firstFailure_none reply : forall i0,
  Forall (fun x => x = Status_SUCCESS) reply -> firstFailure i0 reply = None.
Proof.
  induction reply as [|x reply IH]; intros i0 H; [reflexivity|].
  inversion H; subst. cbn [firstFailure].
  destruct (decide (Status_SUCCESS <> Status_SUCCESS)); [congruence|].
  apply IH. assumption.
Qed.

Lemma readAcks_reads reader :
  Forall notLatched (readAcks reader).1.1.
Proof.
  induction reader as [|r rest IH]; cbn [readAcks].
  - repeat constructor.
  - destruct (ackOnce r); [repeat constructor|].
    destruct (readAcks rest) as [[evs exit] rest']. cbn in *.
    constructor; [exact I|exact IH].
Qed.

Lemma ackPackets_head p ch reader :
  head (events (ackPackets (p :: ch) reader)) = Some (Dequeued p).
Proof.
  cbn [ackPackets]. destruct (readAcks reader) as [[evs exit] rest].
  destruct exit as [e|seqno]; [reflexivity|].
  destruct (decide _); reflexivity.
Qed.

Lemma ackPackets_shape ch : forall reader,
  match latched (ackPackets ch reader) with
  | None => Forall notLatched (events (ackPackets ch reader))
  | Some e =>
      exists pre done rest,
        events (ackPackets ch reader) = pre ++ Latched e :: drain rest
        /\ Forall notLatched pre
        /\ ch = done ++ rest
  end.
Proof.
  induction ch as [|p ch IH]; intros reader; cbn [ackPackets].
  - cbn. repeat constructor.
  - pose proof (readAcks_reads reader) as Hr.
    destruct (readAcks reader) as [[evs exit] rest]. cbn [fst] in Hr.
    destruct exit as [e|seqno].
    + cbn [latched events].
      exists (Dequeued p :: evs), [p], ch. repeat split.
      constructor; [exact I|exact Hr].
    + destruct (decide (seqno <> p_seqno p)).
      * cbn [latched events].
        exists (Dequeued p :: evs), [p], ch. repeat split.
        constructor; [exact I|exact Hr].
      * cbn [latched events]. specialize (IH rest).
        destruct (latched (ackPackets ch rest)) as [e|].
        -- destruct IH as (pre & done & rest' & E & Hpre & Hch).
           exists (Dequeued p :: evs ++ pre), (p :: done), rest'.
           rewrite E, Hch. repeat split.
           ++ cbn [app]. rewrite <- app_assoc. reflexivity.
           ++ constructor; [exact I|]. apply Forall_app. auto.
        -- constructor; [exact I|]. apply Forall_app. auto.
Qed.

(** C4. For each dequeued in-flight packet [p] the acker latches the first
    ack-side error and stops reading: a failed read latches the read error;
    an ack with a status other than SUCCESS latches an [ackError] with the
    index of the first such status, that status and the ack's seqno; an ack
    of all SUCCESS with seqno -1 is discarded and the next ack is read for
    the same [p]; an ack of all SUCCESS with another seqno that differs from
    [p]'s latches [ErrInvalidSeqno], and one that matches lets the acker go
    on to the next packet. After latching, the acker only takes the
    remaining packets off the channel until it is closed: it reads nothing
    more and assigns [ackError] no second time. *)
Theorem acker_latches_first_error :
  (forall p ch e rd,
     ackPackets (p :: ch) (ReadErr e :: rd)
     = mkAckerRun
         (Dequeued p :: SocketRead (ReadErr e) :: Latched e :: drain ch)
         (Some e) rd)
  /\ (forall p ch ack rd pre st post,
        ack_reply ack = pre ++ st :: post ->
        Forall (fun x => x = Status_SUCCESS) pre ->
        st <> Status_SUCCESS ->
        ackPackets (p :: ch) (ReadAck ack :: rd)
        = mkAckerRun
            (Dequeued p :: SocketRead (ReadAck ack)
             :: Latched (ErrAck (mkAckError (len pre) (int (ack_seqno ack)) st))
             :: drain ch)
            (Some (ErrAck (mkAckError (len pre) (int (ack_seqno ack)) st)))
            rd)
  /\ (forall p ch ack rd,
        Forall (fun x => x = Status_SUCCESS) (ack_reply ack) ->
        int (ack_seqno ack) = heartBeatSeqno ->
        head (events (ackPackets (p :: ch) rd)) = Some (Dequeued p)
        /\ ackPackets (p :: ch) (ReadAck ack :: rd)
           = mkAckerRun
               (Dequeued p :: SocketRead (ReadAck ack)
                :: tail (events (ackPackets (p :: ch) rd)))
               (latched (ackPackets (p :: ch) rd))
               (unread (ackPackets (p :: ch) rd)))
  /\ (forall p ch ack rd,
        Forall (fun x => x = Status_SUCCESS) (ack_reply ack) ->
        int (ack_seqno ack) <> heartBeatSeqno ->
        int (ack_seqno ack) <> p_seqno p ->
        ackPackets (p :: ch) (ReadAck ack :: rd)
        = mkAckerRun
            (Dequeued p :: SocketRead (ReadAck ack)
             :: Latched ErrInvalidSeqno :: drain ch)
            (Some ErrInvalidSeqno) rd)
  /\ (forall p ch ack rd,
        Forall (fun x => x = Status_SUCCESS) (ack_reply ack) ->
        int (ack_seqno ack) <> heartBeatSeqno ->
        int (ack_seqno ack) = p_seqno p ->
        ackPackets (p :: ch) (ReadAck ack :: rd)
        = mkAckerRun
            (Dequeued p :: SocketRead (ReadAck ack)
             :: events (ackPackets ch rd))
            (latched (ackPackets ch rd))
            (unread (ackPackets ch rd)))
  /\ (forall ch rd,
        match latched (ackPackets ch rd) with
        | None => Forall notLatched (events (ackPackets ch rd))
        | Some e =>
            exists pre done rest,
              events (ackPackets ch rd)
              = pre ++ Latched e :: map Dequeued rest ++ [ChannelClosed]
              /\ Forall notLatched pre
              /\ ch = done ++ rest
        end).
Proof.
  split; [|split; [|split; [|split; [|split]]]].
  - intros p ch e rd. reflexivity.
  - intros p ch ack rd pre st post E Hpre Hst.
    cbn [ackPackets readAcks ackOnce].
    rewrite (firstFailure_found _ 0 pre st post E Hpre Hst).
    rewrite Z.add_0_l. reflexivity.
  - intros p ch ack rd Hall Hhb. split; [apply ackPackets_head|].
    cbn [ackPackets readAcks ackOnce].
    rewrite (firstFailure_none _ 0 Hall).
    destruct (decide (int (ack_seqno ack) <> heartBeatSeqno)); [congruence|].
    destruct (readAcks rd) as [[evs exit] rest].
    destruct exit as [e|seqno]; [reflexivity|].
    destruct (decide (seqno <> p_seqno p)); reflexivity.
  - intros p ch ack rd Hall Hhb Hne.
    cbn [ackPackets readAcks ackOnce].
    rewrite (firstFailure_none _ 0 Hall).
    destruct (decide (int (ack_seqno ack) <> heartBeatSeqno)); [|tauto].
    destruct (decide (int (ack_seqno ack) <> p_seqno p)); [|tauto].
    reflexivity.
  - intros p ch ack rd Hall Hhb Heq.
    cbn [ackPackets readAcks ackOnce].
    rewrite (firstFailure_none _ 0 Hall).
    destruct (decide (int (ack_seqno ack) <> heartBeatSeqno)); [|tauto].
    destruct (decide (int (ack_seqno ack) <> p_seqno p)); [tauto|].
    reflexivity.
  - intros ch rd. apply ackPackets_shape.
Qed.

Lemma acker_latches_first_error_witness :
  let p1 := mkPacket 1 0 false [] [] in
  let p2 := mkPacket 2 0 true [] [] in
  let ok q := ReadAck (mkAck q [0; 0; 0]) in
  ackPackets [p1; p2] [ReadAck (mkAck 1 [0; 2; 3]); ok 2]
  = mkAckerRun
      [Dequeued p1; SocketRead (ReadAck (mkAck 1 [0; 2; 3]));
       Latched (ErrAck (mkAckError 1 1 2)); Dequeued p2; ChannelClosed]
      (Some (ErrAck (mkAckError 1 1 2))) [ok 2]
  /\ ackPackets [p1; p2] [ok (-1); ok 1; ok 2]
     = mkAckerRun
         (Dequeued p1 :: SocketRead (ok (-1))
          :: tail (events (ackPackets [p1; p2] [ok 1; ok 2])))
         None []
  /\ ackPackets [p1; p2] [ok 2; ok 1]
     = mkAckerRun
         [Dequeued p1; SocketRead (ok 2); Latched ErrInvalidSeqno;
          Dequeued p2; ChannelClosed]
         (Some ErrInvalidSeqno) [ok 1]
  /\ ackPackets [p1; p2] [ok 1; ok 2]
     = mkAckerRun
         [Dequeued p1; SocketRead (ok 1); Dequeued p2; SocketRead (ok 2);
          ChannelClosed]
         None [].
Proof.
  intros p1 p2 ok.
  destruct acker_latches_first_error as (_ & Hst & Hhb & Hne & Heq & _).
  split; [|split; [|split]].
  - apply (Hst p1 [p2] (mkAck 1 [0; 2; 3]) [ok 2] [0] 2 [3]).
    + reflexivity.
    + repeat constructor.
    + discriminate.
  - apply (Hhb p1 [p2] (mkAck (-1) [0; 0; 0]) [ok 1; ok 2]).
    + repeat constructor.
    + reflexivity.
  - apply (Hne p1 [p2] (mkAck 2 [0; 0; 0]) [ok 1]).
    + repeat constructor.
    + discriminate.
    + discriminate.
  - apply (Heq p1 [p2] (mkAck 1 [0; 0; 0]) [ok 2]).
    + repeat constructor.
    + discriminate.
    + reflexivity.
Defined.

(** * Further properties of the code *)

(** ** The writer over whole runs *)

(** X1. No sequence of [Write] and [finish] calls on a new stream, with the
    acker latching and the heartbeater writing in between, panics: nothing
    is sent on a closed channel, no channel is closed twice and no slice
    index is out of range. Whether a call returns is not said: a send that
    waits for room in the channel and the wait for the acker are not
    modelled. *)
Theorem run_never_panics Marshal c start cs :
  run Marshal cs (newBlockWriteStream c start) <> Panic.
Proof.
  destruct (run_total Marshal cs (newBlockWriteStream c start))
    as (rs & s & Hrun); [apply new_channelsOpen|].
  rewrite Hrun. discriminate.
Qed.

(** X2. At every point of a run, the bytes accepted by [Write] so far are
    the data of the data packets emitted so far, in order, followed by the
    bytes still in the buffer: nothing is dropped, repeated or reordered,
    also after socket write errors and without [finish]. *)
Theorem accepted_bytes_packed_or_buffered Marshal c start cs rs s :
  run Marshal cs (newBlockWriteStream c start) = Done (rs, s) ->
  dataOf (dataPackets (emitted s)) ++ buf s = accepted rs.
Proof.
  intros Hrun.
  apply (run_bytes Marshal cs _ _ _ (new_channelsOpen c start)) in Hrun.
  exact Hrun.
Qed.

Lemma accepted_bytes_packed_or_buffered_witness :
  exists rs s,
    run fixedMarshal [CallWrite [x41; x42]; CallWrite [x43]]
        (newBlockWriteStream (mkConn [] []) 0) = Done (rs, s)
    /\ dataOf (dataPackets (emitted s)) ++ buf s = accepted rs
    /\ buf s = [x41; x42; x43].
Proof.
  eexists _, _.
  split; [vm_compute; reflexivity|].
  split; [|vm_compute; reflexivity].
  eapply (accepted_bytes_packed_or_buffered fixedMarshal (mkConn [] []) 0
            [CallWrite [x41; x42]; CallWrite [x43]]).
  vm_compute. reflexivity.
Defined.

(** X3. The stream's counters follow the packets: at every point of a run
    [offset] is the starting offset plus the data lengths of the data
    packets emitted so far, and [seqno] is one more than their number (in
    64-bit arithmetic). *)
Theorem counters_follow_emitted Marshal c start cs rs s :
  int64 start = start ->
  run Marshal cs (newBlockWriteStream c start) = Done (rs, s) ->
  offset s = int64 (start + dataLen (dataPackets (emitted s)))
  /\ seqno s = int (1 + len (dataPackets (emitted s))).
Proof.
  intros Hstart Hrun. apply run_Inv in Hrun as [[Hchain _] _].
  apply (pchain_end _ _ _ _ _ Hstart eq_refl Hchain).
Qed.

Lemma counters_follow_emitted_witness :
  exists rs s,
    run fixedMarshal [CallWrite (replicate 30 x41); CallFinish None]
        (newBlockWriteStream (mkConn [] []) 1000) = Done (rs, s)
    /\ offset s = int64 (1000 + dataLen (dataPackets (emitted s)))
    /\ seqno s = int (1 + len (dataPackets (emitted s)))
    /\ offset s = 1030 /\ seqno s = 3.
Proof.
  eexists _, _.
  split; [vm_compute; reflexivity|].
  edestruct (counters_follow_emitted fixedMarshal (mkConn [] []) 1000
               [CallWrite (replicate 30 x41); CallFinish None]) as [H1 H2].
  - reflexivity.
  - vm_compute. reflexivity.
  - split; [exact H1|]. split; [exact H2|]. vm_compute. split; reflexivity.
Defined.

(** X4. No emitted packet carries the heartbeat seqno: while the number of
    packets is within the range of [int], every emitted packet has a seqno
    between 1 and the number of packets emitted. The starting offset is an
    [int64]. *)
Theorem seqnos_are_positive Marshal c start cs rs s p :
  int64 start = start ->
  run Marshal cs (newBlockWriteStream c start) = Done (rs, s) ->
  len (emitted s) <= maxInt64 ->
  p ∈ emitted s ->
  1 <= p_seqno p <= len (emitted s) /\ p_seqno p <> heartBeatSeqno.
Proof.
  intros Hstart Hrun Hmax Hin. apply run_Inv in Hrun as [[Hchain Hshape] _].
  unfold maxInt64 in Hmax.
  assert (Hlen : len (dataPackets (emitted s)) <= len (emitted s)).
  { destruct Hshape as [<-|[_ E]]; [lia|].
    rewrite E at 2. unfold len. rewrite length_app. lia. }
  assert (Hcase : p ∈ dataPackets (emitted s)
                  \/ (p = terminalOf s
                      /\ len (emitted s) = len (dataPackets (emitted s)) + 1)).
  { destruct Hshape as [E|[_ E]]; [left; rewrite <- E; exact Hin|].
    rewrite E in Hin. apply elem_of_app in Hin as [Hin|Hin]; [auto|].
    right. apply list_elem_of_singleton in Hin. split; [exact Hin|].
    rewrite E at 1. unfold len. rewrite length_app. cbn [length]. lia. }
  assert (H : 1 <= p_seqno p <= len (emitted s));
    [|split; [exact H|unfold heartBeatSeqno; lia]].
  destruct Hcase as [Hd|[-> Hl]].
  - apply list_elem_of_split in Hd as (pre & post & E).
    destruct (pchain_nth _ _ _ _ _ pre p post Hstart eq_refl Hchain E)
      as [Hq _].
    assert (Hpre : 0 <= len pre < len (dataPackets (emitted s))).
    { rewrite E. unfold len. rewrite length_app. cbn [length]. lia. }
    change (int (1 + len pre)) with (int64 (1 + len pre)) in Hq.
    rewrite int64_small in Hq by lia. lia.
  - destruct (pchain_end _ _ _ _ _ Hstart eq_refl Hchain) as [_ Hq].
    cbn [terminalOf p_seqno]. rewrite Hq.
    change (int ?x) with (int64 x). unfold len in *.
    rewrite int64_small by lia. lia.
Qed.

Lemma seqnos_are_positive_witness :
  exists rs s p,
    run fixedMarshal [CallWrite [x41]; CallFinish None]
        (newBlockWriteStream (mkConn [] []) 0) = Done (rs, s)
    /\ p ∈ emitted s
    /\ p_last p = true
    /\ 1 <= p_seqno p <= len (emitted s) /\ p_seqno p <> heartBeatSeqno.
Proof.
  eexists _, _, _.
  split; [vm_compute; reflexivity|].
  split; [right; left|].
  split; [reflexivity|].
  eapply (seqnos_are_positive fixedMarshal (mkConn [] []) 0
            [CallWrite [x41]; CallFinish None]).
  - reflexivity.
  - vm_compute. reflexivity.
  - vm_compute. discriminate.
  - right. left.
Defined.

(** X5. Packet sizes: every emitted data packet carries between 1 and 65536
    bytes of data and between 4 and 512 bytes of checksums; the terminal
    packet is the only emitted packet without data, and it has no
    checksums. *)
Theorem emitted_packet_sizes Marshal c start cs rs s p :
  run Marshal cs (newBlockWriteStream c start) = Done (rs, s) ->
  p ∈ emitted s ->
  (p_last p = false ->
   0 < len (p_data p) <= 65536 /\ 4 <= len (p_checksums p) <= 512)
  /\ (p_last p = true -> p_data p = [] /\ p_checksums p = []).
Proof.
  intros Hrun Hin.
  apply run_Inv in Hrun as [[Hchain Hshape] _].
  assert (Hcase : p ∈ dataPackets (emitted s) \/ p = terminalOf s).
  { destruct Hshape as [E|[_ E]]; [left; rewrite <- E; exact Hin|].
    rewrite E in Hin. apply elem_of_app in Hin as [Hin|Hin]; [auto|].
    right. apply list_elem_of_singleton in Hin. exact Hin. }
  destruct Hcase as [Hd| ->].
  - pose proof Hd as Hl. apply list_elem_of_filter in Hl as [Hl _].
    split; [intros _|congruence].
    apply pchain_checksums in Hchain. rewrite list.Forall_forall in Hchain.
    destruct (Hchain p Hd) as [Hcs Hlen]. unfold outboundPacketSize in Hlen.
    destruct (checksumsFor_spec (p_data p)) as (n & Hn & Hc & _).
    split; [exact Hlen|]. unfold len in *. rewrite Hcs, Hc. lia.
  - split; [discriminate|]. intros _. split; reflexivity.
Qed.

Lemma emitted_packet_sizes_witness :
  exists rs s p,
    run fixedMarshal [CallWrite (replicate 600 x41); CallFinish None]
        (newBlockWriteStream (mkConn [] []) 0) = Done (rs, s)
    /\ p ∈ emitted s
    /\ len (p_data p) = 600 /\ len (p_checksums p) = 8
    /\ (p_last p = false ->
        0 < len (p_data p) <= 65536 /\ 4 <= len (p_checksums p) <= 512)
    /\ (p_last p = true -> p_data p = [] /\ p_checksums p = []).
Proof.
  eexists _, _, _.
  split; [vm_compute; reflexivity|].
  split; [left|].
  split; [vm_compute; reflexivity|]. split; [vm_compute; reflexivity|].
  eapply (emitted_packet_sizes fixedMarshal (mkConn [] []) 0
            [CallWrite (replicate 600 x41); CallFinish None]).
  - vm_compute. reflexivity.
  - left.
Defined.

(** ** Shutting down and refusing *)

Section Shutdown.

Variable Marshal : PacketHeaderProto -> list byte * option error.

Lemma finishDeferred_frame late err s :
  ch_closed (packets s) = false -> ch_closed (closeCh s) = false ->
  exists err' s',
    finishDeferred late err s = Done (err', s')
    /\ conn s' = conn s /\ buf s' = buf s /\ offset s' = offset s
    /\ seqno s' = seqno s /\ closed s' = closed s
    /\ packets s' = mkChan (ch_sent (packets s)) true
    /\ closeCh s' = mkChan (ch_sent (closeCh s)) true
    /\ acksDoneWaits s' = S (acksDoneWaits s)
    /\ ackErr s' = match ackErr s with Some e => Some e | None => late end
    /\ err' = match ackErr s' with Some e => Some e | None => err end.
Proof.
  intros Hp Hc. unfold finishDeferred, chan_close.
  rewrite Hc. stream_simpl. rewrite Hp. stream_simpl.
  destruct (ackErr s) as [e|] eqn:He; stream_simpl.
  - rewrite He. eexists _, _. split; [reflexivity|].
    stream_simpl. rewrite He. repeat split.
  - destruct late as [e|]; eexists _, _; (split; [reflexivity|]);
      stream_simpl; repeat split.
Qed.

Lemma flush_nil_cond force s s' :
  flush Marshal force s = Done (None, s') -> flushCond force s' = false.
Proof.
  intros Hrun. destruct (ch_closed (packets s)) eqn:Hch.
  - unfold flush in Hrun. destruct (length (buf s)) as [|fuel];
      cbn [flushLoop] in Hrun;
      (destruct (flushCond force s) eqn:Hc;
       [|inversion Hrun; subst; exact Hc]);
      [discriminate|].
    unfold flushBody in Hrun. rewrite makePacket_eq in Hrun.
    cbn [rbind] in Hrun. unfold chan_send in Hrun.
    cbn [packets set_buf] in Hrun. rewrite Hch in Hrun. discriminate.
  - destruct (flush_spec Marshal force s Hch)
      as (err0 & s0 & ps & Hrun0 & _ & _ & _ & _ & _ & _ & Hc).
    rewrite Hrun in Hrun0. inversion Hrun0; subst. apply Hc. reflexivity.
Qed.

(** What a first [finish] does to the channels. *)
Lemma finish_frame late s err s' :
  channelsOpen s -> closed s = false ->
  finish Marshal late s = Done (err, s') ->
  ch_closed (packets s') = true /\ ch_closed (closeCh s') = true
  /\ acksDoneWaits s' = S (acksDoneWaits s)
  /\ (forall e, ackErr s = Some e ->
       err = Some e /\ conn s' = conn s /\ emitted s' = emitted s
       /\ buf s' = buf s /\ offset s' = offset s /\ seqno s' = seqno s
       /\ ackErr s' = Some e).
Proof.
  intros Hopen Hc. destruct (Hopen Hc) as [Hp Hcc].
  unfold finish. rewrite Hc. unfold finishBody. stream_simpl.
  destruct (ackErr s) as [e|] eqn:He.
  { stream_simpl.
    destruct (finishDeferred_frame late (Some e) (set_closed s true))
      as (err' & s1 & Hrun & H1 & H2 & H3 & H4 & H5 & H6 & H7 & H8 & H9 & H10);
      auto.
    rewrite Hrun. intros E. injection E as <- <-.
    stream_simpl. rewrite He in H9. rewrite H9 in H10.
    rewrite H6, H7. split; [reflexivity|]. split; [reflexivity|].
    split; [exact H8|].
    intros e' E. injection E as <-. unfold emitted. rewrite H6.
    repeat split; auto. }
  destruct (flush_spec Marshal true (set_closed s true))
    as (err1 & s1 & ps & Hrun & Hd & Hps & Hcl & He1 & Hw & Hch & Hcond);
    [exact Hp|].
  rewrite Hrun. stream_simpl.
  assert (Hno : forall e : error, None = Some e -> False) by discriminate.
  destruct err1 as [e|]; stream_simpl.
  { destruct (finishDeferred_frame late (Some e) s1)
      as (err' & s2 & Hrun' & H1 & H2 & H3 & H4 & H5 & H6 & H7 & H8 & _).
    { rewrite Hps. reflexivity. }
    { rewrite Hch. exact Hcc. }
    rewrite Hrun'. intros E. injection E as <- <-.
    rewrite H6, H7, H8, Hw. split; [reflexivity|]. split; [reflexivity|].
    split; [reflexivity|]. intros e' E; discriminate. }
  unfold chan_send. rewrite Hps. stream_simpl.
  match goal with |- context [writePacket Marshal ?s2 ?p] =>
    destruct (writePacket_conn Marshal s2 p) as (err2 & c & Hwp); rewrite Hwp
  end.
  stream_simpl.
  match goal with |- context [finishDeferred late err2 ?s3] =>
    destruct (finishDeferred_frame late err2 s3)
      as (err' & s4 & Hrun' & H1 & H2 & H3 & H4 & H5 & H6 & H7 & H8 & _)
  end.
  { reflexivity. }
  { stream_simpl. rewrite Hch. exact Hcc. }
  rewrite Hrun'. intros E. injection E as <- <-.
  stream_simpl. rewrite H6, H7, H8, Hw. split; [reflexivity|].
  split; [reflexivity|]. split; [reflexivity|]. intros e' E; discriminate.
Qed.

End Shutdown.

(** X6. A stream that has been finished is inert: whatever is called on it
    afterwards, every [Write] returns 0 and the closed-pipe error, every
    [finish] returns [nil], and the buffer, the counters, both channels and
    the wait on the acker stay as they are. *)
Theorem closed_stream_is_inert Marshal cs : forall s rs s',
  closed s = true ->
  run Marshal cs s = Done (rs, s') ->
  writerState s' = writerState s
  /\ Forall (fun r => match r with
                      | RetWrite _ n err => n = 0 /\ err = Some ErrClosedPipe
                      | RetFinish err => err = None
                      | RetEnv => True
                      end) rs.
Proof.
  induction cs as [|c cs IH]; intros s rs s' Hc Hrun.
  - cbn in Hrun. injection Hrun as <- <-. split; [reflexivity|constructor].
  - cbn [run] in Hrun.
    assert (Hstep : exists r s1,
              step Marshal c s = Done (r, s1)
              /\ writerState s1 = writerState s
              /\ match r with
                 | RetWrite _ n err => n = 0 /\ err = Some ErrClosedPipe
                 | RetFinish err => err = None
                 | RetEnv => True
                 end).
    { destruct c as [b|late|e|]; cbn [step].
      - unfold Write. rewrite Hc. cbn [rbind]. eexists _, _.
        split; [reflexivity|]. split; [reflexivity|]. split; reflexivity.
      - unfold finish. rewrite Hc. cbn [rbind]. eexists _, _.
        split; [reflexivity|]. split; reflexivity.
      - eexists _, _. split; [reflexivity|]. split; [|exact I].
        unfold ackerLatches. destruct (ackErr s); reflexivity.
      - destruct (writeHeartBeatPacket_conn Marshal s) as (err & c & Hw).
        rewrite Hw. cbn [rbind]. eexists _, _. split; [reflexivity|].
        split; [reflexivity|exact I]. }
    destruct Hstep as (r & s1 & Hs & Hw & Hr). rewrite Hs in Hrun.
    cbn [rbind] in Hrun.
    destruct (run Marshal cs s1) as [[rs1 s2]| |] eqn:Hrun1; try discriminate.
    cbn [rbind] in Hrun. injection Hrun as <- <-.
    assert (Hc1 : closed s1 = true).
    { apply (f_equal (fun t => t.1.1.1.1.2)) in Hw. cbn in Hw. congruence. }
    destruct (IH _ _ _ Hc1 Hrun1) as [Hw' Hrs].
    split; [congruence|]. constructor; assumption.
Qed.

Lemma closed_stream_is_inert_witness :
  exists rs s0 rs' s',
    run fixedMarshal [CallWrite [x41; x42]; CallFinish None]
        (newBlockWriteStream (mkConn [] []) 0) = Done (rs, s0)
    /\ run fixedMarshal [CallWrite [x43]; CallFinish (Some EOF); HeartBeat] s0
       = Done (rs', s')
    /\ rs' = [RetWrite [x43] 0 (Some ErrClosedPipe); RetFinish None; RetEnv]
    /\ writerState s' = writerState s0.
Proof.
  eexists _, _, _, _.
  split; [vm_compute; reflexivity|].
  split; [vm_compute; reflexivity|].
  split; [reflexivity|].
  eapply (closed_stream_is_inert fixedMarshal
            [CallWrite [x43]; CallFinish (Some EOF); HeartBeat]).
  - reflexivity.
  - vm_compute. reflexivity.
Defined.

(** X7. Once the acker has latched an error, the writer hands nothing more
    to the channel or the socket: through any later [Write] and [finish]
    calls the emitted packets, the connection, the buffer and the counters
    stay as they are, every [Write] returns 0 with an error, and the error
    stays latched. *)
Theorem latched_error_stops_the_writer Marshal e cs : forall s rs s',
  ackErr s = Some e ->
  channelsOpen s ->
  Forall (fun c => c <> HeartBeat) cs ->
  run Marshal cs s = Done (rs, s') ->
  emitted s' = emitted s /\ conn s' = conn s /\ buf s' = buf s
  /\ offset s' = offset s /\ seqno s' = seqno s /\ ackErr s' = Some e
  /\ Forall refused rs.
Proof.
  induction cs as [|c cs IH]; intros s rs s' He Hopen Hnh Hrun.
  - cbn in Hrun. injection Hrun as <- <-. repeat split; auto.
  - cbn [run] in Hrun. inversion Hnh as [|? ? Hc Hnh']; subst.
    assert (Hstep : exists r s1,
              step Marshal c s = Done (r, s1)
              /\ emitted s1 = emitted s /\ conn s1 = conn s /\ buf s1 = buf s
              /\ offset s1 = offset s /\ seqno s1 = seqno s
              /\ ackErr s1 = Some e /\ channelsOpen s1 /\ refused r).
    { destruct c as [b|late|e'|]; cbn [step]; [| | |congruence].
      - unfold Write. rewrite He.
        destruct (closed s); cbn [rbind]; eexists _, _;
          (split; [reflexivity|]);
          do 5 (split; [reflexivity|]);
          (split; [exact He|]); (split; [exact Hopen|]);
          (split; [reflexivity|discriminate]).
      - destruct (closed s) eqn:Hcl.
        + unfold finish. rewrite Hcl. cbn [rbind]. eexists _, _.
          split; [reflexivity|]. do 5 (split; [reflexivity|]).
          split; [exact He|]. split; [exact Hopen|exact I].
        + destruct (finish_effect Marshal late s Hopen)
            as (err & s1 & Hf & _ & Ho).
          rewrite Hf. cbn [rbind].
          destruct (finish_frame Marshal late s err s1 Hopen Hcl Hf)
            as (_ & _ & _ & Hl).
          destruct (Hl e He) as (_ & H2 & H3 & H4 & H5 & H6 & H7).
          eexists _, _. split; [reflexivity|].
          split; [exact H3|]. split; [exact H2|]. split; [exact H4|].
          split; [exact H5|]. split; [exact H6|]. split; [exact H7|].
          split; [exact Ho|exact I].
      - eexists _, _. split; [reflexivity|].
        unfold ackerLatches. rewrite He. do 5 (split; [reflexivity|]).
        split; [exact He|]. split; [exact Hopen|exact I]. }
    destruct Hstep as (r & s1 & Hs & H1 & H2 & H3 & H4 & H5 & H6 & H7 & H8).
    rewrite Hs in Hrun. cbn [rbind] in Hrun.
    destruct (run Marshal cs s1) as [[rs1 s2]| |] eqn:Hrun1; try discriminate.
    cbn [rbind] in Hrun. injection Hrun as <- <-.
    destruct (IH _ _ _ H6 H7 Hnh' Hrun1)
      as (I1 & I2 & I3 & I4 & I5 & I6 & I7).
    repeat split; try congruence. constructor; assumption.
Qed.

Lemma latched_error_stops_the_writer_witness :
  let s := ackerLatches (ErrIO 9)
             (set_buf (newBlockWriteStream (mkConn [] []) 0) [x41; x42]) in
  exists rs s',
    run fixedMarshal [CallWrite [x43]; CallFinish None; CallWrite [x44]] s
    = Done (rs, s')
    /\ rs = [RetWrite [x43] 0 (Some (ErrIO 9)); RetFinish (Some (ErrIO 9));
             RetWrite [x44] 0 (Some ErrClosedPipe)]
    /\ emitted s' = emitted s /\ conn s' = conn s /\ buf s' = buf s
    /\ offset s' = offset s /\ seqno s' = seqno s
    /\ ackErr s' = Some (ErrIO 9)
    /\ Forall refused rs.
Proof.
  intros s. eexists _, _.
  split; [vm_compute; reflexivity|].
  split; [reflexivity|].
  eapply (latched_error_stops_the_writer fixedMarshal (ErrIO 9)
            [CallWrite [x43]; CallFinish None; CallWrite [x44]] s).
  - reflexivity.
  - intros _. split; reflexivity.
  - repeat constructor; discriminate.
  - vm_compute. reflexivity.
Defined.

(** X8. Over any run on a new stream both channels are closed exactly when
    [finish] has been called, and the acker has been waited for once then
    and not at all before: a later [finish] closes and waits for nothing. *)
Theorem channels_close_once Marshal c start cs rs s :
  run Marshal cs (newBlockWriteStream c start) = Done (rs, s) ->
  ch_closed (packets s) = closed s
  /\ ch_closed (closeCh s) = closed s
  /\ acksDoneWaits s = (if closed s then 1 else 0)%nat.
Proof.
  set (P := fun s : blockWriteStream =>
              ch_closed (packets s) = closed s
              /\ ch_closed (closeCh s) = closed s
              /\ acksDoneWaits s = (if closed s then 1 else 0)%nat).
  change (run Marshal cs (newBlockWriteStream c start) = Done (rs, s) -> P s).
  assert (Hgen : forall cs s0 rs s,
            channelsOpen s0 -> P s0 -> run Marshal cs s0 = Done (rs, s) -> P s).
  { clear. intros cs. induction cs as [|c cs IH]; intros s0 rs s Hopen HP Hrun.
    - cbn in Hrun. injection Hrun as <- <-. exact HP.
    - apply run_cons_inv in Hrun
        as (r & s1 & rs1 & -> & Hs & _ & Ho & Hrun); [|exact Hopen].
      apply (IH s1 rs1 s Ho); [|exact Hrun]. clear IH Hrun.
      destruct HP as (P1 & P2 & P3).
      destruct c as [b|late|e|]; cbn [step] in Hs.
      + unfold Write in Hs. destruct (closed s0) eqn:Hc.
        { cbn [rbind] in Hs. injection Hs as <- <-.
          unfold P. rewrite Hc. auto. }
        destruct (ackErr s0).
        { cbn [rbind] in Hs. injection Hs as <- <-.
          unfold P. rewrite Hc. auto. }
        destruct (Hopen Hc) as [Hp Hcc].
        destruct (flush_spec Marshal false (set_buf s0 (buf s0 ++ b)) Hp)
          as (err & s2 & ps & Hrun & _ & Hps & Hcl & _ & Hw & Hch & _).
        rewrite Hrun in Hs. cbn [rbind] in Hs. injection Hs as <- <-.
        stream_simpl. unfold P. rewrite Hps, Hcl, Hch, Hw, Hc, P3, Hcc.
        auto.
      + destruct (closed s0) eqn:Hc.
        { unfold finish in Hs. rewrite Hc in Hs. cbn [rbind] in Hs.
          injection Hs as <- <-. unfold P. rewrite Hc. auto. }
        destruct (finish Marshal late s0) as [[err s2]| |] eqn:Hf;
          cbn [rbind] in Hs; try discriminate.
        injection Hs as <- <-.
        destruct (finish_frame Marshal late s0 err s2 Hopen Hc Hf)
          as (F1 & F2 & F3 & _).
        apply finish_closes in Hf. unfold P.
        rewrite F1, F2, F3, Hf, P3. auto.
      + injection Hs as <- <-. unfold ackerLatches.
        destruct (ackErr s0); unfold P; auto.
      + destruct (writeHeartBeatPacket_conn Marshal s0) as (err & c & Hw).
        rewrite Hw in Hs. cbn [rbind] in Hs. injection Hs as <- <-.
        unfold P. auto. }
  apply Hgen; [apply new_channelsOpen|]. unfold P. cbn. auto.
Qed.

Lemma channels_close_once_witness :
  exists rs s,
    run fixedMarshal [CallWrite [x41]; CallFinish None; CallFinish None]
        (newBlockWriteStream (mkConn [] []) 0) = Done (rs, s)
    /\ closed s = true
    /\ ch_closed (packets s) = closed s
    /\ ch_closed (closeCh s) = closed s
    /\ acksDoneWaits s = (if closed s then 1 else 0)%nat.
Proof.
  eexists _, _.
  split; [vm_compute; reflexivity|].
  split; [reflexivity|].
  eapply (channels_close_once fixedMarshal (mkConn [] []) 0
            [CallWrite [x41]; CallFinish None; CallFinish None]).
  vm_compute. reflexivity.
Defined.

(** X9. A [Write] that leaves fewer than 65536 bytes buffered only buffers:
    on an open stream without a latched error it returns the input length
    and [nil], appends the input to the buffer, and emits and writes
    nothing. *)
Theorem small_Write_only_buffers Marshal b s :
  closed s = false ->
  ackErr s = None ->
  len (buf s) + len b < outboundPacketSize ->
  Write Marshal b s = Done (len b, None, set_buf s (buf s ++ b)).
Proof.
  intros Hc He Hlen. unfold Write. rewrite Hc, He. unfold flush.
  assert (Hcond : flushCond false (set_buf s (buf s ++ b)) = false).
  { unfold flushCond. cbn [buf set_buf orb]. unfold len in *.
    rewrite length_app. apply andb_false_iff. right.
    apply Z.leb_gt. unfold outboundPacketSize in *. lia. }
  destruct (length (buf (set_buf s (buf s ++ b)))); cbn [flushLoop];
    rewrite Hcond; reflexivity.
Qed.

Lemma small_Write_only_buffers_witness :
  let s := set_buf (newBlockWriteStream (mkConn [] []) 0) [x41] in
  Write fixedMarshal [x42; x43] s
  = Done (len [x42; x43], None, set_buf s (buf s ++ [x42; x43])).
Proof.
  intros s. apply (small_Write_only_buffers fixedMarshal [x42; x43] s).
  - reflexivity.
  - reflexivity.
  - vm_compute. reflexivity.
Defined.

(** X10. After a [Write] that returns no error, fewer than 65536 bytes are
    left in the buffer: every full packet's worth has been cut off. *)
Theorem Write_leaves_less_than_a_packet Marshal b s n s' :
  Write Marshal b s = Done (n, None, s') ->
  len (buf s') < outboundPacketSize.
Proof.
  unfold Write. destruct (closed s); [discriminate|].
  destruct (ackErr s); [discriminate|].
  destruct (flush Marshal false _) as [[err s1]| |] eqn:Hf; cbn [rbind];
    try discriminate.
  intros E. injection E as _ -> <-.
  apply flush_nil_cond in Hf. unfold flushCond in Hf. cbn [orb] in Hf.
  apply andb_false_iff in Hf as [Hf|Hf]; unfold outboundPacketSize in *; lia.
Qed.

Lemma Write_leaves_less_than_a_packet_witness :
  exists s',
    Write fixedMarshal [x42; x43]
          (set_buf (newBlockWriteStream (mkConn [] []) 0) [x41])
    = Done (2, None, s')
    /\ len (buf s') < outboundPacketSize.
Proof.
  eexists. split; [vm_compute; reflexivity|].
  eapply (Write_leaves_less_than_a_packet fixedMarshal [x42; x43]
            (set_buf (newBlockWriteStream (mkConn [] []) 0) [x41])).
  vm_compute. reflexivity.
Defined.

(** ** Cutting packets *)

(** X11. [makePacket] never panics: the slice bounds of its checksum loop
    are always in range. It cuts a prefix of at most 65536 bytes off the
    buffer, non-empty when the buffer is, stamps it with the stream's seqno
    and offset, and changes nothing but the buffer. *)
Theorem makePacket_cuts_a_prefix s :
  exists p s',
    makePacket s = Done (p, s')
    /\ p_data p ++ buf s' = buf s
    /\ s' = set_buf s (buf s')
    /\ p_seqno p = seqno s /\ p_offset p = offset s /\ p_last p = false
    /\ len (p_data p) <= outboundPacketSize
    /\ (buf s <> [] -> 0 < len (p_data p)).
Proof.
  eexists _, _. split; [apply makePacket_eq|].
  cbn [buf set_buf]. split; [apply packetAt_take_drop|].
  split; [reflexivity|]. do 3 (split; [reflexivity|]).
  rewrite packetAt_data_length.
  destruct (packetLengthOf_bounds (len (buf s)) (offset s)) as (_ & H1 & H2);
    [unfold len; lia|].
  split; [exact H1|]. intros Hne. apply H2.
  unfold len. destruct (buf s); [congruence|cbn [length]; lia].
Qed.

(** X12. A partial chunk goes into a packet of its own: when the offset is
    not a multiple of 512, the packet [makePacket] cuts ends at or before
    the next multiple of 512 and has exactly one checksum. The offset is a
    non-negative [int64] and the buffer is not empty. *)
Theorem partial_chunk_gets_its_own_packet s p s' :
  0 <= offset s <= maxInt64 ->
  offset s mod 512 <> 0 ->
  buf s <> [] ->
  makePacket s = Done (p, s') ->
  0 < len (p_data p) <= 512 - offset s mod 512
  /\ length (p_checksums p) = 4%nat
  /\ (len (buf s) >= 512 - offset s mod 512 ->
      (offset s + len (p_data p)) mod 512 = 0).
Proof.
  intros Hoff Hmis Hne Hmk. rewrite makePacket_eq in Hmk.
  injection Hmk as <- <-.
  assert (Hpos : 0 < len (buf s)).
  { unfold len. destruct (buf s); [congruence|cbn [length]; lia]. }
  pose proof (packetAt_data_length (buf s) (offset s) (seqno s)) as Hlen.
  rewrite packetLengthOf_spec in Hlen by exact Hoff.
  pose proof (Z.mod_pos_bound (offset s) 512 ltac:(lia)) as Hmod.
  assert (HL : 0 < len (p_data (packetAt (buf s) (offset s) (seqno s)))
               <= 512 - offset s mod 512
               /\ (len (buf s) >= 512 - offset s mod 512 ->
                   len (p_data (packetAt (buf s) (offset s) (seqno s)))
                   = 512 - offset s mod 512)).
  { rewrite Hlen. unfold spec_packet_length. case_decide; lia. }
  destruct HL as [HL Hfull]. split; [exact HL|]. split.
  - cbn [packetAt p_checksums].
    destruct (checksumsFor_spec
                (take (Z.to_nat (packetLengthOf (len (buf s)) (offset s)))
                      (buf s))) as (n & Hn & Hc & _).
    cbn [packetAt p_data] in HL. unfold len in *. rewrite Hc. lia.
  - intros Hge. rewrite (Hfull Hge).
    rewrite <- Zplus_mod_idemp_l.
    replace (offset s mod 512 + (512 - offset s mod 512)) with (1 * 512)
      by lia.
    apply Z.mod_mul. lia.
Qed.

Lemma partial_chunk_gets_its_own_packet_witness :
  let s := set_buf (newBlockWriteStream (mkConn [] []) 1000)
                   (replicate 30 x41) in
  exists p s',
    makePacket s = Done (p, s')
    /\ len (p_data p) = 24
    /\ 0 < len (p_data p) <= 512 - offset s mod 512
    /\ length (p_checksums p) = 4%nat
    /\ (len (buf s) >= 512 - offset s mod 512 ->
        (offset s + len (p_data p)) mod 512 = 0).
Proof.
  intros s. eexists _, _.
  split; [vm_compute; reflexivity|].
  split; [vm_compute; reflexivity|].
  eapply (partial_chunk_gets_its_own_packet s).
  - vm_compute. split; discriminate.
  - vm_compute. discriminate.
  - discriminate.
  - vm_compute. reflexivity.
Defined.

(** X13. A full packet: at an offset that is a multiple of 512, with at
    least 65536 bytes buffered, [makePacket] cuts exactly 65536 bytes with
    128 checksums (512 bytes), and the next offset is again a multiple of
    512. *)
Theorem full_packet_has_128_checksums s p s' :
  0 <= offset s <= maxInt64 ->
  offset s mod 512 = 0 ->
  outboundPacketSize <= len (buf s) ->
  makePacket s = Done (p, s') ->
  len (p_data p) = 65536
  /\ length (p_checksums p) = 512%nat
  /\ len (buf s') = len (buf s) - 65536
  /\ (offset s + len (p_data p)) mod 512 = 0.
Proof.
  intros Hoff Hal Hbuf Hmk. rewrite makePacket_eq in Hmk.
  injection Hmk as <- <-. unfold outboundPacketSize in Hbuf.
  pose proof (packetAt_data_length (buf s) (offset s) (seqno s)) as Hlen.
  rewrite packetLengthOf_spec in Hlen by exact Hoff.
  assert (HL : len (p_data (packetAt (buf s) (offset s) (seqno s))) = 65536).
  { rewrite Hlen. unfold spec_packet_length. case_decide; lia. }
  split; [exact HL|]. split; [|split].
  - cbn [packetAt p_checksums].
    destruct (checksumsFor_spec
                (take (Z.to_nat (packetLengthOf (len (buf s)) (offset s)))
                      (buf s))) as (n & Hn & Hc & _).
    cbn [packetAt p_data] in HL. unfold len in *. rewrite Hc. lia.
  - cbn [buf set_buf packetAt p_data] in *. unfold len in *.
    rewrite length_drop. lia.
  - rewrite HL, <- Zplus_mod_idemp_l, Hal. reflexivity.
Qed.

Lemma full_packet_has_128_checksums_witness :
  let s := set_buf (newBlockWriteStream (mkConn [] []) 1024)
                   (replicate (Z.to_nat 65536) x41 ++ [x42]) in
  exists p s',
    makePacket s = Done (p, s')
    /\ len (p_data p) = 65536
    /\ length (p_checksums p) = 512%nat
    /\ len (buf s') = len (buf s) - 65536
    /\ (offset s + len (p_data p)) mod 512 = 0.
Proof.
  intros s. eexists _, _. split; [apply makePacket_eq|].
  eapply (full_packet_has_128_checksums s); [| | |apply makePacket_eq].
  - vm_compute. split; discriminate.
  - reflexivity.
  - unfold s, len. cbn [buf set_buf]. rewrite length_app, length_replicate.
    unfold outboundPacketSize. cbn [length]. lia.
Defined.

(** ** Frames on the socket *)

Lemma conn_Write_ok c b c' :
  conn_Write c b = (None, c') ->
  written c' = written c ++ [b] /\ faults c' = tail (faults c).
Proof.
  unfold conn_Write. destruct (faults c) as [|[e|] rest]; intros E;
    inversion E; split; reflexivity.
Qed.

Lemma conn_Write_err c b e c' :
  conn_Write c b = (Some e, c') ->
  written c' = written c /\ faults c = Some e :: faults c'.
Proof.
  unfold conn_Write. destruct (faults c) as [|[e0|] rest]; intros E;
    inversion E; split; reflexivity.
Qed.

(** X14. [writePacket] writes the frame's three slices in order and stops
    at the first failing write: on success the connection has received
    exactly the header, the checksums and the data; on an error it has
    received only the slices before the failing write, none at all when the
    header cannot be encoded. Nothing but the connection changes. *)
Theorem writePacket_writes_a_prefix_of_the_frame Marshal s p err s' :
  writePacket Marshal s p = Done (err, s') ->
  s' = set_conn s (conn s')
  /\ exists k : nat,
       written (conn s') = written (conn s) ++ take k (frameOf Marshal p)
       /\ (err = None -> k = 3%nat /\ length (frameOf Marshal p) = 3%nat)
       /\ (err <> None -> (k < 3)%nat).
Proof.
  unfold writePacket, frameOf, headerOf.
  destruct (Marshal _) as [info [e|]].
  { intros E. injection E as <- <-. rewrite set_conn_same.
    split; [reflexivity|]. exists 0%nat. cbn [take]. rewrite app_nil_r.
    split; [reflexivity|]. split; [discriminate|lia]. }
  rewrite frameHeader_eq. cbn [rbind].
  destruct (conn_Write (conn s) _) as [[e|] c1] eqn:E1.
  { intros E. injection E as <- <-. apply conn_Write_err in E1 as [E1 _].
    split; [reflexivity|]. exists 0%nat. cbn [conn set_conn take].
    rewrite app_nil_r. split; [exact E1|]. split; [discriminate|lia]. }
  destruct (conn_Write c1 _) as [[e|] c2] eqn:E2.
  { intros E. injection E as <- <-. apply conn_Write_err in E2 as [E2 _].
    apply conn_Write_ok in E1 as [E1 _].
    split; [reflexivity|]. exists 1%nat. cbn [conn set_conn take].
    split; [congruence|]. split; [discriminate|lia]. }
  destruct (conn_Write c2 _) as [[e|] c3] eqn:E3.
  { intros E. injection E as <- <-. apply conn_Write_err in E3 as [E3 _].
    apply conn_Write_ok in E1 as [E1 _]. apply conn_Write_ok in E2 as [E2 _].
    split; [reflexivity|]. exists 2%nat. cbn [conn set_conn take].
    split; [|split; [discriminate|lia]].
    rewrite E3, E2, E1, <- app_assoc. reflexivity. }
  intros E. injection E as <- <-.
  apply conn_Write_ok in E1 as [E1 _]. apply conn_Write_ok in E2 as [E2 _].
  apply conn_Write_ok in E3 as [E3 _].
  split; [reflexivity|]. exists 3%nat. cbn [conn set_conn take].
  split; [|split; [auto|congruence]].
  rewrite E3, E2, E1, <- !app_assoc. reflexivity.
Qed.

Lemma writePacket_writes_a_prefix_of_the_frame_witness :
  let s := newBlockWriteStream (mkConn [] [None; Some (ErrIO 3)]) 0 in
  let p := mkPacket 1 0 false [x00; x01; x02; x03] [x41; x42; x43] in
  exists s',
    writePacket fixedMarshal s p = Done (Some (ErrIO 3), s')
    /\ length (written (conn s')) = 1%nat
    /\ s' = set_conn s (conn s')
    /\ exists k : nat,
         written (conn s') = written (conn s) ++ take k (frameOf fixedMarshal p)
         /\ (Some (ErrIO 3) = None ->
             k = 3%nat /\ length (frameOf fixedMarshal p) = 3%nat)
         /\ (Some (ErrIO 3) <> None -> (k < 3)%nat).
Proof.
  intros s p. eexists.
  split; [vm_compute; reflexivity|]. split; [reflexivity|].
  eapply (writePacket_writes_a_prefix_of_the_frame fixedMarshal s p).
  vm_compute. reflexivity.
Defined.

Section Wire.

Variable Marshal : PacketHeaderProto -> list byte * option error.

Hypothesis Marshal_ok : forall h, (Marshal h).2 = None.

Lemma writePacket_clean s p :
  faults (conn s) = [] ->
  writePacket Marshal s p
  = Done (None, set_conn s (mkConn (written (conn s) ++ frameOf Marshal p) [])).
Proof.
  intros Hf. unfold writePacket, frameOf, headerOf.
  pose proof (Marshal_ok (mkHeader (p_offset p) (int64 (p_seqno p)) (p_last p)
                                   (int32 (len (p_data p))))) as Hm.
  destruct (Marshal _) as [info [e|]]; [discriminate|].
  rewrite frameHeader_eq. cbn [rbind]. unfold conn_Write.
  rewrite Hf. cbn [faults written]. rewrite <- !app_assoc. reflexivity.
Qed.

Lemma flushLoop_clean fuel : forall force s,
  faults (conn s) = [] ->
  (length (buf s) <= fuel)%nat ->
  ch_closed (packets s) = false ->
  exists s' ps,
    flushLoop Marshal fuel force s = Done (None, s')
    /\ packets s' = mkChan (ch_sent (packets s) ++ ps) false
    /\ written (conn s')
       = written (conn s) ++ concat (map (frameOf Marshal) ps)
    /\ faults (conn s') = [].
Proof.
  induction fuel as [|fuel IH]; intros force s Hf Hfuel Hopen.
  - exists s, []. cbn [flushLoop].
    assert (Hc : flushCond force s = false).
    { unfold flushCond, len. destruct (0 <? _) eqn:E; [lia|reflexivity]. }
    rewrite Hc.
    split; [reflexivity|]. split; [apply chan_open_eta; exact Hopen|].
    split; [cbn [map concat]; rewrite app_nil_r; reflexivity|exact Hf].
  - cbn [flushLoop]. destruct (flushCond force s) eqn:Hc.
    2:{ exists s, [].
        split; [reflexivity|]. split; [apply chan_open_eta; exact Hopen|].
        split; [cbn [map concat]; rewrite app_nil_r; reflexivity|exact Hf]. }
    unfold flushBody. rewrite makePacket_eq. cbn [rbind].
    set (p := packetAt (buf s) (offset s) (seqno s)).
    unfold chan_send. cbn [packets set_buf]. rewrite Hopen. cbn [rbind].
    rewrite writePacket_clean by exact Hf. cbn [rbind].
    pose proof (packetAt_data_length (buf s) (offset s) (seqno s)) as Hlen.
    fold p in Hlen.
    assert (Hpos : 0 < len (buf s)).
    { unfold flushCond in Hc. apply andb_prop in Hc as [H1 _]. lia. }
    destruct (packetLengthOf_bounds (len (buf s)) (offset s)) as (_ & _ & Hpl);
      [lia|]. specialize (Hpl Hpos).
    match goal with |- context [flushLoop Marshal fuel force ?s4] =>
      destruct (IH force s4) as (s' & ps & Hrun & Hp & Hw & Hf')
    end.
    + reflexivity.
    + cbn [buf set_buf set_conn set_seqno set_offset set_packets].
      rewrite length_drop. unfold len in *. lia.
    + reflexivity.
    + exists s', (p :: ps). split; [exact Hrun|].
      stream_simpl. cbn [written] in Hw.
      split; [rewrite Hp, <- app_assoc; reflexivity|].
      split; [|exact Hf'].
      rewrite Hw. cbn [map concat]. rewrite <- app_assoc. reflexivity.
Qed.

End Wire.

Lemma frames_app Marshal ps qs :
  concat (map (frameOf Marshal) (ps ++ qs))
  = concat (map (frameOf Marshal) ps) ++ concat (map (frameOf Marshal) qs).
Proof. rewrite map_app, concat_app. reflexivity. Qed.

Lemma step_wire Marshal c s r s1 :
  (forall h, (Marshal h).2 = None) ->
  c <> HeartBeat ->
  channelsOpen s ->
  faults (conn s) = [] ->
  written (conn s) = concat (map (frameOf Marshal) (emitted s)) ->
  step Marshal c s = Done (r, s1) ->
  faults (conn s1) = []
  /\ written (conn s1) = concat (map (frameOf Marshal) (emitted s1)).
Proof.
  intros Hok Hc Hopen Hf Hw Hs.
  destruct c as [b|late|e|]; cbn [step] in Hs; [| | |congruence].
  - unfold Write in Hs. destruct (closed s) eqn:Hcl.
    { cbn [rbind] in Hs. injection Hs as <- <-. auto. }
    destruct (ackErr s).
    { cbn [rbind] in Hs. injection Hs as <- <-. auto. }
    destruct (Hopen Hcl) as [Hp _].
    destruct (flushLoop_clean Marshal Hok
                (length (buf (set_buf s (buf s ++ b)))) false
                (set_buf s (buf s ++ b)) Hf (Nat.le_refl _) Hp)
      as (s' & ps & Hrun & Hps & Hw' & Hf').
    unfold flush in Hs. rewrite Hrun in Hs. cbn [rbind] in Hs.
    injection Hs as <- <-. split; [exact Hf'|].
    unfold emitted in *. rewrite Hps, Hw'. stream_simpl.
    rewrite Hw, frames_app. reflexivity.
  - destruct (finish Marshal late s) as [[err s2]| |] eqn:Hfin;
      cbn [rbind] in Hs; try discriminate.
    injection Hs as <- <-.
    destruct (closed s) eqn:Hcl.
    { unfold finish in Hfin. rewrite Hcl in Hfin. injection Hfin as <- <-.
      auto. }
    destruct (ackErr s) as [e|] eqn:He.
    { destruct (finish_frame Marshal late s err s2 Hopen Hcl Hfin)
        as (_ & _ & _ & Hl).
      destruct (Hl e He) as (_ & H2 & H3 & _).
      rewrite H2, H3. auto. }
    destruct (Hopen Hcl) as [Hp Hcc].
    unfold finish in Hfin. rewrite Hcl in Hfin. unfold finishBody in Hfin.
    stream_simpl. rewrite He in Hfin.
    destruct (flushLoop_clean Marshal Hok
                (length (buf (set_closed s true))) true
                (set_closed s true) Hf (Nat.le_refl _) Hp)
      as (s' & ps & Hrun & Hps & Hw' & Hf').
    destruct (flush_spec Marshal true (set_closed s true) Hp)
      as (err0 & s0 & ps0 & Hrun0 & _ & _ & _ & _ & _ & Hch & _).
    unfold flush in Hfin, Hrun0. rewrite Hrun in Hrun0.
    injection Hrun0 as <- <-. rewrite Hrun in Hfin. stream_simpl.
    unfold chan_send in Hfin. rewrite Hps in Hfin. stream_simpl.
    rewrite writePacket_clean in Hfin by (try exact Hok; exact Hf').
    stream_simpl.
    match type of Hfin with finishDeferred late None ?s3 = _ =>
      destruct (finishDeferred_frame late None s3)
        as (err' & s4 & Hrun' & H1 & _ & _ & _ & _ & H6 & _)
    end.
    { reflexivity. }
    { stream_simpl. rewrite Hch. exact Hcc. }
    rewrite Hrun' in Hfin. injection Hfin as <- <-.
    unfold emitted in *. rewrite H1, H6. stream_simpl. cbn [written faults].
    split; [reflexivity|].
    rewrite Hw', Hw, !frames_app. cbn [map concat]. rewrite app_nil_r.
    rewrite <- app_assoc. reflexivity.
  - injection Hs as <- <-. unfold ackerLatches.
    destruct (ackErr s); auto.
Qed.

(** X15. On a connection whose writes all succeed, with an encoder that
    never fails, the socket carries the frames of the emitted packets and
    nothing else, in the order of emission (heartbeats apart): each
    packet's header, checksums and data follow those of the packet before
    it. *)
Theorem socket_carries_the_emitted_frames Marshal c start cs rs s :
  (forall h, (Marshal h).2 = None) ->
  faults c = [] ->
  written c = [] ->
  Forall (fun c => c <> HeartBeat) cs ->
  run Marshal cs (newBlockWriteStream c start) = Done (rs, s) ->
  written (conn s) = concat (map (frameOf Marshal) (emitted s)).
Proof.
  intros Hok Hf Hw Hnh Hrun.
  assert (Hgen : forall cs s0 rs s,
            Forall (fun c => c <> HeartBeat) cs ->
            channelsOpen s0 ->
            faults (conn s0) = [] ->
            written (conn s0) = concat (map (frameOf Marshal) (emitted s0)) ->
            run Marshal cs s0 = Done (rs, s) ->
            written (conn s) = concat (map (frameOf Marshal) (emitted s))).
  { clear - Hok. intros cs. induction cs as [|c cs IH];
      intros s0 rs s Hnh Hopen Hf Hw Hrun.
    - cbn in Hrun. injection Hrun as <- <-. exact Hw.
    - inversion Hnh as [|? ? Hc Hnh']; subst.
      apply run_cons_inv in Hrun
        as (r & s1 & rs1 & -> & Hs & _ & Ho & Hrun); [|exact Hopen].
      destruct (step_wire Marshal c s0 r s1 Hok Hc Hopen Hf Hw Hs)
        as [Hf1 Hw1].
      apply (IH s1 rs1 s Hnh' Ho Hf1 Hw1 Hrun). }
  apply (Hgen cs _ rs s Hnh (new_channelsOpen c start)); auto.
Qed.

Lemma fixedMarshal_ok h : (fixedMarshal h).2 = None.
Proof. reflexivity. Qed.

Lemma socket_carries_the_emitted_frames_witness :
  exists rs s,
    run fixedMarshal [CallWrite [x41; x42; x43]; CallFinish None]
        (newBlockWriteStream (mkConn [] []) 0) = Done (rs, s)
    /\ length (written (conn s)) = 6%nat
    /\ written (conn s) = concat (map (frameOf fixedMarshal) (emitted s)).
Proof.
  eexists _, _.
  split; [vm_compute; reflexivity|]. split; [reflexivity|].
  eapply (socket_carries_the_emitted_frames fixedMarshal (mkConn [] []) 0
            [CallWrite [x41; x42; x43]; CallFinish None]).
  - apply fixedMarshal_ok.
  - reflexivity.
  - reflexivity.
  - repeat constructor; discriminate.
  - vm_compute. reflexivity.
Defined.

(** X16. A packet is enqueued and counted before it is written: when the
    socket refuses the header of the packet the drain has just cut, [flush]
    returns that error with the packet already on the in-flight channel,
    its bytes out of the buffer and [offset] and [seqno] advanced, and
    nothing written. *)
Theorem refused_packet_is_already_enqueued Marshal force s e rest :
  flushCond force s = true ->
  ch_closed (packets s) = false ->
  faults (conn s) = Some e :: rest ->
  (Marshal (headerOf (packetAt (buf s) (offset s) (seqno s)))).2 = None ->
  exists s',
    flush Marshal force s = Done (Some e, s')
    /\ emitted s' = emitted s ++ [packetAt (buf s) (offset s) (seqno s)]
    /\ p_data (packetAt (buf s) (offset s) (seqno s)) ++ buf s' = buf s
    /\ offset s'
       = int64 (offset s + len (p_data (packetAt (buf s) (offset s) (seqno s))))
    /\ seqno s' = int (seqno s + 1)
    /\ written (conn s') = written (conn s)
    /\ faults (conn s') = rest.
Proof.
  intros Hc Hopen Hf Hm. unfold flush.
  assert (Hpos : (0 < length (buf s))%nat).
  { unfold flushCond, len in Hc. apply andb_prop in Hc as [H1 _]. lia. }
  destruct (length (buf s)) as [|fuel] eqn:El; [lia|]. clear Hpos.
  cbn [flushLoop]. rewrite Hc. unfold flushBody.
  rewrite makePacket_eq. cbn [rbind].
  set (p := packetAt (buf s) (offset s) (seqno s)) in *.
  unfold chan_send. cbn [packets set_buf]. rewrite Hopen. cbn [rbind].
  unfold writePacket. unfold headerOf in Hm.
  destruct (Marshal _) as [info [e'|]]; [discriminate|].
  rewrite frameHeader_eq. cbn [rbind]. unfold conn_Write.
  stream_simpl. rewrite Hf. cbn [rbind].
  eexists. split; [reflexivity|]. stream_simpl. cbn [written faults].
  split; [reflexivity|]. split; [apply packetAt_take_drop|].
  split; [apply int64_add_r|]. repeat split.
Qed.

Lemma refused_packet_is_already_enqueued_witness :
  let s := set_buf (newBlockWriteStream (mkConn [] [Some (ErrIO 7)]) 0)
                   [x41; x42; x43] in
  exists s',
    flush fixedMarshal true s = Done (Some (ErrIO 7), s')
    /\ emitted s' = emitted s ++ [packetAt (buf s) (offset s) (seqno s)]
    /\ p_data (packetAt (buf s) (offset s) (seqno s)) ++ buf s' = buf s
    /\ offset s'
       = int64 (offset s + len (p_data (packetAt (buf s) (offset s) (seqno s))))
    /\ seqno s' = int (seqno s + 1)
    /\ written (conn s') = written (conn s)
    /\ faults (conn s') = [].
Proof.
  intros s.
  apply (refused_packet_is_already_enqueued fixedMarshal true s (ErrIO 7) []);
    reflexivity.
Defined.

(** ** More on the acker *)

Lemma firstFailure_forallb reply : forall i0,
  firstFailure i0 reply = None
  <-> forallb (fun status => status =? Status_SUCCESS) reply = true.
Proof.
  induction reply as [|x reply IH]; intros i0; cbn [firstFailure forallb].
  - tauto.
  - destruct (decide (x <> Status_SUCCESS)) as [Hx|Hx].
    + apply Z.eqb_neq in Hx. rewrite Hx. cbn [andb]. split; discriminate.
    + assert (E : x = Status_SUCCESS)
        by (destruct (decide (x = Status_SUCCESS)); tauto).
      apply Z.eqb_eq in E. rewrite E. cbn [andb]. apply IH.
Qed.

Lemma ackOnce_heartbeat r : ackOnce r = None <-> isHeartBeatAck r = true.
Proof.
  destruct r as [ack|e]; cbn [ackOnce isHeartBeatAck]; [|split; discriminate].
  destruct (firstFailure 0 (ack_reply ack)) as [[i st]|] eqn:E.
  - split; [discriminate|]. intros H. apply andb_prop in H as [H _].
    apply (proj2 (firstFailure_forallb _ 0)) in H. congruence.
  - apply (proj1 (firstFailure_forallb _ 0)) in E. rewrite E. cbn [andb].
    destruct (decide (int (ack_seqno ack) <> heartBeatSeqno)) as [Hx|Hx].
    + apply Z.eqb_neq in Hx. rewrite Hx. split; discriminate.
    + assert (E' : int (ack_seqno ack) = heartBeatSeqno)
        by (destruct (decide (int (ack_seqno ack) = heartBeatSeqno)); tauto).
      apply Z.eqb_eq in E'. rewrite E'. tauto.
Qed.

Lemma readAcks_events reader :
  omap dequeuedPacket (readAcks reader).1.1 = [].
Proof.
  induction reader as [|r rest IH]; cbn [readAcks]; [reflexivity|].
  destruct (ackOnce r); [reflexivity|].
  destruct (readAcks rest) as [[evs exit] rest']. exact IH.
Qed.

Lemma omap_drain ch : omap dequeuedPacket (drain ch) = ch.
Proof.
  unfold drain. rewrite omap_app. cbn. rewrite app_nil_r.
  induction ch as [|p ch IH]; [reflexivity|]. cbn. rewrite IH. reflexivity.
Qed.

(** X17. Provided every read of the socket returns, with an ack or with an
    error, the acker takes every packet off the channel, in order, latched
    error or not, and ends when the channel is closed. The socket's input
    is the list of the outcomes of the reads, each of which returns. *)
Theorem acker_dequeues_every_packet ch : forall rd,
  omap dequeuedPacket (events (ackPackets ch rd)) = ch
  /\ list.last (events (ackPackets ch rd)) = Some ChannelClosed.
Proof.
  induction ch as [|p ch IH]; intros rd; cbn [ackPackets].
  - split; reflexivity.
  - pose proof (readAcks_events rd) as Hr.
    destruct (readAcks rd) as [[evs exit] rest]. cbn [fst] in Hr.
    assert (Hd : forall e,
              omap dequeuedPacket (Dequeued p :: evs ++ Latched e :: drain ch)
              = p :: ch
              /\ list.last (Dequeued p :: evs ++ Latched e :: drain ch)
                 = Some ChannelClosed).
    { intros e. split.
      - cbn [omap list_omap dequeuedPacket]. f_equal.
        rewrite omap_app, Hr. cbn. apply omap_drain.
      - change (Dequeued p :: evs ++ Latched e :: drain ch)
          with ((Dequeued p :: evs) ++ Latched e :: drain ch).
        unfold drain.
        change (Latched e :: map Dequeued ch ++ [ChannelClosed])
          with ((Latched e :: map Dequeued ch) ++ [ChannelClosed]).
        rewrite app_assoc. apply last_snoc. }
    destruct exit as [e|seqno]; [apply Hd|].
    destruct (decide (seqno <> p_seqno p)); [apply Hd|].
    cbn [events]. destruct (IH rest) as [IH1 IH2]. split.
    + cbn [omap list_omap dequeuedPacket]. f_equal.
      rewrite omap_app, Hr, IH1. reflexivity.
    + change (Dequeued p :: evs ++ events (ackPackets ch rest))
        with ((Dequeued p :: evs) ++ events (ackPackets ch rest)).
      destruct (events (ackPackets ch rest)) as [|ev evs'] eqn:E;
        [discriminate|].
      rewrite last_app, IH2. reflexivity.
Qed.

Lemma readAcks_without_heartbeats rd :
  (readAcks (List.filter (fun r => negb (isHeartBeatAck r)) rd)).1.2
  = (readAcks rd).1.2
  /\ (readAcks (List.filter (fun r => negb (isHeartBeatAck r)) rd)).2
     = List.filter (fun r => negb (isHeartBeatAck r)) (readAcks rd).2.
Proof.
  induction rd as [|r rd IH]; [split; reflexivity|].
  cbn [List.filter readAcks].
  destruct (ackOnce r) as [exit|] eqn:E.
  - assert (Hh : isHeartBeatAck r = false).
    { destruct (isHeartBeatAck r) eqn:Hh; [|reflexivity].
      apply ackOnce_heartbeat in Hh. congruence. }
    rewrite Hh. cbn [negb readAcks]. rewrite E. split; reflexivity.
  - apply ackOnce_heartbeat in E. rewrite E. cbn [negb].
    destruct (readAcks rd) as [[evs exit] rest]. exact IH.
Qed.

(** X18. Heartbeat acks are invisible to the acker's verdict: taking every
    ack with all statuses SUCCESS and seqno -1 out of the socket's input
    changes neither the error the acker latches (or that it latches none)
    nor, heartbeats apart, what it leaves unread. *)
Theorem heartbeat_acks_do_not_change_the_verdict ch : forall rd,
  latched (ackPackets ch (List.filter (fun r => negb (isHeartBeatAck r)) rd))
  = latched (ackPackets ch rd)
  /\ unread (ackPackets ch (List.filter (fun r => negb (isHeartBeatAck r)) rd))
     = List.filter (fun r => negb (isHeartBeatAck r))
                   (unread (ackPackets ch rd)).
Proof.
  induction ch as [|p ch IH]; intros rd; cbn [ackPackets].
  - split; reflexivity.
  - destruct (readAcks_without_heartbeats rd) as [H1 H2].
    destruct (readAcks (List.filter _ rd)) as [[evs' exit'] rest'].
    destruct (readAcks rd) as [[evs exit] rest].
    cbn [fst snd] in H1, H2. subst exit' rest'.
    destruct exit as [e|seqno]; [split; reflexivity|].
    destruct (decide (seqno <> p_seqno p)); [split; reflexivity|].
    cbn [latched unread]. apply IH.
Qed.

(** X19. When the socket delivers, in the order of emission, one ack of
    all SUCCESS per packet with the packet's seqno, the acker latches
    nothing: it takes each packet off the channel, reads its ack, and
    leaves whatever follows unread. The seqnos are [int]s other than -1, as
    those of emitted packets are. *)
Theorem acks_in_order_latch_nothing n ch : forall extra,
  Forall (fun p => int (p_seqno p) = p_seqno p
                   /\ p_seqno p <> heartBeatSeqno) ch ->
  ackPackets ch (map (ackFor n) ch ++ extra)
  = mkAckerRun
      (concat (map (fun p => [Dequeued p; SocketRead (ackFor n p)]) ch)
       ++ [ChannelClosed])
      None extra.
Proof.
  induction ch as [|p ch IH]; intros extra Hch; [reflexivity|].
  inversion Hch as [|? ? [Hint Hhb] Hch']; subst.
  cbn [map app ackPackets readAcks ackFor ackOnce ack_reply ack_seqno].
  rewrite firstFailure_none by (apply Forall_replicate; reflexivity).
  rewrite Hint.
  destruct (decide (p_seqno p <> heartBeatSeqno)); [|tauto].
  destruct (decide (p_seqno p <> p_seqno p)); [congruence|].
  fold (ackFor n p). rewrite (IH extra Hch'). reflexivity.
Qed.

Lemma acks_in_order_latch_nothing_witness :
  let p1 := mkPacket 1 0 false [] [x41] in
  let p2 := mkPacket 2 1 true [] [] in
  ackPackets [p1; p2] (map (ackFor 3) [p1; p2] ++ [ReadErr EOF])
  = mkAckerRun
      [Dequeued p1; SocketRead (ackFor 3 p1);
       Dequeued p2; SocketRead (ackFor 3 p2); ChannelClosed]
      None [ReadErr EOF].
Proof.
  intros p1 p2.
  apply (acks_in_order_latch_nothing 3 [p1; p2] [ReadErr EOF]).
  repeat constructor; discriminate.
Defined.

(** ** The heartbeater *)

Lemma writeHeartBeatPacket_eq Marshal infoBytes s :
  Marshal heartBeatHeader = (infoBytes, None) ->
  writeHeartBeatPacket Marshal s
  = Done (let '(err, c) := conn_Write (conn s) (heartBeatFrame infoBytes) in
          (err, set_conn s c)).
Proof.
  intros Hm. unfold writeHeartBeatPacket. rewrite Hm, frameHeader_eq.
  cbn [rbind]. unfold heartBeatFrame.
  destruct (conn_Write _ _). reflexivity.
Qed.

(** X20. The heartbeater writes one heartbeat frame per tick until the close
    channel is closed, and a failing write does not stop it: after [n]
    ticks and the close signal it has made [n] writes, the errors among
    them have been printed in order, every other one has put one whole
    heartbeat frame on the socket, and nothing but the connection has
    changed. What the ticker does after the close signal is not seen. The
    encoder accepts the heartbeat header. *)
Theorem heartbeater_goes_on_after_errors Marshal infoBytes n : forall s sel,
  Marshal heartBeatHeader = (infoBytes, None) ->
  exists printed s' k,
    sendHeartBeats Marshal (replicate n TickerFired ++ CloseChClosed :: sel) s
    = Done (printed, s')
    /\ printed = omap id (take n (faults (conn s)))
    /\ written (conn s')
       = written (conn s) ++ replicate k (heartBeatFrame infoBytes)
    /\ (k + length printed = n)%nat
    /\ faults (conn s') = drop n (faults (conn s))
    /\ s' = set_conn s (conn s').
Proof.
  induction n as [|n IH]; intros s sel Hm.
  - exists [], s, 0%nat. cbn. rewrite app_nil_r, set_conn_same.
    repeat split.
  - cbn [replicate app sendHeartBeats].
    rewrite (writeHeartBeatPacket_eq Marshal infoBytes s Hm). cbn [rbind].
    unfold conn_Write.
    destruct (faults (conn s)) as [|[e|] rest] eqn:Ef.
    + destruct (IH (set_conn s (mkConn (written (conn s)
                                        ++ [heartBeatFrame infoBytes]) []))
                   sel Hm)
        as (printed & s' & k & Hrun & Hp & Hw & Hk & Hf & Hs).
      rewrite Hrun. cbn [rbind]. stream_simpl. cbn [written faults] in *.
      exists printed, s', (S k). split; [reflexivity|].
      rewrite take_nil in *. rewrite drop_nil in *. cbn in Hp. subst printed.
      split; [reflexivity|]. split.
      { rewrite Hw, <- app_assoc. reflexivity. }
      split; [cbn in *; lia|]. split; [exact Hf|].
      rewrite Hs. destruct s; reflexivity.
    + destruct (IH (set_conn s (mkConn (written (conn s)) rest)) sel Hm)
        as (printed & s' & k & Hrun & Hp & Hw & Hk & Hf & Hs).
      rewrite Hrun. cbn [rbind]. stream_simpl. cbn [written faults] in *.
      exists (e :: printed), s', k. split; [reflexivity|].
      split; [cbn; rewrite Hp; reflexivity|]. split; [exact Hw|].
      split; [cbn [length]; lia|]. split; [exact Hf|].
      rewrite Hs. destruct s; reflexivity.
    + destruct (IH (set_conn s (mkConn (written (conn s)
                                        ++ [heartBeatFrame infoBytes]) rest))
                   sel Hm)
        as (printed & s' & k & Hrun & Hp & Hw & Hk & Hf & Hs).
      rewrite Hrun. cbn [rbind]. stream_simpl. cbn [written faults] in *.
      exists printed, s', (S k). split; [reflexivity|].
      split; [cbn; rewrite Hp; reflexivity|]. split.
      { rewrite Hw, <- app_assoc. reflexivity. }
      split; [lia|]. split; [exact Hf|].
      rewrite Hs. destruct s; reflexivity.
Qed.

Lemma heartbeater_goes_on_after_errors_witness :
  let s := newBlockWriteStream (mkConn [] [None; Some (ErrIO 4); None]) 0 in
  exists printed s' k,
    sendHeartBeats fixedMarshal
      (replicate 3 TickerFired ++ CloseChClosed :: [TickerFired]) s
    = Done (printed, s')
    /\ printed = omap id (take 3 (faults (conn s)))
    /\ written (conn s')
       = written (conn s)
         ++ replicate k (heartBeatFrame (fixedMarshal heartBeatHeader).1)
    /\ (k + length printed = 3)%nat
    /\ faults (conn s') = drop 3 (faults (conn s))
    /\ s' = set_conn s (conn s').
Proof.
  intros s.
  apply (heartbeater_goes_on_after_errors fixedMarshal
           (fixedMarshal heartBeatHeader).1 3 s [TickerFired]).
  reflexivity.
Defined.

(** ** What the acker reads *)

Lemma readAcks_outcomes rd :
  (omap readOutcome (readAcks rd).1.1 ++ (readAcks rd).2 = rd
   \/ (omap readOutcome (readAcks rd).1.1 = rd ++ [ReadErr EOF]
       /\ (readAcks rd).2 = [] /\ (readAcks rd).1.2 = BreakL EOF))
  /\ omap latchedError (readAcks rd).1.1 = [].
Proof.
  induction rd as [|r rest IH]; cbn [readAcks].
  - split; [right; repeat split|reflexivity].
  - destruct (ackOnce r); [split; [left|]; reflexivity|].
    destruct (readAcks rest) as [[evs exit] rest']. cbn [fst snd] in *.
    destruct IH as [[IH|(IH & -> & ->)] IHl]; (split; [|exact IHl]).
    + left. cbn. rewrite IH. reflexivity.
    + right. cbn. rewrite IH. repeat split.
Qed.

Lemma drain_reads ch :
  omap readOutcome (drain ch) = [] /\ omap latchedError (drain ch) = [].
Proof.
  unfold drain. rewrite !omap_app. cbn.
  induction ch as [|p ch [IH1 IH2]]; [split; reflexivity|]. cbn.
  split; assumption.
Qed.

(** X21. The acker reads the socket in order and never past its verdict:
    the outcomes it has read, followed by those it leaves, are the socket's
    input, unless it ran into the end of the input, which it reads as one
    [io.EOF] and latches. It assigns [ackError] at most once, and the error
    it assigns is the one left latched. *)
Theorem acker_reads_in_order_and_latches_once ch : forall rd,
  (omap readOutcome (events (ackPackets ch rd)) ++ unread (ackPackets ch rd)
   = rd
   \/ (omap readOutcome (events (ackPackets ch rd)) = rd ++ [ReadErr EOF]
       /\ unread (ackPackets ch rd) = []
       /\ latched (ackPackets ch rd) = Some EOF))
  /\ omap latchedError (events (ackPackets ch rd))
     = match latched (ackPackets ch rd) with Some e => [e] | None => [] end.
Proof.
  induction ch as [|p ch IH]; intros rd; cbn [ackPackets].
  - split; [left|]; reflexivity.
  - destruct (readAcks_outcomes rd) as [Hr Hl].
    destruct (drain_reads ch) as [Hd1 Hd2].
    destruct (readAcks rd) as [[evs exit] rest]. cbn [fst snd] in *.
    assert (Herr : forall e,
      (omap readOutcome (Dequeued p :: evs ++ Latched e :: drain ch) ++ rest
       = rd
       \/ (omap readOutcome (Dequeued p :: evs ++ Latched e :: drain ch)
           = rd ++ [ReadErr EOF] /\ rest = [] /\ exit = BreakL EOF))
      /\ omap latchedError (Dequeued p :: evs ++ Latched e :: drain ch)
         = [e]).
    { intros e.
      change (Dequeued p :: evs ++ Latched e :: drain ch)
        with ([Dequeued p] ++ evs ++ [Latched e] ++ drain ch).
      rewrite !omap_app, Hd1, Hd2, Hl. cbn. rewrite !app_nil_r.
      split; [exact Hr|reflexivity]. }
    destruct exit as [e|seqno].
    + cbn [events unread latched].
      destruct (Herr e) as [[H|(H & -> & [= ->])] H'].
      * split; [left; exact H|exact H'].
      * split; [right; repeat split; exact H|exact H'].
    + destruct (decide (seqno <> p_seqno p)).
      * cbn [events unread latched].
        destruct (Herr ErrInvalidSeqno) as [[H|(_ & _ & [=])] H'].
        split; [left; exact H|exact H'].
      * cbn [events unread latched].
        destruct Hr as [Hr|(_ & _ & [=])].
        destruct (IH rest) as [IHr IHl].
        change (Dequeued p :: evs ++ events (ackPackets ch rest))
          with ([Dequeued p] ++ evs ++ events (ackPackets ch rest)).
        rewrite !omap_app, Hl, IHl.
        change (omap readOutcome [Dequeued p]) with (@nil ackRead).
        change (omap latchedError [Dequeued p]) with (@nil error).
        cbn [app]. split; [|reflexivity].
        destruct IHr as [IHr|(IHr & Hu & Hla)].
        -- left. rewrite <- app_assoc, IHr. exact Hr.
        -- right. rewrite IHr, Hu, Hla, app_assoc, Hr. repeat split.
Qed.
